(** * psych-shader-fixer: the shader auto-repair pipeline, the log-driven
      remediation pass and the WebGL preview engine of [script.js]

    The development embeds the algorithmic parts of [script.js]:
    - the JavaScript regular expressions the repair heuristics are written
      with, through a backtracking matcher that follows the ECMAScript
      pattern semantics (ordered alternation, greedy and lazy quantifiers
      with the empty-iteration check, capture groups, word boundaries);
    - [smartFixShader] and [parseErrorsAndFix], in a small state and
      exception monad over the page's log and globals;
    - [compileAndRun] / [stopPreview] over an abstract graphics driver;
    - the gesture handlers that update the interaction state, over IEEE-754
      binary64 numbers ([SpecFloat]);
    - [esc], [appendCommentUI], [postCommentHandler] and the snapshot
      listener of the comment list;
    - [updateLineNumbers] and the click handlers of the two fix buttons.

    Strings are sequences of code units below 256. *)

From Stdlib Require Import String Ascii List Bool Arith Lia ZArith QArith DecimalString.
From Stdlib Require Import Floats.SpecFloat.
Import ListNotations.

Local Open Scope list_scope.
Local Open Scope string_scope.
Local Open Scope nat_scope.

Set Implicit Arguments.

(* ===================================================================== *)
(** ** Characters *)
(* ===================================================================== *)

Module Chars.

Definition code (c : ascii) : nat := nat_of_ascii c.

Definition between (lo hi : nat) (c : ascii) : bool :=
  (lo <=? code c) && (code c <=? hi).

Definition NL : ascii := "010"%char.
Definition CR : ascii := "013"%char.

(** WhiteSpace and LineTerminator code units below 256: TAB, LF, VT, FF, CR,
    SP and NBSP.  This is the set of [\s] and of [String.prototype.trim]. *)
Definition is_space (c : ascii) : bool :=
  between 9 13 c || (code c =? 32) || (code c =? 160).

Definition is_digit (c : ascii) : bool := between 48 57 c.
Definition is_lower (c : ascii) : bool := between 97 122 c.
Definition is_upper (c : ascii) : bool := between 65 90 c.

(** [\w] is [A-Za-z0-9_]. *)
Definition is_word (c : ascii) : bool :=
  is_lower c || is_upper c || is_digit c || (code c =? 95).

(** [.] excludes the line terminators. *)
Definition is_line_terminator (c : ascii) : bool :=
  (code c =? 10) || (code c =? 13).

(** Simple upper-casing of a code unit, as Canonicalize does under the [i]
    flag: ASCII letters and the Latin-1 letters whose upper case is again a
    single code unit below 256. *)
Definition upcase (c : ascii) : ascii :=
  if is_lower c || (between 224 254 c && negb (code c =? 247))
  then ascii_of_nat (code c - 32) else c.

Definition downcase (c : ascii) : ascii :=
  if is_upper c || (between 192 222 c && negb (code c =? 215))
  then ascii_of_nat (code c + 32) else c.

Definition canonicalize (ic : bool) (c : ascii) : ascii :=
  if ic then upcase c else c.

Definition is_word_opt (o : option ascii) : bool :=
  match o with Some c => is_word c | None => false end.

End Chars.
Import Chars.

(* ===================================================================== *)
(** ** String primitives of the JavaScript standard library *)
(* ===================================================================== *)

Module Str.

Definition nl : string := String NL EmptyString.

Definition is_empty (s : string) : bool :=
  match s with EmptyString => true | _ => false end.

(** [s.startsWith(p)] *)
Fixpoint startsWith (p s : string) : bool :=
  match p, s with
  | EmptyString, _ => true
  | String a p', String b s' => Ascii.eqb a b && startsWith p' s'
  | String _ _, EmptyString => false
  end.

(** [s.includes(p)] *)
Fixpoint includes (p s : string) : bool :=
  startsWith p s ||
  match s with
  | EmptyString => false
  | String _ s' => includes p s'
  end.

Fixpoint rev_acc (s acc : string) : string :=
  match s with
  | EmptyString => acc
  | String c s' => rev_acc s' (String c acc)
  end.

Definition rev (s : string) : string := rev_acc s EmptyString.

(** [s.endsWith(p)] *)
Definition endsWith (p s : string) : bool := startsWith (rev p) (rev s).

Fixpoint last (s : string) : option ascii :=
  match s with
  | EmptyString => None
  | String c EmptyString => Some c
  | String _ s' => last s'
  end.

Fixpoint take (n : nat) (s : string) : string :=
  match n, s with
  | S n', String c s' => String c (take n' s')
  | _, _ => EmptyString
  end.

Fixpoint drop (n : nat) (s : string) : string :=
  match n, s with
  | S n', String _ s' => drop n' s'
  | _, _ => s
  end.

Fixpoint trimStart (s : string) : string :=
  match s with
  | String c s' => if is_space c then trimStart s' else s
  | EmptyString => EmptyString
  end.

Fixpoint trimEnd (s : string) : string :=
  match s with
  | EmptyString => EmptyString
  | String c s' =>
      let t := trimEnd s' in
      if is_space c && is_empty t then EmptyString else String c t
  end.

(** [s.trim()] *)
Definition trim (s : string) : string := trimEnd (trimStart s).

(** [s.split('\n')]: never empty, the empty string gives one empty piece. *)
Fixpoint split_nl (s : string) : list string :=
  match s with
  | EmptyString => [EmptyString]
  | String c s' =>
      if Ascii.eqb c NL then EmptyString :: split_nl s'
      else match split_nl s' with
           | h :: t => String c h :: t
           | [] => [String c EmptyString]
           end
  end.

(** [a.join('\n')] *)
Fixpoint join_nl (l : list string) : string :=
  match l with
  | [] => EmptyString
  | [x] => x
  | x :: t => x ++ nl ++ join_nl t
  end.

(** [s.repeat(n)] *)
Fixpoint repeat (s : string) (n : nat) : string :=
  match n with
  | O => EmptyString
  | S n' => s ++ repeat s n'
  end.

(** Number of code units equal to [c]: [(s.match(/c/g) || []).length] for a
    one-character pattern. *)
Fixpoint count_char (c : ascii) (s : string) : nat :=
  match s with
  | EmptyString => 0
  | String d s' => (if Ascii.eqb c d then 1 else 0) + count_char c s'
  end.

End Str.

(* ===================================================================== *)
(** ** Regular expressions *)
(* ===================================================================== *)

Module Regex.

(** Members of a character class. *)
Inductive citem : Type :=
| CChar (c : ascii)
| CRange (lo hi : ascii)
| CSpace                       (* \s *)
| CWord                        (* \w *)
| CDigit.                      (* \d *)

Inductive regex : Type :=
| Eps
| Chr (c : ascii)
| Dot
| Cls (negated : bool) (items : list citem)
| WordB                                        (* \b *)
| Bol                                          (* ^ *)
| Eol                                          (* $ *)
| Seq (r1 r2 : regex)
| Alt (r1 r2 : regex)
| Quant (min : nat) (max : option nat) (greedy : bool) (r : regex)
| Group (n : nat) (r : regex).                 (* n-th capturing group *)

(** Matcher state: the code unit before the current position ([None] at the
    start of the input), the input that remains, and the captures so far. *)
Record mstate : Type := MState {
  prev : option ascii;
  rest : string;
  caps : list (nat * string)
}.

Definition item_has (it : citem) (c : ascii) : bool :=
  match it with
  | CChar a => Ascii.eqb a c
  | CRange lo hi => between (code lo) (code hi) c
  | CSpace => is_space c
  | CWord => is_word c
  | CDigit => is_digit c
  end.

Definition items_have (items : list citem) (c : ascii) : bool :=
  existsb (fun it => item_has it c) items.

(** CharacterSetMatcher: with the [i] flag a code unit is in the set when
    some member has the same canonical form. *)
Definition class_has (ic : bool) (items : list citem) (c : ascii) : bool :=
  if ic then items_have items c || items_have items (upcase c)
            || items_have items (downcase c)
  else items_have items c.

Definition step_char (p : ascii -> bool) (k : mstate -> option mstate)
    (st : mstate) : option mstate :=
  match rest st with
  | String c s' => if p c then k (MState (Some c) s' (caps st)) else None
  | EmptyString => None
  end.

Definition is_boundary (st : mstate) : bool :=
  xorb (is_word_opt (prev st))
       (match rest st with String c _ => is_word c | EmptyString => false end).

Definition max_is_zero (mx : option nat) : bool :=
  match mx with Some 0 => true | _ => false end.

Definition max_pred (mx : option nat) : option nat :=
  match mx with Some n => Some (pred n) | None => None end.

(** RepeatMatcher, over the matcher [body] of the quantified atom: at most
    [max] and at least [min] iterations, the greedy form trying one more
    iteration before the continuation and the lazy form after it.  An
    iteration that is not required ([min = 0]) and consumes nothing is
    rejected, so [min + length rest + 1] rounds of [fuel] are enough. *)
Fixpoint rep (body : (mstate -> option mstate) -> mstate -> option mstate)
    (greedy : bool) (k : mstate -> option mstate)
    (fuel mn : nat) (mx : option nat) (st : mstate) {struct fuel}
  : option mstate :=
  match fuel with
  | O => None
  | S fuel' =>
      if max_is_zero mx then k st
      else
        let iter := fun _ : unit =>
          body
            (fun st' =>
               if (mn =? 0) &&
                  (String.length (rest st') =? String.length (rest st))
               then None
               else rep body greedy k fuel' (pred mn) (max_pred mx) st')
            st in
        if 0 <? mn then iter tt
        else if greedy then
          match iter tt with Some res => Some res | None => k st end
        else
          match k st with Some res => Some res | None => iter tt end
  end.

(** The backtracking matcher in continuation-passing style.  [ic] is the
    ignore-case flag. *)
Fixpoint m (ic : bool) (r : regex) (k : mstate -> option mstate)
    (st : mstate) {struct r} : option mstate :=
  match r with
  | Eps => k st
  | Chr a =>
      step_char (fun c => Ascii.eqb (canonicalize ic a) (canonicalize ic c)) k st
  | Dot => step_char (fun c => negb (is_line_terminator c)) k st
  | Cls neg items => step_char (fun c => xorb neg (class_has ic items c)) k st
  | WordB => if is_boundary st then k st else None
  | Bol => match prev st with None => k st | Some _ => None end
  | Eol => match rest st with EmptyString => k st | String _ _ => None end
  | Seq r1 r2 => m ic r1 (m ic r2 k) st
  | Alt r1 r2 =>
      match m ic r1 k st with
      | Some res => Some res
      | None => m ic r2 k st
      end
  | Group n r1 =>
      m ic r1
        (fun st' =>
           k (MState (prev st') (rest st')
                ((n, Str.take (String.length (rest st) - String.length (rest st'))
                       (rest st)) :: caps st')))
        st
  | Quant mn mx greedy r1 =>
      rep (m ic r1) greedy k (mn + String.length (rest st) + 1) mn mx st
  end.

(** One match attempt at the current position. *)
Definition match_here (ic : bool) (r : regex) (p : option ascii) (s : string)
  : option mstate :=
  m ic r (fun st => Some st) (MState p s []).

(** Leftmost search: [RegExp.prototype.exec] on a non-global pattern. *)
Fixpoint exec_from (ic : bool) (r : regex) (p : option ascii) (s : string)
  : option mstate :=
  match match_here ic r p s with
  | Some st => Some st
  | None =>
      match s with
      | String c s' => exec_from ic r (Some c) s'
      | EmptyString => None
      end
  end.

Definition exec (ic : bool) (r : regex) (s : string) : option mstate :=
  exec_from ic r None s.

(** [r.test(s)] *)
Definition test (ic : bool) (r : regex) (s : string) : bool :=
  match exec ic r s with Some _ => true | None => false end.

(** The text of a capture group; a group that did not take part is
    [undefined], which every use in the program turns into the empty string. *)
Fixpoint capture (n : nat) (cs : list (nat * string)) : option string :=
  match cs with
  | [] => None
  | (i, s) :: t => if i =? n then Some s else capture n t
  end.

Definition cap (n : nat) (st : mstate) : string :=
  match capture n (caps st) with Some s => s | None => EmptyString end.

(** [s.replace(r, f)] for a global pattern: scan left to right, replace each
    match by [f whole captures], copy what lies between; after an empty
    match the scan moves one code unit on. *)
Fixpoint replace_from (fuel : nat) (ic : bool) (r : regex)
    (f : string -> mstate -> string) (p : option ascii) (s : string) : string :=
  match fuel with
  | O => s
  | S fuel' =>
      match match_here ic r p s with
      | Some st =>
          let n := String.length s - String.length (rest st) in
          let out := f (Str.take n s) st in
          if n =? 0 then
            match s with
            | String c s' =>
                out ++ String c (replace_from fuel' ic r f (Some c) s')
            | EmptyString => out
            end
          else out ++ replace_from fuel' ic r f (prev st) (rest st)
      | None =>
          match s with
          | String c s' => String c (replace_from fuel' ic r f (Some c) s')
          | EmptyString => EmptyString
          end
      end
  end.

Definition replace_all (ic : bool) (r : regex)
    (f : string -> mstate -> string) (s : string) : string :=
  replace_from (S (String.length s)) ic r f None s.

(** [(s.match(r) || []).length] for a global pattern: the number of matches
    of the same left-to-right scan. *)
Fixpoint count_from (fuel : nat) (ic : bool) (r : regex)
    (p : option ascii) (s : string) : nat :=
  match fuel with
  | O => 0
  | S fuel' =>
      match match_here ic r p s with
      | Some st =>
          if String.length s - String.length (rest st) =? 0 then
            match s with
            | String c s' => S (count_from fuel' ic r (Some c) s')
            | EmptyString => 1
            end
          else S (count_from fuel' ic r (prev st) (rest st))
      | None =>
          match s with
          | String c s' => count_from fuel' ic r (Some c) s'
          | EmptyString => 0
          end
      end
  end.

Definition match_count (ic : bool) (r : regex) (s : string) : nat :=
  count_from (S (String.length s)) ic r None s.

(** Pattern builders. *)
Fixpoint lit (s : string) : regex :=
  match s with
  | EmptyString => Eps
  | String c EmptyString => Chr c
  | String c s' => Seq (Chr c) (lit s')
  end.

Fixpoint seq (rs : list regex) : regex :=
  match rs with
  | [] => Eps
  | [r] => r
  | r :: t => Seq r (seq t)
  end.

Fixpoint alt (rs : list regex) : regex :=
  match rs with
  | [] => Eps
  | [r] => r
  | r :: t => Alt r (alt t)
  end.

Definition star (r : regex) : regex := Quant 0 None true r.
Definition plus (r : regex) : regex := Quant 1 None true r.
Definition opt (r : regex) : regex := Quant 0 (Some 1) true r.
Definition lazy_star (r : regex) : regex := Quant 0 None false r.
Definition sp : regex := Cls false [CSpace].                  (* \s *)
Definition word : regex := Cls false [CWord].                 (* \w *)
Definition digit : regex := Cls false [CDigit].               (* \d *)
Definition range (lo hi : ascii) : citem := CRange lo hi.

End Regex.
Import Regex.

(* ===================================================================== *)
(** ** JavaScript values and the page monad *)
(* ===================================================================== *)

Module JS.

(** The values the exported functions can be handed, and the values a
    [throw] can carry.

    [JNum n] is the Number with the integer value [n], for [n] below
    [10^21] in magnitude, where ToString writes all the digits.

    [JObj replace split] is a plain object whose only own properties are
    [replace] and [split]; each is either not callable ([Missing]) or a
    function that throws a value ([Throws]).  Every other member is the one
    of [Object.prototype].  Symbols, other numbers and objects whose methods
    return are not among the arguments.

    A thrown value is an [Error] object with its [name] and [message] (what
    the engine and [new Error(...)] make), a Symbol, or any of the values
    above. *)
Inductive jsval : Type :=
| JUndefined
| JNull
| JBool (b : bool)
| JNum (n : Z)
| JStr (s : string)
| JObj (replace split : method)
with method : Type :=
| Missing
| Throws (e : thrown)
with thrown : Type :=
| Err (name message : string)
| Sym
| Val (v : jsval).

(** ToBoolean *)
Definition truthy (v : jsval) : bool :=
  match v with
  | JUndefined | JNull => false
  | JBool b => b
  | JNum n => negb (Z.eqb n 0)
  | JStr s => negb (Str.is_empty s)
  | JObj _ _ => true
  end.

(** [a || b] *)
Definition js_or (a b : jsval) : jsval := if truthy a then a else b.

Definition string_of_nat (n : nat) : string :=
  DecimalString.NilZero.string_of_uint (Nat.to_uint n).

(** ToString *)
Definition to_string (v : jsval) : string :=
  match v with
  | JUndefined => "undefined"
  | JNull => "null"
  | JBool true => "true"
  | JBool false => "false"
  | JNum n => DecimalString.NilZero.string_of_int (Z.to_int n)
  | JStr s => s
  | JObj _ _ => "[object Object]"
  end.

(** The page state the fixer touches: the main log (newest entry first, as
    [logMain] prepends; the clock prefix of an entry is left out) and the
    global [window.GODFIX_FIXED]. *)
Record page : Type := Page {
  mainLog : list (string * string);      (* (level, message) *)
  GODFIX_FIXED : jsval
}.

Inductive outcome (A : Type) : Type :=
| Ret (a : A)
| Throw (e : thrown).
Arguments Ret {A} a.
Arguments Throw {A} e.

(** Computations over a state [W] (the page, or the preview engine) that
    return a value or throw one. *)
Definition M (W A : Type) : Type := W -> outcome A * W.

Definition ret {W A} (a : A) : M W A := fun w => (Ret a, w).

Definition bind {W A B} (c : M W A) (f : A -> M W B) : M W B :=
  fun w =>
    match c w with
    | (Ret a, w') => f a w'
    | (Throw e, w') => (Throw e, w')
    end.

Definition throw {W A} (e : thrown) : M W A := fun w => (Throw e, w).

(** [throw new Error(message)] and the [TypeError] of the engine; the text
    of an engine message is the one V8 writes. *)
Definition Error_ (message : string) : thrown := Err "Error" message.
Definition TypeError (message : string) : thrown := Err "TypeError" message.

(** [try { c } catch (e) { h e }]: effects made before the throw stay. *)
Definition try_catch {W A} (c : M W A) (h : thrown -> M W A) : M W A :=
  fun w =>
    match c w with
    | (Ret a, w') => (Ret a, w')
    | (Throw e, w') => h e w'
    end.

Definition value_of {W A} (r : outcome A * W) : outcome A := fst r.
Definition state_of {W A} (r : outcome A * W) : W := snd r.

(** [e.message], read in a handler: [undefined] and [null] have no
    properties, an [Error] has its message, and nothing else that is thrown
    here has one. *)
Definition message_of {W} (e : thrown) : M W jsval :=
  match e with
  | Err _ message => ret (JStr message)
  | Val JUndefined =>
      throw (TypeError "Cannot read properties of undefined (reading 'message')")
  | Val JNull =>
      throw (TypeError "Cannot read properties of null (reading 'message')")
  | Sym | Val _ => ret JUndefined
  end.

(** [prefix + (e.message || e)], without the prefix: the message when it is
    not empty; otherwise ToString of [e] itself, which is the name for an
    [Error] with an empty message and a [TypeError] for a Symbol. *)
Definition describe {W} (e : thrown) : M W string :=
  match e with
  | Err name message => ret (if Str.is_empty message then name else message)
  | Val JUndefined =>
      throw (TypeError "Cannot read properties of undefined (reading 'message')")
  | Val JNull =>
      throw (TypeError "Cannot read properties of null (reading 'message')")
  | Sym => throw (TypeError "Cannot convert a Symbol value to a string")
  | Val v => ret (to_string v)
  end.

(** The engine's rendering of the expression [x || ''] in a message. *)
Definition or_empty (x : string) : string :=
  "(" ++ x ++ " || " ++ String "034" (String "034" EmptyString) ++ ")".

(** The own method [name] of an object. *)
Definition method_named (name : string) (replace split : method) : method :=
  if String.eqb name "replace" then replace
  else if String.eqb name "split" then split
  else Missing.

(** Calling the String.prototype method [name] of the value that the
    expression [receiver] has: a string has it, [undefined] and [null] have
    no properties, an object runs its own method when it has one, and for
    anything else the call is the call of [undefined]. *)
Definition string_method {W} (receiver name : string) (v : jsval)
  : M W string :=
  match v with
  | JStr s => ret s
  | JUndefined | JNull =>
      throw (TypeError ("Cannot read properties of " ++ to_string v
                        ++ " (reading '" ++ name ++ "')"))
  | JObj replace split =>
      match method_named name replace split with
      | Throws e => throw e
      | Missing => throw (TypeError (receiver ++ "." ++ name
                                     ++ " is not a function"))
      end
  | JBool _ | JNum _ =>
      throw (TypeError (receiver ++ "." ++ name ++ " is not a function"))
  end.

Fixpoint foldM {W A B} (f : B -> A -> M W A) (l : list B) (a : A) : M W A :=
  match l with
  | [] => ret a
  | x :: t => bind (f x a) (foldM f t)
  end.

End JS.
Import JS.

Declare Scope js_scope.
Delimit Scope js_scope with js.
Notation "x <- c ;; k" := (bind c (fun x => k))
  (at level 61, c at next level, right associativity) : js_scope.
Notation "c ;; k" := (bind c (fun _ => k))
  (at level 61, right associativity) : js_scope.

(* ===================================================================== *)
(** ** The shader fixer: [smartFixShader] and [parseErrorsAndFix] *)
(* ===================================================================== *)

Module Fixer.

Local Open Scope js_scope.
Local Open Scope char_scope.
Local Open Scope string_scope.
Local Open Scope nat_scope.

Definition chr (s : string) : regex := lit s.

(** [logMain(msg, level)]: prepend an entry to the main log (the mirror to
    the console has no effect on the page). *)
Definition logMain (msg level : string) : M page unit :=
  fun w => (Ret tt, Page ((level, msg) :: mainLog w) (GODFIX_FIXED w)).

Definition set_GODFIX_FIXED (v : jsval) : M page unit :=
  fun w => (Ret tt, Page (mainLog w) v).

(** *** Patterns of [smartFixShader] *)

(** [/\r\n/g] and [/\r/g] *)
Definition rx_crlf : regex := Seq (Chr CR) (Chr NL).
Definition rx_cr : regex := Chr CR.

(** [/precision\s+(lowp|mediump|highp)\s+float\s*;/] *)
Definition rx_precision : regex :=
  seq [lit "precision"; plus sp;
       Group 1 (alt [lit "lowp"; lit "mediump"; lit "highp"]);
       plus sp; lit "float"; star sp; Chr ";"].

(** [/\buniform\s+<type>\s+<name>\b/] *)
Definition rx_uniform (ty name : string) : regex :=
  seq [WordB; lit "uniform"; plus sp; lit ty; plus sp; lit name; WordB].

Definition uniforms : list (regex * string) :=
  [ (rx_uniform "float" "uTime", "uniform float uTime;");
    (rx_uniform "vec2" "uResolution", "uniform vec2 uResolution;");
    (rx_uniform "sampler2D" "uSampler", "uniform sampler2D uSampler;");
    (rx_uniform "float" "uRotate", "uniform float uRotate;");
    (rx_uniform "float" "uZoom", "uniform float uZoom;");
    (rx_uniform "float" "uColorOffset", "uniform float uColorOffset;") ].

(** [/texture2D\(/] *)
Definition rx_texture2D : regex := lit "texture2D(".

(** [/\)\s*{/], [/\{$/], [/\}$/], [/[;,\)\{\}]$/] *)
Definition rx_paren_brace : regex := seq [Chr ")"; star sp; Chr "{"].
Definition rx_open_end : regex := Seq (Chr "{") Eol.
Definition rx_close_end : regex := Seq (Chr "}") Eol.
Definition rx_terminated : regex :=
  Seq (Cls false [CChar ";"; CChar ","; CChar ")"; CChar "{"; CChar "}"]) Eol.

(** [/^(uniform|attribute|varying|in|out|const)\b/] *)
Definition rx_qualifier : regex :=
  seq [Bol;
       Group 1 (alt [lit "uniform"; lit "attribute"; lit "varying";
                     lit "in"; lit "out"; lit "const"]);
       WordB].

(** [/=/] and [/==/] *)
Definition rx_eq : regex := Chr "=".
Definition rx_eqeq : regex := lit "==".

Definition ident_start : regex :=
  Cls false [range "a" "z"; range "A" "Z"; CChar "_"].

(** [/\/\s*\(?([a-zA-Z_]\w*(?:\.[xyzw]{1,4})?)(\)?)/g] *)
Definition rx_division : regex :=
  seq [Chr "/"; star sp; opt (Chr "(");
       Group 1
         (seq [ident_start; star word;
               opt (Seq (Chr ".")
                        (Quant 1 (Some 4) true
                           (Cls false [CChar "x"; CChar "y"; CChar "z";
                                       CChar "w"])))]);
       Group 2 (opt (Chr ")"))].

(** [/^\d/] *)
Definition rx_leading_digit : regex := Seq Bol digit.

(** [/\{/g], [/\}/g], [/\(/g], [/\)/g] *)
Definition rx_lbrace : regex := Chr "{".
Definition rx_rbrace : regex := Chr "}".
Definition rx_lparen : regex := Chr "(".
Definition rx_rparen : regex := Chr ")".

(** [/\bundefined\b/g] and [/\bNULL\b/g] *)
Definition rx_undefined : regex := seq [WordB; lit "undefined"; WordB].
Definition rx_NULL : regex := seq [WordB; lit "NULL"; WordB].

(** The pattern of step 8 (source line 374), piece by piece:
    [\b] [(vec[234])] [\s+] [([a-zA-Z_]\w{0,})] [\s{0,}=\s{0,}]
    [([0-9]+(?:\.[0-9]+)?)] [\s{0,};], global. *)
Definition rx_vec_init : regex :=
  seq [WordB;
       Group 1 (Seq (lit "vec") (Cls false [CChar "2"; CChar "3"; CChar "4"]));
       plus sp;
       Group 2 (Seq ident_start (star word));
       star sp; Chr "="; star sp;
       Group 3 (Seq (plus (Cls false [range "0" "9"]))
                    (opt (Seq (Chr ".") (plus (Cls false [range "0" "9"])))));
       star sp; Chr ";"].

(** [/\bvoid\s+main\s*\(/] *)
Definition rx_main : regex :=
  seq [WordB; lit "void"; plus sp; lit "main"; star sp; Chr "("].

Definition fallback_main : string :=
  Str.nl ++ "void main(){ gl_FragColor = vec4(0.0); }".

(** *** The steps of [smartFixShader], in source order *)

(** [.replace(/\r\n/g, '\n').replace(/\r/g, '\n')] *)
Definition normalizeNewlines (s : string) : string :=
  replace_all false rx_cr (fun _ _ => Str.nl)
    (replace_all false rx_crlf (fun _ _ => Str.nl) s).

(** 1. add precision if missing *)
Definition ensurePrecision (out : string) : M page string :=
  if negb (test false rx_precision out) then
    logMain "Inserted precision mediump float;" "OK" ;;
    ret ("precision mediump float;" ++ Str.nl ++ out)
  else ret out.

(** 2. common uniforms: the [forEach] over the table, threading [out] and
    the counter [added] *)
Definition addUniform (u : regex * string) (acc : string * nat)
  : string * nat :=
  let '(out, added) := acc in
  if negb (test false (fst u) out) then (snd u ++ Str.nl ++ out, S added)
  else (out, added).

Definition ensureUniforms (out : string) : M page string :=
  let '(out', added) := fold_left (fun acc u => addUniform u acc) uniforms (out, 0) in
  if 0 <? added then
    logMain ("Added " ++ string_of_nat added ++ " uniform(s)") "OK" ;; ret out'
  else ret out'.

(** 3. texture2D -> texture *)
Definition modernizeTexture (out : string) : M page string :=
  if test false rx_texture2D out then
    logMain "Converted texture2D -> texture" "OK" ;;
    ret (replace_all false rx_texture2D (fun _ _ => "texture(") out)
  else ret out.

(** 4. semicolon insertion: the callback of [map] *)
Definition semicolonLine (ln : string) : string :=
  let t := Str.trim ln in
  if Str.is_empty t then ln
  else if Str.startsWith "//" t || Str.startsWith "/*" t
          || Str.startsWith "*" t || Str.startsWith "#" t then ln
  else if test false rx_paren_brace t || test false rx_open_end t
          || test false rx_close_end t then ln
  else if test false rx_terminated t then ln
  else if test false rx_qualifier t && negb (Str.endsWith ";" t) then ln ++ ";"
  else if test false rx_eq t && negb (test false rx_eqeq t)
          && negb (Str.endsWith ";" t) then ln ++ ";"
  else ln.

Definition insertSemicolons (out : string) : M page string :=
  logMain "Smart semicolons pass complete" "OK" ;;
  ret (Str.join_nl (map semicolonLine (Str.split_nl out))).

(** 5. division guards: the replacement callback [(m, g1, g2) => ...] *)
Definition divisionGuard (_ : string) (st : mstate) : string :=
  let g1 := cap 1 st in
  let g2 := cap 2 st in
  if test false rx_leading_digit g1 then "/" ++ g1 ++ g2
  else "/ max(" ++ g1 ++ ", 0.000001)" ++ g2.

Definition guardDivisions (out : string) : string :=
  replace_all false rx_division divisionGuard out.

Definition guardDivisionsStep (out : string) : M page string :=
  logMain "Inserted division guards" "OK" ;; ret (guardDivisions out).

(** 6. close braces/parens *)
Definition closeBraces (out : string) : M page string :=
  let opens := match_count false rx_lbrace out in
  let closes := match_count false rx_rbrace out in
  if closes <? opens then
    logMain ("Closed " ++ string_of_nat (opens - closes) ++ " missing braces") "OK" ;;
    ret (out ++ Str.nl ++ Str.repeat "}" (opens - closes))
  else ret out.

Definition closeParens (out : string) : M page string :=
  let opar := match_count false rx_lparen out in
  let cpar := match_count false rx_rparen out in
  if cpar <? opar then
    logMain ("Closed " ++ string_of_nat (opar - cpar) ++ " missing parentheses") "OK" ;;
    ret (out ++ Str.repeat ")" (opar - cpar))
  else ret out.

(** 7. fix placeholders *)
Definition replacePlaceholders (out : string) : string :=
  replace_all false rx_NULL (fun _ _ => "0.0")
    (replace_all false rx_undefined (fun _ _ => "0.0") out).

(** 8. type mismatch: replacement ['$1 $2 = $1($3);'] *)
Definition vecInitReplacement (_ : string) (st : mstate) : string :=
  cap 1 st ++ " " ++ cap 2 st ++ " = " ++ cap 1 st ++ "(" ++ cap 3 st ++ ");".

Definition coerceVecInit (out : string) : string :=
  replace_all false rx_vec_init vecInitReplacement out.

(** 9. ensure main *)
Definition ensureMain (out : string) : M page string :=
  if negb (test false rx_main out) then
    logMain "Appended fallback main()" "OK" ;;
    ret (out ++ fallback_main)
  else ret out.

(** The body of the [try] block, after [out] has become a string. *)
Definition repairSteps (out : string) : M page string :=
  out <- ensurePrecision out ;;
  out <- ensureUniforms out ;;
  out <- modernizeTexture out ;;
  out <- insertSemicolons out ;;
  out <- guardDivisionsStep out ;;
  out <- closeBraces out ;;
  out <- closeParens out ;;
  out <- ret (replacePlaceholders out) ;;
  out <- ret (coerceVecInit out) ;;
  ensureMain out.

(** The [try] block and the [catch] block of [smartFixShader]. *)
Definition smartFixShader_try (code : jsval) : M page jsval :=
  logMain "Starting smartFixShader pass" "OK" ;;
  s <- string_method (or_empty "code") "replace"
         (js_or code (JStr EmptyString)) ;;
  out <- repairSteps (normalizeNewlines s) ;;
  logMain "smartFixShader done" "OK" ;;
  set_GODFIX_FIXED (JStr out) ;;
  ret (JStr out).

Definition smartFixShader_catch (code : jsval) (e : thrown) : M page jsval :=
  msg <- describe e ;;
  logMain ("smartFixShader error: " ++ msg) "ERR" ;;
  ret code.

Definition smartFixShader (code : jsval) : M page jsval :=
  try_catch (smartFixShader_try code) (smartFixShader_catch code).

Definition page0 : page := Page [] JUndefined.

(** *** Patterns of [parseErrorsAndFix] (all with the [i] flag but [/';'/]) *)

(** [/error|failed|undefined|undeclared|expected|missing|unmatched|link error/i] *)
Definition rx_error_line : regex :=
  alt [lit "error"; lit "failed"; lit "undefined"; lit "undeclared";
       lit "expected"; lit "missing"; lit "unmatched"; lit "link error"].

(** [/expected ';'|missing ';'|syntax error.*expected ';'/i] and [/';'/] *)
Definition rx_semicolon_msg : regex :=
  alt [lit "expected ';'"; lit "missing ';'";
       seq [lit "syntax error"; star Dot; lit "expected ';'"]].
Definition rx_quoted_semicolon : regex := lit "';'".

(** The three phrasings of an undeclared identifier (source line 416):
    ['(.*?)'\s{0,}:\s{0,}undeclared identifier],
    [undeclared identifier\s{0,}'(.*?)'] and [error: '(.*?)' undeclared]. *)
Definition rx_undeclared : regex :=
  alt [seq [Chr "'"; Group 1 (lazy_star Dot); Chr "'"; star sp; Chr ":";
            star sp; lit "undeclared identifier"];
       seq [lit "undeclared identifier"; star sp; Chr "'";
            Group 2 (lazy_star Dot); Chr "'"];
       seq [lit "error: '"; Group 3 (lazy_star Dot); lit "' undeclared"]].

(** [/[^a-zA-Z0-9_]/g] *)
Definition rx_not_ident_char : regex :=
  Cls true [range "a" "z"; range "A" "Z"; range "0" "9"; CChar "_"].

(** [/implicitly convert|cannot convert|conversion from 'int' to 'float'|to 'float'/i] *)
Definition rx_implicit_conversion : regex :=
  alt [lit "implicitly convert"; lit "cannot convert";
       lit "conversion from 'int' to 'float'"; lit "to 'float'"].

(** [/\b([0-9]+)\b/g] *)
Definition rx_int_literal : regex :=
  seq [WordB; Group 1 (plus (Cls false [range "0" "9"])); WordB].

(** [/texture2D\(|texture\(/i] *)
Definition rx_texture_msg : regex := alt [lit "texture2D("; lit "texture("].

(** [/undefined reference.*main|no main function|no symbol main/i] *)
Definition rx_no_main_msg : regex :=
  alt [seq [lit "undefined reference"; star Dot; lit "main"];
       lit "no main function"; lit "no symbol main"].

(** [/unmatched|missing.*brace|missing.*parenth/i] *)
Definition rx_unmatched_msg : regex :=
  alt [lit "unmatched";
       seq [lit "missing"; star Dot; lit "brace"];
       seq [lit "missing"; star Dot; lit "parenth"]].

(** *** The remediations of one diagnostic line, in source order *)

(** the callback of [map] in the semicolon heuristic of the log pass *)
Definition semicolonLineFromLogs (ln : string) : string :=
  let t := Str.trim ln in
  if Str.is_empty t then ln
  else if Str.startsWith "//" t || Str.startsWith "#" t || Str.endsWith ";" t
          || Str.endsWith "{" t || Str.endsWith "}" t then ln
  else if test false rx_terminated t then ln
  else if test false rx_eq t && negb (test false rx_eqeq t) then ln ++ ";"
  else ln.

Definition fixMissingSemicolon (err : string) (patched : jsval) : M page jsval :=
  if test true rx_semicolon_msg err || test false rx_quoted_semicolon err then
    s <- string_method "patched" "split" patched ;;
    logMain "Applied semicolon heuristic (from logs)" "OK" ;;
    ret (JStr (Str.join_nl (map semicolonLineFromLogs (Str.split_nl s))))
  else ret patched.

(** [(m[1] || m[2] || m[3] || '')] *)
Definition firstCaptured (st : mstate) : string :=
  if negb (Str.is_empty (cap 1 st)) then cap 1 st
  else if negb (Str.is_empty (cap 2 st)) then cap 2 st
  else cap 3 st.

(** [.replace(/[^a-zA-Z0-9_]/g, '')] *)
Definition sanitizeId (s : string) : string :=
  replace_all false rx_not_ident_char (fun _ _ => EmptyString) s.

Definition fixUndeclared (err : string) (patched : jsval) : M page jsval :=
  match exec true rx_undeclared err with
  | Some st =>
      let id := sanitizeId (firstCaptured st) in
      if negb (Str.is_empty id) then
        logMain ("Declared " ++ id ++ " as uniform float (heuristic)") "OK" ;;
        ret (JStr ("uniform float " ++ id ++ ";" ++ Str.nl ++ to_string patched))
      else ret patched
  | None => ret patched
  end.

(** replacement ['$1.0'] *)
Definition intToFloat (s : string) : string :=
  replace_all false rx_int_literal (fun _ st => cap 1 st ++ ".0") s.

Definition fixImplicitConversion (err : string) (patched : jsval) : M page jsval :=
  if test true rx_implicit_conversion err then
    s <- string_method "patched" "replace" patched ;;
    logMain "Converted integer literals to floats (heuristic)" "OK" ;;
    ret (JStr (intToFloat s))
  else ret patched.

Definition fixTextureCall (err : string) (patched : jsval) : M page jsval :=
  if test true rx_texture_msg err then
    s <- string_method "patched" "includes" patched ;;
    if Str.includes "texture2D(" s then
      logMain "Converted texture2D->texture (from logs)" "OK" ;;
      ret (JStr (replace_all false rx_texture2D (fun _ _ => "texture(") s))
    else ret patched
  else ret patched.

Definition fixMissingMain (err : string) (patched : jsval) : M page jsval :=
  if test true rx_no_main_msg err then
    if negb (test false rx_main (to_string patched)) then
      logMain "Appended fallback main() (from logs)" "OK" ;;
      ret (JStr (to_string patched ++ fallback_main))
    else ret patched
  else ret patched.

Definition fixUnmatched (err : string) (patched : jsval) : M page jsval :=
  if test true rx_unmatched_msg err then
    s <- string_method "patched" "match" patched ;;
    let opens := match_count false rx_lbrace s in
    let closes := match_count false rx_rbrace s in
    s <- (if closes <? opens then
            logMain "Auto-closed braces (from logs)" "OK" ;;
            ret (s ++ Str.nl ++ Str.repeat "}" (opens - closes))
          else ret s) ;;
    let opar := match_count false rx_lparen s in
    let cpar := match_count false rx_rparen s in
    if cpar <? opar then
      logMain "Auto-closed parentheses (from logs)" "OK" ;;
      ret (JStr (s ++ Str.repeat ")" (opar - cpar)))
    else ret (JStr s)
  else ret patched.

(** the callback of [candidateErrors.forEach] *)
Definition fixLine (err : string) (patched : jsval) : M page jsval :=
  patched <- fixMissingSemicolon err patched ;;
  patched <- fixUndeclared err patched ;;
  patched <- fixImplicitConversion err patched ;;
  patched <- fixTextureCall err patched ;;
  patched <- fixMissingMain err patched ;;
  fixUnmatched err patched.

(** [.split('\n').map(s => s.trim()).filter(Boolean)] *)
Definition logLines (logsText : string) : list string :=
  filter (fun l => negb (Str.is_empty l)) (map Str.trim (Str.split_nl logsText)).

(** [errors.length ? errors : lines.slice(0, 20)] *)
Definition candidateErrors (lines : list string) : list string :=
  let errors := filter (test true rx_error_line) lines in
  match errors with
  | [] => firstn 20 lines
  | _ => errors
  end.

(** The [try] block and the [catch] block of [parseErrorsAndFix]. *)
Definition parseErrorsAndFix_try (code logsText : jsval) : M page jsval :=
  logMain "parseErrorsAndFix: analyzing logs" "OK" ;;
  text <- string_method (or_empty "logsText") "split"
            (js_or logsText (JStr EmptyString)) ;;
  patched <- foldM fixLine (candidateErrors (logLines text)) code ;;
  patched <- smartFixShader patched ;;
  logMain "parseErrorsAndFix completed" "OK" ;;
  ret patched.

Definition parseErrorsAndFix_catch (code : jsval) (e : thrown) : M page jsval :=
  msg <- describe e ;;
  logMain ("parseErrorsAndFix error: " ++ msg) "ERR" ;;
  ret code.

Definition parseErrorsAndFix (code logsText : jsval) : M page jsval :=
  try_catch (parseErrorsAndFix_try code logsText) (parseErrorsAndFix_catch code).

(** The entries a computation adds to an empty main log, oldest first. *)
Definition trace_of {A} (c : M page A) : list (string * string) :=
  List.rev (mainLog (state_of (c page0))).

End Fixer.

(* ===================================================================== *)
(** ** The colour a [gl_FragColor = vec4(...)] statement writes *)
(* ===================================================================== *)

Module Glsl.

Local Open Scope char_scope.
Local Open Scope string_scope.

(** The value of a run of decimal digits. *)
Fixpoint digits_value (s : string) (acc : nat) : option nat :=
  match s with
  | EmptyString => Some acc
  | String c s' =>
      if is_digit c then digits_value s' (10 * acc + (code c - 48)) else None
  end.

Fixpoint split_at (sep : ascii) (s : string) : string * option string :=
  match s with
  | EmptyString => (EmptyString, None)
  | String c s' =>
      if Ascii.eqb c sep then (EmptyString, Some s')
      else let '(a, b) := split_at sep s' in (String c a, b)
  end.

(** A floating literal [digits.digits] or an integer literal [digits]. *)
Definition literal_value (s : string) : option Q :=
  let '(ip, fp) := split_at "." (Str.trim s) in
  match digits_value ip 0, fp with
  | Some i, None =>
      if Str.is_empty ip then None else Some (Z.of_nat i # 1)%Q
  | Some i, Some f =>
      match digits_value f 0 with
      | Some fv =>
          let scale := Nat.pow 10 (String.length f) in
          Some (Z.of_nat (i * scale + fv) # Pos.of_nat scale)%Q
      | None => None
      end
  | None, _ => None
  end.

Fixpoint split_commas (fuel : nat) (s : string) : list string :=
  match fuel with
  | O => [s]
  | S fuel' =>
      match split_at "," s with
      | (a, Some b) => a :: split_commas fuel' b
      | (a, None) => [a]
      end
  end.

Record rgba : Type := RGBA { red : Q; green : Q; blue : Q; alpha : Q }.

(** The constructor [vec4(x)] with one scalar sets every component to [x];
    [vec4(r, g, b, a)] sets them in order. *)
Definition vec4 (args : string) : option rgba :=
  match map literal_value (split_commas (String.length args) args) with
  | [Some x] => Some (RGBA x x x x)
  | [Some r; Some g; Some b; Some a] => Some (RGBA r g b a)
  | _ => None
  end.

(** [gl_FragColor = vec4( args )] *)
Definition rx_frag_color : regex :=
  seq [lit "gl_FragColor"; star sp; Chr "="; star sp; lit "vec4(";
       Group 1 (star (Cls true [CChar ")"])); Chr ")"].

(** The colour written by the first such statement of a shader text. *)
Definition written_color (src : string) : option rgba :=
  match exec false rx_frag_color src with
  | Some st => vec4 (cap 1 st)
  | None => None
  end.

Definition rgba_eqb (c d : rgba) : bool :=
  Qeq_bool (red c) (red d) && Qeq_bool (green c) (green d)
  && Qeq_bool (blue c) (blue d) && Qeq_bool (alpha c) (alpha d).

Definition opaque_black : rgba := RGBA 0 0 0 1.
Definition transparent_black : rgba := RGBA 0 0 0 0.

Definition writes (c : rgba) (src : string) : bool :=
  match written_color src with
  | Some d => rgba_eqb c d
  | None => false
  end.

End Glsl.

(* ===================================================================== *)
(** ** The WebGL preview engine: [compileShader], [compileAndRun],
       [stopPreview] *)
(* ===================================================================== *)

Module Preview.

Local Open Scope js_scope.
Local Open Scope string_scope.
Local Open Scope nat_scope.

Inductive shader_type : Type := VERTEX_SHADER | FRAGMENT_SHADER.

(** What the graphics driver answers: the info log of a shader that fails to
    compile and of a program that fails to link ([None] when the status
    query reports success). *)
Record driver : Type := Driver {
  shader_info_log : shader_type -> string -> option string;
  program_info_log : string -> string -> option string
}.

(** The [webgl] object, the part of the page it writes to, and the objects
    of the graphics context that are alive. *)
Record engine : Type := Engine {
  gl : bool;                              (* webgl.gl is not null *)
  program : option nat;                   (* webgl.program *)
  animReq : option nat;                   (* webgl.animReq *)
  startTime : nat;                        (* webgl.startTime *)
  compileLog : list (string * string);    (* newest first: (level, message) *)
  statusLabel : option string;            (* text of #statusLabel, if present *)
  programs : list nat;                    (* program objects not yet deleted *)
  shaders : list nat;                     (* shader objects not yet deleted *)
  scheduled : list nat;                   (* pending animation-frame requests *)
  next_name : nat;                        (* next fresh object or request id *)
  clock : nat                             (* performance.now() *)
}.

Definition with_program (p : option nat) (e : engine) : engine :=
  Engine (gl e) p (animReq e) (startTime e) (compileLog e) (statusLabel e)
         (programs e) (shaders e) (scheduled e) (next_name e) (clock e).

Definition with_animReq (a : option nat) (e : engine) : engine :=
  Engine (gl e) (program e) a (startTime e) (compileLog e) (statusLabel e)
         (programs e) (shaders e) (scheduled e) (next_name e) (clock e).

Definition with_startTime (t : nat) (e : engine) : engine :=
  Engine (gl e) (program e) (animReq e) t (compileLog e) (statusLabel e)
         (programs e) (shaders e) (scheduled e) (next_name e) (clock e).

Definition with_compileLog (l : list (string * string)) (e : engine) : engine :=
  Engine (gl e) (program e) (animReq e) (startTime e) l (statusLabel e)
         (programs e) (shaders e) (scheduled e) (next_name e) (clock e).

Definition with_statusLabel (s : option string) (e : engine) : engine :=
  Engine (gl e) (program e) (animReq e) (startTime e) (compileLog e) s
         (programs e) (shaders e) (scheduled e) (next_name e) (clock e).

Definition with_programs (l : list nat) (e : engine) : engine :=
  Engine (gl e) (program e) (animReq e) (startTime e) (compileLog e)
         (statusLabel e) l (shaders e) (scheduled e) (next_name e) (clock e).

Definition with_shaders (l : list nat) (e : engine) : engine :=
  Engine (gl e) (program e) (animReq e) (startTime e) (compileLog e)
         (statusLabel e) (programs e) l (scheduled e) (next_name e) (clock e).

Definition with_scheduled (l : list nat) (e : engine) : engine :=
  Engine (gl e) (program e) (animReq e) (startTime e) (compileLog e)
         (statusLabel e) (programs e) (shaders e) l (next_name e) (clock e).

Definition with_next_name (n : nat) (e : engine) : engine :=
  Engine (gl e) (program e) (animReq e) (startTime e) (compileLog e)
         (statusLabel e) (programs e) (shaders e) (scheduled e) n (clock e).

Definition get {A} (f : engine -> A) : M engine A := fun e => (Ret (f e), e).
Definition modify (f : engine -> engine) : M engine unit :=
  fun e => (Ret tt, f e).

Definition fresh : M engine nat :=
  fun e => (Ret (next_name e), with_next_name (S (next_name e)) e).

Definition remove_name (n : nat) (l : list nat) : list nat :=
  filter (fun x => negb (x =? n)) l.

(** [logCompile(msg, level)] *)
Definition logCompile (msg level : string) : M engine unit :=
  modify (fun e => with_compileLog ((level, msg) :: compileLog e) e).

(** [(document.getElementById('statusLabel') || {}).textContent = txt] *)
Definition setStatus (txt : string) : M engine unit :=
  modify (fun e =>
    with_statusLabel (match statusLabel e with
                      | Some _ => Some txt
                      | None => None
                      end) e).

Definition createShader : M engine nat :=
  s <- fresh ;; modify (fun e => with_shaders (s :: shaders e) e) ;; ret s.
Definition deleteShader (s : nat) : M engine unit :=
  modify (fun e => with_shaders (remove_name s (shaders e)) e).
Definition createProgram : M engine nat :=
  p <- fresh ;; modify (fun e => with_programs (p :: programs e) e) ;; ret p.
Definition deleteProgram (p : nat) : M engine unit :=
  modify (fun e => with_programs (remove_name p (programs e)) e).
Definition requestAnimationFrame : M engine nat :=
  r <- fresh ;; modify (fun e => with_scheduled (r :: scheduled e) e) ;; ret r.
Definition cancelAnimationFrame (r : nat) : M engine unit :=
  modify (fun e => with_scheduled (remove_name r (scheduled e)) e).

Definition vs : string :=
  "attribute vec2 aPos; void main(){ gl_Position = vec4(aPos,0.0,1.0); }".

Section Engine.

Variable drv : driver.

(** [compileShader(type, src)] *)
Definition compileShader (type : shader_type) (src : string) : M engine nat :=
  s <- createShader ;;
  match shader_info_log drv type src with
  | Some info => deleteShader s ;; throw (Error_ info)
  | None => ret s
  end.

(** One call of [render]: the frame is drawn (nothing of the drawing is kept
    in the state) and the next frame is requested. *)
Definition render : M engine unit :=
  r <- requestAnimationFrame ;;
  modify (with_animReq (Some r)).

Definition compileAndRun (src : string) : M engine unit :=
  available <- get gl ;;
  if negb available then ret tt
  else
    try_catch
      (vsS <- compileShader VERTEX_SHADER vs ;;
       fsS <- compileShader FRAGMENT_SHADER src ;;
       old <- get program ;;
       match old with
       | Some q => deleteProgram q ;; modify (with_program None)
       | None => ret tt
       end ;;
       p <- createProgram ;;
       match program_info_log drv vs src with
       | Some info => deleteProgram p ;; throw (Error_ ("Link error: " ++ info))
       | None => ret tt
       end ;;
       modify (with_program (Some p)) ;;
       now <- get clock ;;
       modify (with_startTime now) ;;
       req <- get animReq ;;
       match req with
       | Some r => cancelAnimationFrame r
       | None => ret tt
       end ;;
       render ;;
       logCompile "Compiled & preview running" "OK" ;;
       setStatus "Status: Preview running")
      (fun err =>
         message <- message_of err ;;
         logCompile ("Compile/Link failed: " ++ to_string message) "ERR" ;;
         setStatus "Status: Compile Error").

(** [stopPreview()]; nothing in its [try] block can throw. *)
Definition stopPreview : M engine unit :=
  req <- get animReq ;;
  match req with
  | Some r => cancelAnimationFrame r
  | None => ret tt
  end ;;
  cur <- get program ;;
  available <- get gl ;;
  match cur with
  | Some p => if available then deleteProgram p else ret tt
  | None => ret tt
  end ;;
  modify (with_program None) ;;
  logCompile "Preview stopped" "OK" ;;
  setStatus "Status: Preview stopped".

End Engine.

(** What is the same before and after a call that fails while compiling a
    shader: the program, the live programs and the render loop. *)
Definition preview_untouched (e e' : engine) : Prop :=
  program e' = program e /\ programs e' = programs e
  /\ animReq e' = animReq e /\ scheduled e' = scheduled e.

(** The trace and status of a failed call. *)
Definition failure_reported (message : string) (e e' : engine) : Prop :=
  compileLog e' = ("ERR", "Compile/Link failed: " ++ message) :: compileLog e
  /\ statusLabel e' = match statusLabel e with
                      | Some _ => Some "Status: Compile Error"
                      | None => None
                      end.

(** A driver that compiles everything and links nothing, and an engine with
    a preview running (program 7, frame request 8). *)
Definition link_failing_driver : driver :=
  Driver (fun _ _ => None) (fun _ _ => Some "varyings do not match").

Definition fragment_failing_driver : driver :=
  Driver (fun t _ => match t with
                     | VERTEX_SHADER => None
                     | FRAGMENT_SHADER => Some "ERROR: 0:1: syntax error"
                     end)
         (fun _ _ => None).

Definition running_engine : engine :=
  Engine true (Some 7) (Some 8) 0 [] (Some "Status: Preview running")
         [7] [5; 6] [8] 9 100.

(** The three outcomes the claim about failed compiles speaks of. *)
Definition compile_failed (drv : driver) (src : string) : Prop :=
  exists info,
    shader_info_log drv VERTEX_SHADER vs = Some info \/
    (shader_info_log drv VERTEX_SHADER vs = None /\
     shader_info_log drv FRAGMENT_SHADER src = Some info).

Definition link_failed (drv : driver) (src : string) : Prop :=
  shader_info_log drv VERTEX_SHADER vs = None /\
  shader_info_log drv FRAGMENT_SHADER src = None /\
  exists info, program_info_log drv vs src = Some info.

End Preview.

(* ===================================================================== *)
(** ** The interaction state and the gesture handlers *)
(* ===================================================================== *)

Module Interaction.

Local Open Scope Z_scope.

(** JavaScript numbers are IEEE-754 binary64 values. *)
Definition float : Type := spec_float.

Definition prec : Z := 53.
Definition emax : Z := 1024.

Definition fmul : float -> float -> float := SFmul prec emax.
Definition fdiv : float -> float -> float := SFdiv prec emax.
Definition fadd : float -> float -> float := SFadd prec emax.
Definition fsub : float -> float -> float := SFsub prec emax.

(** An integer literal, and a decimal literal [n / d] with [n] and [d] exact:
    the correctly rounded quotient is the double the literal denotes. *)
Definition of_Z (n : Z) : float := binary_normalize prec emax n 0 false.
Definition decimal (n d : Z) : float := fdiv (of_Z n) (of_Z d).

Definition k_0_18 : float := decimal 18 100.           (* 0.18 *)
Definition k_6 : float := of_Z 6.                      (* 6.0 *)
Definition k_0_0018 : float := decimal 18 10000.       (* 0.0018 *)
Definition k_1 : float := of_Z 1.                      (* 1 *)
Definition k_0_7 : float := decimal 7 10.              (* 0.7 *)
Definition k_1_1 : float := decimal 11 10.             (* 1.1 *)
Definition k_0 : float := S754_zero false.             (* 0 *)
Definition Math_PI : float := S754_finite false 7074237752028440 (-51).

Definition is_nan (x : float) : bool :=
  match x with S754_nan => true | _ => false end.

(** Neither NaN nor an infinity. *)
Definition is_finite (x : float) : bool :=
  match x with
  | S754_zero _ | S754_finite _ _ _ => true
  | _ => false
  end.

(** ToBoolean of a number: false for [+0], [-0] and NaN. *)
Definition truthy (x : float) : bool :=
  match x with
  | S754_zero _ | S754_nan => false
  | _ => true
  end.

(** [Math.max] and [Math.min] of two numbers: NaN when either is NaN, and
    [+0] counts as larger than [-0]. *)
Definition Math_max (x y : float) : float :=
  match SFcompare x y with
  | None => S754_nan
  | Some Gt => x
  | Some Lt => y
  | Some Eq => match x with S754_zero false => x | _ => y end
  end.

Definition Math_min (x y : float) : float :=
  match SFcompare x y with
  | None => S754_nan
  | Some Lt => x
  | Some Gt => y
  | Some Eq => match x with S754_zero true => x | _ => y end
  end.

(** [webgl.interaction] *)
Record interaction : Type := Interaction {
  rotation : float;
  zoom : float;
  colorOffset : float;
  dragging : bool;
  lastX : float;
  lastY : float;
  pinchDist : float
}.

(** [{ rotation: 0, zoom: 1, colorOffset: 0, dragging: false, lastX: 0,
      lastY: 0, pinchDist: 0 }] *)
Definition initial : interaction :=
  Interaction k_0 k_1 k_0 false k_0 k_0 k_0.

(** The events the canvas listens to, with the fields the handlers read;
    a touch is its [(clientX, clientY)], and the move events carry the
    canvas' [clientWidth] and [clientHeight] at that moment. *)
Inductive event : Type :=
| PointerDown (clientX clientY : float)
| PointerMove (clientX clientWidth clientHeight : float)
| PointerUp
| PointerCancel
| Wheel (deltaY : float)
| Click
| TouchStart (touches : list (float * float))
| TouchMove (touches : list (float * float)) (clientWidth clientHeight : float)
| TouchEnd.

(** [Math.max(0.18, Math.min(6.0, z))] *)
Definition clampZoom (z : float) : float := Math_max k_0_18 (Math_min k_6 z).

(** [(dx / Math.max(c.clientWidth, c.clientHeight)) * Math.PI * 1.1] *)
Definition rotationDelta (dx w h : float) : float :=
  fmul (fmul (fdiv dx (Math_max w h)) Math_PI) k_1_1.

Section Handlers.

(** [Math.hypot] is implementation-approximated; it is a parameter. *)
Variable hypot : float -> float -> float.

Definition touchDistance (t0 t1 : float * float) : float :=
  hypot (fsub (fst t0) (fst t1)) (fsub (snd t0) (snd t1)).

Definition handle (ev : event) (s : interaction) : interaction :=
  match ev with
  | PointerDown x y =>
      Interaction (rotation s) (zoom s) (colorOffset s) true x y (pinchDist s)
  | PointerMove x w h =>
      if negb (dragging s) then s
      else
        let dx := fsub x (lastX s) in
        Interaction (fadd (rotation s) (rotationDelta dx w h)) (zoom s)
                    (colorOffset s) (dragging s) x (lastY s) (pinchDist s)
  | PointerUp | PointerCancel =>
      Interaction (rotation s) (zoom s) (colorOffset s) false (lastX s)
                  (lastY s) (pinchDist s)
  | Wheel deltaY =>
      Interaction (rotation s)
                  (clampZoom (fmul (zoom s) (fsub k_1 (fmul deltaY k_0_0018))))
                  (colorOffset s) (dragging s) (lastX s) (lastY s) (pinchDist s)
  | Click =>
      Interaction (rotation s) (zoom s) (fadd (colorOffset s) k_0_7)
                  (dragging s) (lastX s) (lastY s) (pinchDist s)
  | TouchStart [t0; t1] =>
      Interaction (rotation s) (zoom s) (colorOffset s) (dragging s) (lastX s)
                  (lastY s) (touchDistance t0 t1)
  | TouchStart [t0] =>
      Interaction (rotation s) (zoom s) (colorOffset s) true (fst t0) (snd t0)
                  (pinchDist s)
  | TouchStart _ => s
  | TouchMove [t0; t1] _ _ =>
      if truthy (pinchDist s) then
        let nd := touchDistance t0 t1 in
        let scale := fdiv nd (pinchDist s) in
        Interaction (rotation s) (clampZoom (fmul (zoom s) scale))
                    (colorOffset s) (dragging s) (lastX s) (lastY s) nd
      else s
  | TouchMove [t0] w h =>
      if dragging s then
        let dx := fsub (fst t0) (lastX s) in
        Interaction (fadd (rotation s) (rotationDelta dx w h)) (zoom s)
                    (colorOffset s) (dragging s) (fst t0) (lastY s) (pinchDist s)
      else s
  | TouchMove _ _ _ => s
  | TouchEnd =>
      Interaction (rotation s) (zoom s) (colorOffset s) false (lastX s)
                  (lastY s) k_0
  end.

(** The state after a sequence of events, oldest first. *)
Definition handle_all (evs : list event) (s : interaction) : interaction :=
  fold_left (fun st ev => handle ev st) evs s.

(** An event of finite magnitude: a wheel delta that is a number, and a
    two-finger distance that is finite. *)
Definition finite_event (ev : event) : bool :=
  match ev with
  | Wheel deltaY => negb (is_nan deltaY)
  | TouchStart [t0; t1] => is_finite (touchDistance t0 t1)
  | TouchMove [t0; t1] _ _ => is_finite (touchDistance t0 t1)
  | _ => true
  end.

End Handlers.

(** [0.18 <= z && z <= 6.0] *)
Definition zoom_in_range (z : float) : bool :=
  SFleb k_0_18 z && SFleb z k_6.

(** A [Math.hypot] by the textbook formula, for concrete runs. *)
Definition hypot_sqrt (x y : float) : float :=
  SFsqrt prec emax (fadd (fmul x x) (fmul y y)).

(** The largest finite double. *)
Definition max_double : float := SFmax_float prec emax.

(** What the handlers keep true: the zoom is in range and the stored pinch
    distance is finite. *)
Definition zoom_invariant (s : interaction) : Prop :=
  zoom_in_range (zoom s) = true /\ is_finite (pinchDist s) = true.

(** Two fingers put down at the far ends of the number line and moved. *)
Definition extreme_pinch : list event :=
  [ TouchStart [(max_double, k_0); (SFopp max_double, k_0)];
    TouchMove [(max_double, k_0); (SFopp max_double, k_0)] k_1 k_1 ].

(** An ordinary session: scroll, pinch out, scroll back hard. *)
Definition sample_session : list event :=
  [ Wheel (of_Z 120);
    TouchStart [(of_Z 0, of_Z 0); (of_Z 3, of_Z 4)];
    TouchMove [(of_Z 0, of_Z 0); (of_Z 300, of_Z 400)] (of_Z 640) (of_Z 360);
    TouchEnd;
    Wheel (of_Z (-1000000));
    Click ].

End Interaction.

(* ===================================================================== *)
(** ** What a pattern matches, stated without the search order *)
(* ===================================================================== *)

Module RegexSpec.

Local Open Scope string_scope.
Local Open Scope nat_scope.

(** The iterations of a quantifier over the relation [R] of its atom. *)
Inductive Iter (R : mstate -> mstate -> Prop)
  : nat -> option nat -> mstate -> mstate -> Prop :=
| Iter_stop mn mx st :
    mn = 0 \/ max_is_zero mx = true -> Iter R mn mx st st
| Iter_more mn mx st st1 st2 :
    max_is_zero mx = false ->
    R st st1 ->
    (mn = 0 -> String.length (rest st1) <> String.length (rest st)) ->
    Iter R (pred mn) (max_pred mx) st1 st2 ->
    Iter R mn mx st st2.

Definition add_capture (n : nat) (st st' : mstate) : mstate :=
  MState (prev st') (rest st')
    ((n, Str.take (String.length (rest st) - String.length (rest st')) (rest st))
       :: caps st').

(** [Matches ic r st st']: some way of matching [r] leads from [st] to [st']. *)
Fixpoint Matches (ic : bool) (r : regex) (st st' : mstate) : Prop :=
  match r with
  | Eps => st' = st
  | Chr a =>
      exists c s', rest st = String c s'
        /\ Ascii.eqb (canonicalize ic a) (canonicalize ic c) = true
        /\ st' = MState (Some c) s' (caps st)
  | Dot =>
      exists c s', rest st = String c s'
        /\ is_line_terminator c = false
        /\ st' = MState (Some c) s' (caps st)
  | Cls neg items =>
      exists c s', rest st = String c s'
        /\ xorb neg (class_has ic items c) = true
        /\ st' = MState (Some c) s' (caps st)
  | WordB => is_boundary st = true /\ st' = st
  | Bol => prev st = None /\ st' = st
  | Eol => rest st = EmptyString /\ st' = st
  | Seq r1 r2 => exists st1, Matches ic r1 st st1 /\ Matches ic r2 st1 st'
  | Alt r1 r2 => Matches ic r1 st st' \/ Matches ic r2 st st'
  | Group n r1 => exists st1, Matches ic r1 st st1 /\ st' = add_capture n st st1
  | Quant mn mx _ r1 => Iter (Matches ic r1) mn mx st st'
  end.

(** Every code unit the pattern can consume satisfies [ok]. *)
Fixpoint consumes_only (ok : ascii -> bool) (ic : bool) (r : regex) : Prop :=
  match r with
  | Eps | WordB | Bol | Eol => True
  | Chr a =>
      forall c, Ascii.eqb (canonicalize ic a) (canonicalize ic c) = true ->
                ok c = true
  | Dot => forall c, is_line_terminator c = false -> ok c = true
  | Cls neg items =>
      forall c, xorb neg (class_has ic items c) = true -> ok c = true
  | Seq r1 r2 | Alt r1 r2 => consumes_only ok ic r1 /\ consumes_only ok ic r2
  | Group _ r1 | Quant _ _ _ r1 => consumes_only ok ic r1
  end.

Fixpoint group_free (r : regex) : bool :=
  match r with
  | Group _ _ => false
  | Seq r1 r2 | Alt r1 r2 => group_free r1 && group_free r2
  | Quant _ _ _ r1 => group_free r1
  | _ => true
  end.

(** No [^] in the pattern. *)
Fixpoint bol_free (r : regex) : bool :=
  match r with
  | Bol => false
  | Seq r1 r2 | Alt r1 r2 => bol_free r1 && bol_free r2
  | Quant _ _ _ r1 | Group _ r1 => bol_free r1
  | _ => true
  end.

(** Two matcher states at the same place of two texts: the same rest and
    the same kind of code unit before it. *)
Definition same_place (st1 st2 : mstate) : Prop :=
  rest st1 = rest st2 /\ is_word_opt (prev st1) = is_word_opt (prev st2).

(** Two continuations that fail together at the same place. *)
Definition related (k1 k2 : mstate -> option mstate) : Prop :=
  forall a b, same_place a b -> (k1 a = None <-> k2 b = None).

Fixpoint all_chars (ok : ascii -> bool) (s : string) : bool :=
  match s with
  | EmptyString => true
  | String c s' => ok c && all_chars ok s'
  end.

End RegexSpec.
Import RegexSpec.

(* ===================================================================== *)
(** ** Notions the properties are stated with *)
(* ===================================================================== *)

Module Notions.

Import Fixer.
Local Open Scope string_scope.
Local Open Scope nat_scope.

(** [c] returns normally from every page. *)
Definition total {A} (c : M page A) : Prop :=
  forall w, exists a w', c w = (Ret a, w').

(** [c] returns a string from every page. *)
Definition returns_string (c : M page jsval) : Prop :=
  forall w, exists s w', c w = (Ret (JStr s), w').

(** The outcome of [c] (returned value or thrown value) is the same on
    every page. *)
Definition det {A} (c : M page A) : Prop :=
  exists o, forall w, value_of (c w) = o.

(** The thrown values a handler of the fixer can put in its log entry:
    [e.message || e] can be read and joined to a string. *)
Definition describable (e : thrown) : bool :=
  match e with
  | Sym | Val JUndefined | Val JNull => false
  | Err _ _ | Val _ => true
  end.


(** Arguments whose own methods, if they throw, throw a describable value:
    every primitive value, and the objects that keep to it. *)
Definition tame_method (m : method) : bool :=
  match m with
  | Missing => true
  | Throws e => describable e
  end.

Definition tame (v : jsval) : bool :=
  match v with
  | JObj replace split => tame_method replace && tame_method split
  | _ => true
  end.

(** On every page [c] returns a value in [P] or throws a describable
    value; [gentle]: the value returned is tame. *)
Definition mild {A} (P : A -> Prop) (c : M page A) : Prop :=
  forall w,
    match value_of (c w) with
    | Ret a => P a
    | Throw e => describable e = true
    end.




(** An object whose [replace] throws [null], and one whose [replace] throws
    an [Error]. *)
Definition null_thrower : jsval := JObj (Throws (Val JNull)) Missing.

(** The shader of the first worked example and what [smartFixShader] makes
    of it. *)
Definition sample_source : string :=
  "void main(){ gl_FragColor = vec4(1.0); }".

Definition sample_repaired : string :=
  Str.join_nl
    [ "uniform float uColorOffset;";
      "uniform float uZoom;";
      "uniform float uRotate;";
      "uniform sampler2D uSampler;";
      "uniform vec2 uResolution;";
      "uniform float uTime;";
      "precision mediump float;";
      "void main(){ gl_FragColor = vec4(1.0); }" ].

Definition precision_line : string := "precision mediump float;" ++ Str.nl.

(** The trace entries of the four steps the idempotence claim is about. *)
Definition entry_precision : string * string :=
  ("OK", "Inserted precision mediump float;").
Definition entry_texture : string * string :=
  ("OK", "Converted texture2D -> texture").
Definition entry_main : string * string :=
  ("OK", "Appended fallback main()").
Definition is_entry_uniforms (e : string * string) : bool :=
  Str.startsWith "Added " (snd e).

(** The entries that every complete run of the later steps leaves. *)
Definition entry_semicolons : string * string :=
  ("OK", "Smart semicolons pass complete").
Definition entry_divisions : string * string :=
  ("OK", "Inserted division guards").
Definition entry_done : string * string := ("OK", "smartFixShader done").


(** The diagnostic line of the undeclared-identifier example. *)
Definition foo_line : string := "ERROR: 'foo' : undeclared identifier".

(** Only WhiteSpace and LineTerminator code units. *)
Fixpoint all_space (s : string) : bool :=
  match s with
  | EmptyString => true
  | String c s' => is_space c && all_space s'
  end.

Fixpoint all_word (s : string) : bool :=
  match s with
  | EmptyString => true
  | String c s' => is_word c && all_word s'
  end.

(** The code units of [s] that are in [[a-zA-Z0-9_]], in order. *)
Fixpoint keep_word (s : string) : string :=
  match s with
  | EmptyString => EmptyString
  | String c s' => if is_word c then String c (keep_word s') else keep_word s'
  end.

(** The legacy call the texture step looks for. *)
Definition legacy_call : string := "texture2D(".

(** [c] is none of the code units of [s]. *)
Definition absent (c : ascii) (s : string) : bool :=
  all_chars (fun x => negb (Ascii.eqb x c)) s.

(** A piece of text that no occurrence of [p] can overlap. *)
Definition inert (p out : string) : Prop :=
  forall a b,
    Str.includes p (a ++ out ++ b) = true ->
    Str.includes p a = true \/ Str.includes p b = true.

(** No occurrence of [p] in [a ++ s] starts inside [a]. *)
Definition no_start_within (p a s : string) : Prop :=
  forall a1 a2,
    a = a1 ++ a2 -> a2 <> EmptyString -> Str.startsWith p (a2 ++ s) = false.

(** The text each step of [smartFixShader] hands to the next one. *)
Definition precisionText (out : string) : string :=
  if negb (test false rx_precision out)
  then "precision mediump float;" ++ Str.nl ++ out else out.

Definition uniformsText (out : string) : string :=
  fst (fold_left (fun acc u => addUniform u acc) uniforms (out, 0)).

Definition textureText (out : string) : string :=
  if test false rx_texture2D out
  then replace_all false rx_texture2D (fun _ _ => "texture(") out else out.

Definition semicolonsText (out : string) : string :=
  Str.join_nl (map semicolonLine (Str.split_nl out)).

Definition bracesText (out : string) : string :=
  if match_count false rx_rbrace out <? match_count false rx_lbrace out
  then out ++ Str.nl
           ++ Str.repeat "}" (match_count false rx_lbrace out
                              - match_count false rx_rbrace out)
  else out.

Definition parensText (out : string) : string :=
  if match_count false rx_rparen out <? match_count false rx_lparen out
  then out ++ Str.repeat ")" (match_count false rx_lparen out
                              - match_count false rx_rparen out)
  else out.

Definition mainText (out : string) : string :=
  if negb (test false rx_main out) then out ++ fallback_main else out.

(** The text the texture step tests, and the text at the end. *)
Definition textBeforeTexture (out : string) : string :=
  uniformsText (precisionText out).

Definition repairText (out : string) : string :=
  mainText (coerceVecInit (replacePlaceholders (parensText (bracesText
    (guardDivisions (semicolonsText (textureText (textBeforeTexture out)))))))).

(** The entries [repairSteps] adds to the main log, newest first. *)
Definition uniformsAdded (out : string) : nat :=
  snd (fold_left (fun acc u => addUniform u acc) uniforms (out, 0)).

Definition uniformsEntry (n : nat) : string * string :=
  ("OK", "Added " ++ string_of_nat n ++ " uniform(s)").
Definition bracesEntry (n : nat) : string * string :=
  ("OK", "Closed " ++ string_of_nat n ++ " missing braces").
Definition parensEntry (n : nat) : string * string :=
  ("OK", "Closed " ++ string_of_nat n ++ " missing parentheses").

Definition when (b : bool) (e : string * string) : list (string * string) :=
  if b then [e] else [].

Definition missingBraces (out : string) : nat :=
  match_count false rx_lbrace out - match_count false rx_rbrace out.
Definition missingParens (out : string) : nat :=
  match_count false rx_lparen out - match_count false rx_rparen out.

Definition repairLog (out : string) : list (string * string) :=
  let o1 := precisionText out in
  let o2 := uniformsText o1 in
  let o5 := guardDivisions (semicolonsText (textureText o2)) in
  let o6 := bracesText o5 in
  let o9 := coerceVecInit (replacePlaceholders (parensText o6)) in
  (when (negb (test false rx_main o9)) entry_main
   ++ when (match_count false rx_rparen o6 <? match_count false rx_lparen o6)
        (parensEntry (missingParens o6))
   ++ when (match_count false rx_rbrace o5 <? match_count false rx_lbrace o5)
        (bracesEntry (missingBraces o5))
   ++ [entry_divisions; entry_semicolons]
   ++ when (test false rx_texture2D o2) entry_texture
   ++ when (0 <? uniformsAdded o1) (uniformsEntry (uniformsAdded o1))
   ++ when (negb (test false rx_precision out)) entry_precision)%list.

(** Sources on which a second run triggers a step again. *)
Definition dangling_comment : string := "/* no main */".
Definition split_precision : string :=
  "x = precision" ++ Str.nl ++ "mediump float;".
Definition split_uniform : string := "uniform float" ++ Str.nl ++ "uTime;".

(** The value [smartFixShader] returns, read off a run from the empty page. *)
Definition repair (code : jsval) : jsval :=
  match value_of (smartFixShader code page0) with
  | Ret v => v
  | Throw _ => code
  end.

(** The entries the second of two runs in a row adds to the log. *)
Definition second_run_trace (code : jsval) : list (string * string) :=
  trace_of (smartFixShader (repair code)).

(** An entry of the uniform table whose pattern finds the declaration the
    entry inserts, wherever that declaration stands. *)
Definition declares (u : regex * string) : Prop :=
  bol_free (fst u) = true
  /\ forall t, test false (fst u) (snd u ++ Str.nl ++ t) = true.

(** A step, run on its own on the text it has just returned, returns that
    text again and leaves the page as it is. *)
Definition settles (step : string -> M page string) (text : string -> string)
  : Prop :=
  forall t w,
    value_of (step t w) = Ret (text t)
    /\ step (text t) w = (Ret (text t), w).

(** The idempotence claim for one source: the second run logs none of the
    four steps. *)
Definition second_run_is_quiet (x : string) : Prop :=
  ~ In entry_precision (second_run_trace (JStr x))
  /\ (forall e, In e (second_run_trace (JStr x)) -> is_entry_uniforms e = false)
  /\ ~ In entry_texture (second_run_trace (JStr x))
  /\ ~ In entry_main (second_run_trace (JStr x)).

End Notions.
Import Notions.

(* ===================================================================== *)
(** ** Notions for the properties of the single steps *)
(* ===================================================================== *)

Module StepNotions.

Import Fixer.
Local Open Scope string_scope.
Local Open Scope nat_scope.

(** Every code unit [c] replaced by the text [r]. *)
Fixpoint subst (c : ascii) (r : string) (s : string) : string :=
  match s with
  | EmptyString => EmptyString
  | String d s' => (if Ascii.eqb c d then r else String d EmptyString) ++ subst c r s'
  end.

(** The first pass, [replace(/\r\n/g, '\n')], as a function of the text. *)
Fixpoint crlf_pass (s : string) : string :=
  match s with
  | EmptyString => EmptyString
  | String c s' =>
      match s' with
      | String d s'' =>
          if Ascii.eqb CR c && Ascii.eqb NL d then String NL (crlf_pass s'')
          else String c (crlf_pass s')
      | EmptyString => String c EmptyString
      end
  end.

(** One pass over the text that turns each of the three line endings, CR LF,
    CR and LF, into one LF. *)
Fixpoint newlines (s : string) : string :=
  match s with
  | EmptyString => EmptyString
  | String c s' =>
      if Ascii.eqb c CR then
        String NL (match s' with
                   | String d s'' =>
                       if Ascii.eqb d NL then newlines s'' else newlines s'
                   | EmptyString => EmptyString
                   end)
      else String c (newlines s')
  end.

(** No more [open] than [close] code units in the text. *)
Definition closed (open close : ascii) (s : string) : Prop :=
  Str.count_char open s <= Str.count_char close s.

(** Code units of an identifier, a number, white space, [=] and [;]: what a
    match of the vector pattern is made of. *)
Definition plain (c : ascii) : bool :=
  is_word c || is_space c || Ascii.eqb c "=" || Ascii.eqb c "."
  || Ascii.eqb c ";".

(** Code units of an identifier or a number: what the three groups of the
    vector pattern can hold. *)
Definition literal_char (c : ascii) : bool := is_word c || Ascii.eqb c ".".

(** What the two groups of the division pattern can hold, and what a match
    of the pattern can consume. *)
Definition denominator_char (c : ascii) : bool :=
  is_word c || Ascii.eqb c "." || Ascii.eqb c ")".

Definition division_char (c : ascii) : bool :=
  denominator_char c || is_space c || Ascii.eqb c "/" || Ascii.eqb c "(".

(** The start of a guarded division, as step 5 writes it. *)
Definition guard : string := "/ max(".

Definition in_guard (c : ascii) : bool :=
  existsb (Ascii.eqb c) (list_ascii_of_string guard).

Definition off_guard (c : ascii) : bool := negb (in_guard c).
Definition not_slash (c : ascii) : bool := negb (Ascii.eqb c "/").

(** A pattern that matches nothing but the empty text at a place. *)
Fixpoint zero_width (r : regex) : bool :=
  match r with
  | Eps | WordB | Bol | Eol => true
  | Seq r1 r2 => zero_width r1 && zero_width r2
  | _ => false
  end.

(** Every match of the pattern starts by consuming a code unit in [F]
    (patterns without the ignore-case flag). *)
Fixpoint leads (F : ascii -> bool) (r : regex) : bool :=
  match r with
  | Chr a => F a
  | Seq r1 r2 => leads F r1 || (zero_width r1 && leads F r2)
  | Alt r1 r2 => leads F r1 && leads F r2
  | Group _ r1 => leads F r1
  | Quant mn mx _ r1 => (0 <? mn) && negb (max_is_zero mx) && leads F r1
  | _ => false
  end.

(** What [smartFixShader] makes of an empty source. *)
Definition default_shader : string :=
  Str.join_nl
    [ "uniform float uColorOffset;"; "uniform float uZoom;";
      "uniform float uRotate;"; "uniform sampler2D uSampler;";
      "uniform vec2 uResolution;"; "uniform float uTime;";
      "precision mediump float;"; EmptyString;
      "void main(){ gl_FragColor = vec4(0.0); }" ].

(** The text each remediation of the log pass hands on for the diagnostic
    line [err], when the text it is given is a string. *)
Definition patchSemicolon (err s : string) : string :=
  if test true rx_semicolon_msg err || test false rx_quoted_semicolon err
  then Str.join_nl (map semicolonLineFromLogs (Str.split_nl s)) else s.

Definition patchUndeclared (err s : string) : string :=
  match exec true rx_undeclared err with
  | Some st =>
      let id := sanitizeId (firstCaptured st) in
      if negb (Str.is_empty id)
      then "uniform float " ++ id ++ ";" ++ Str.nl ++ s else s
  | None => s
  end.

Definition patchImplicit (err s : string) : string :=
  if test true rx_implicit_conversion err then intToFloat s else s.

Definition patchTexture (err s : string) : string :=
  if test true rx_texture_msg err && Str.includes "texture2D(" s
  then replace_all false rx_texture2D (fun _ _ => "texture(") s else s.

Definition patchMain (err s : string) : string :=
  if test true rx_no_main_msg err && negb (test false rx_main s)
  then s ++ fallback_main else s.

Definition patchUnmatched (err s : string) : string :=
  if test true rx_unmatched_msg err then
    let s1 :=
      if match_count false rx_rbrace s <? match_count false rx_lbrace s
      then s ++ Str.nl
             ++ Str.repeat "}" (match_count false rx_lbrace s
                                - match_count false rx_rbrace s)
      else s in
    if match_count false rx_rparen s1 <? match_count false rx_lparen s1
    then s1 ++ Str.repeat ")" (match_count false rx_lparen s1
                               - match_count false rx_rparen s1)
    else s1
  else s.

Definition patchLine (err s : string) : string :=
  patchUnmatched err
    (patchMain err
       (patchTexture err
          (patchImplicit err (patchUndeclared err (patchSemicolon err s))))).

(** The text the [forEach] of the log pass leaves in [patched]. *)
Definition patchText (errs : list string) (s : string) : string :=
  fold_left (fun acc err => patchLine err acc) errs s.

(** [n] runs of [smartFixShader] in a row, each on what the run before
    returned: [n] clicks on the fix button. *)
Fixpoint rerun (n : nat) (code : jsval) : M page jsval :=
  match n with
  | 0 => ret code
  | S k => bind (smartFixShader code) (rerun k)
  end.

End StepNotions.
Import StepNotions.

(* ===================================================================== *)
(** ** Sessions of the preview: clicks on the two buttons and frames *)
(* ===================================================================== *)

Module PreviewSessions.

Import Preview.
Local Open Scope js_scope.
Local Open Scope string_scope.
Local Open Scope nat_scope.

(** The animation frame [r] fires: the browser takes it off its list and
    calls [render], which draws and requests the next frame.  [drawn] tells
    whether the drawing calls return; when one throws, the callback ends
    there and nothing is requested. *)
Definition fire (r : nat) (drawn : bool) : M engine unit :=
  pending <- get scheduled ;;
  if existsb (Nat.eqb r) pending then
    modify (fun e => with_scheduled (remove_name r (scheduled e)) e) ;;
    if drawn then render else ret tt
  else ret tt.

Inductive command : Type :=
| Run (src : string)               (* a click on the run button *)
| Stop                             (* a click on the stop button *)
| Frame (r : nat) (drawn : bool).  (* the frame request [r] fires *)

Section Session.

Variable drv : driver.

Definition perform (c : command) : M engine unit :=
  match c with
  | Run src => compileAndRun drv src
  | Stop => stopPreview
  | Frame r drawn => fire r drawn
  end.

(** The engine after a sequence of commands, oldest first. *)
Definition run_all (cs : list command) (e : engine) : engine :=
  fold_left (fun st c => state_of (perform c st)) cs e.

End Session.

(** The engine right after [initWebGLPreview]. *)
Definition booted (available : bool) (now : nat) : engine :=
  Engine available None None now
         (if available then []
          else [("ERR", "WebGL not available — interactive preview disabled")])
         None [] [] [] 0 now.

(** Nothing leaked: the only live program is [webgl.program], and the only
    pending frame request is [webgl.animReq]. *)
Definition tidy (e : engine) : Prop :=
  programs e = match program e with Some p => [p] | None => [] end
  /\ (scheduled e = [] \/ exists r, scheduled e = [r] /\ animReq e = Some r)
  /\ (gl e = false -> program e = None).

(** Object names are handed out in increasing order. *)
Definition names_fresh (e : engine) : Prop :=
  Forall (fun x => x < next_name e) (shaders e).

(** How many of the two shaders of a call compile. *)
Definition compiled_shaders (drv : driver) (src : string) : nat :=
  match shader_info_log drv VERTEX_SHADER vs with
  | Some _ => 0
  | None =>
      match shader_info_log drv FRAGMENT_SHADER src with
      | Some _ => 1
      | None => 2
      end
  end.

(** The shaders that compile over a whole session. *)
Fixpoint compiled_in (drv : driver) (cs : list command) : nat :=
  match cs with
  | [] => 0
  | Run src :: t => compiled_shaders drv src + compiled_in drv t
  | _ :: t => compiled_in drv t
  end.

(** Both shaders compile and the program links. *)
Definition builds (drv : driver) (src : string) : Prop :=
  shader_info_log drv VERTEX_SHADER vs = None
  /\ shader_info_log drv FRAGMENT_SHADER src = None
  /\ program_info_log drv vs src = None.

Definition working_driver : driver :=
  Driver (fun _ _ => None) (fun _ _ => None).

(** Run, let two frames pass, run again, stop. *)
Definition sample_clicks : list command :=
  [ Run Notions.sample_source; Frame 3 true; Frame 4 true;
    Run Notions.sample_source; Stop ].

End PreviewSessions.

(* ===================================================================== *)
(** ** Notions for the gestures *)
(* ===================================================================== *)

Module GestureNotions.

Import Interaction.

(** The events that end a drag. *)
Definition releases (ev : event) : bool :=
  match ev with
  | PointerUp | PointerCancel | TouchEnd => true
  | _ => false
  end.

(** The events that move a pointer or a single finger. *)
Definition drags (ev : event) : bool :=
  match ev with
  | PointerMove _ _ _ | TouchMove [_] _ _ => true
  | _ => false
  end.

(** A move of two fingers. *)
Definition pinches (ev : event) : bool :=
  match ev with
  | TouchMove [_; _] _ _ => true
  | _ => false
  end.

(** The events that can set the zoom. *)
Definition zooms (ev : event) : bool :=
  match ev with
  | Wheel _ | TouchMove [_; _] _ _ => true
  | _ => false
  end.

(** A press on a canvas without extent, moved without moving. *)
Definition flat_drag : list event :=
  [ PointerDown k_0 k_0; PointerMove k_0 k_0 k_0 ].

End GestureNotions.

(* ===================================================================== *)
(** ** Escaping for HTML and the comment list *)
(* ===================================================================== *)

Module Comments.

Local Open Scope js_scope.
Local Open Scope string_scope.
Local Open Scope nat_scope.

(** [/&/g], [/</g] and [/>/g] *)
Definition rx_amp : regex := Chr "&".
Definition rx_lt : regex := Chr "<".
Definition rx_gt : regex := Chr ">".

(** [esc(s)]: [String(s)] with the three replacements, in source order. *)
Definition esc (v : jsval) : string :=
  replace_all false rx_gt (fun _ _ => "&gt;")
    (replace_all false rx_lt (fun _ _ => "&lt;")
       (replace_all false rx_amp (fun _ _ => "&amp;") (to_string v))).

(** The double quote of the attribute values in the template literal. *)
Definition dq : string := String "034"%char EmptyString.

(** The template literal [appendCommentUI] assigns to [d.innerHTML]. *)
Definition commentMarkup (nickText text ts : jsval) : string :=
  "<div style=" ++ dq ++ "display:flex;justify-content:space-between" ++ dq
  ++ "><strong>" ++ esc nickText ++ "</strong><span class=" ++ dq ++ "small"
  ++ dq ++ ">" ++ esc ts ++ "</span></div><div style=" ++ dq
  ++ "margin-top:6px;white-space:pre-wrap" ++ dq ++ ">" ++ esc text
  ++ "</div>".

(** The [div] that [appendCommentUI] creates. *)
Record comment_node : Type := CommentNode {
  className : string;
  marginBottom : string;
  innerHTML : string
}.

(** A comment kept in [localComments]. *)
Record local_comment : Type := LocalComment {
  lc_nick : string;
  lc_email : string;
  lc_text : string;
  lc_ts : string
}.

(** What [initComments] closes over: the values of the three inputs ([None]
    when the element is missing), the children of the comment list, first
    child first, the local comments, the two mode variables, the documents
    sent to the [shader_comments] collection, the alerts shown and the main
    log (both newest first). *)
Record board : Type := Board {
  nickValue : option string;
  emailValue : option string;
  textValue : option string;
  commentList : option (list comment_node);
  localComments : list local_comment;
  demoLocal : bool;
  firestore : bool;
  sent : list (string * string * string);
  alerts : list string;
  mainLog : list (string * string)
}.

Definition logMain (msg level : string) : M board unit :=
  fun b => (Ret tt,
            Board (nickValue b) (emailValue b) (textValue b) (commentList b)
                  (localComments b) (demoLocal b) (firestore b) (sent b)
                  (alerts b) ((level, msg) :: mainLog b)).

Definition alert (msg : string) : M board unit :=
  fun b => (Ret tt,
            Board (nickValue b) (emailValue b) (textValue b) (commentList b)
                  (localComments b) (demoLocal b) (firestore b) (sent b)
                  (msg :: alerts b) (mainLog b)).

(** [if (textArea) textArea.value = ''] *)
Definition clearText : M board unit :=
  fun b => (Ret tt,
            Board (nickValue b) (emailValue b)
                  (match textValue b with Some _ => Some EmptyString | None => None end)
                  (commentList b) (localComments b) (demoLocal b) (firestore b)
                  (sent b) (alerts b) (mainLog b)).

(** [appendCommentUI(nickText, text, ts)] *)
Definition appendCommentUI (nickText text ts : jsval) : M board unit :=
  fun b =>
    match commentList b with
    | None => (Ret tt, b)
    | Some children =>
        (Ret tt,
         Board (nickValue b) (emailValue b) (textValue b)
               (Some (CommentNode "comment" "8px" (commentMarkup nickText text ts)
                        :: children))
               (localComments b) (demoLocal b) (firestore b) (sent b)
               (alerts b) (mainLog b))
    end.

(** [localComments.unshift(c)] *)
Definition unshiftLocal (c : local_comment) : M board unit :=
  fun b => (Ret tt,
            Board (nickValue b) (emailValue b) (textValue b) (commentList b)
                  (c :: localComments b) (demoLocal b) (firestore b) (sent b)
                  (alerts b) (mainLog b)).

(** [await addDoc(collection(firestore, 'shader_comments'), doc)], when it
    resolves.  The write also reaches the listener that [tryInitFirebase]
    has registered: that run of [onSnapshot] is part of [step] below. *)
Definition addDoc (doc : string * string * string) : M board unit :=
  fun b => (Ret tt,
            Board (nickValue b) (emailValue b) (textValue b) (commentList b)
                  (localComments b) (demoLocal b) (firestore b) (doc :: sent b)
                  (alerts b) (mainLog b)).

(** [(x && x.value) ? x.value.trim() : d] *)
Definition fieldOr (x : option string) (d : string) : string :=
  match x with
  | Some v => if Str.is_empty v then d else Str.trim v
  | None => d
  end.

(** [postCommentHandler()].  [online] tells whether the import of the
    Firestore module and [addDoc] succeed; [now] is
    [new Date().toLocaleString()].  The dash in the message of the failed
    online post is kept as the bytes of its UTF-8 form. *)
Definition postCommentHandler (online : bool) (now : string) : M board unit :=
  fun b =>
    let nickVal := fieldOr (nickValue b) "anon" in
    let emailVal := fieldOr (emailValue b) EmptyString in
    let textVal := fieldOr (textValue b) EmptyString in
    (if Str.is_empty textVal then alert "Write a comment before posting."
     else
       let local :=
         unshiftLocal (LocalComment nickVal emailVal textVal now) ;;
         appendCommentUI (JStr nickVal) (JStr textVal) (JStr now) ;;
         clearText ;;
         logMain "Comment posted (local demo)" "OK" in
       if negb (demoLocal b) && firestore b then
         if online then
           addDoc (nickVal, emailVal, textVal) ;;
           clearText ;;
           logMain "Comment posted (online)" "OK"
         else
           logMain "Posting online failed — saved locally" "ERR" ;; local
       else local) b.

(** One click on the post button, with what the inputs hold at that
    moment. *)
Record post : Type := Post {
  typed_nick : string;
  typed_email : string;
  typed_text : string;
  post_online : bool;
  post_now : string
}.

Definition typeIn (p : post) (b : board) : board :=
  Board (match nickValue b with Some _ => Some (typed_nick p) | None => None end)
        (match emailValue b with Some _ => Some (typed_email p) | None => None end)
        (match textValue b with Some _ => Some (typed_text p) | None => None end)
        (commentList b) (localComments b) (demoLocal b) (firestore b) (sent b)
        (alerts b) (mainLog b).

(** A document of a snapshot as the listener reads it: the fields [nick]
    and [text] ([undefined] when absent) and the date its time stamp shows
    ([None] while the [ts] field is not set). *)
Record doc_data : Type := DocData {
  d_nick : jsval;
  d_text : jsval;
  d_ts : option string
}.

(** [commentList.innerHTML = ''] *)
Definition clearList : M board unit :=
  fun b => (Ret tt,
            Board (nickValue b) (emailValue b) (textValue b)
                  (match commentList b with Some _ => Some [] | None => None end)
                  (localComments b) (demoLocal b) (firestore b) (sent b)
                  (alerts b) (mainLog b)).

(** The callback of [snap.forEach], with [now] for
    [new Date().toLocaleString()]. *)
Definition showDoc (now : string) (d : doc_data) : M board unit :=
  appendCommentUI (js_or (d_nick d) (JStr "anon"))
                  (js_or (d_text d) (JStr EmptyString))
                  (JStr (match d_ts d with Some date => date | None => now end)).

Fixpoint forEach {A} (f : A -> M board unit) (l : list A) : M board unit :=
  match l with
  | [] => ret tt
  | x :: t => f x ;; forEach f t
  end.

(** The listener [tryInitFirebase] gives to [onSnapshot]; [snap] holds the
    documents in the order of the query. *)
Definition onSnapshot (snap : list doc_data) (now : string) : M board unit :=
  fun b =>
    match commentList b with
    | None => (Ret tt, b)
    | Some _ => (clearList ;; forEach (showDoc now) snap) b
    end.

(** Whether [postCommentHandler] writes to the collection. *)
Definition goesOnline (online : bool) (b : board) : bool :=
  negb (Str.is_empty (fieldOr (textValue b) EmptyString))
  && negb (demoLocal b) && firestore b && online.

(** What happens on the page during a session: a click on the post button,
    with the snapshot the listener is given for the write when the post goes
    online, or a run of the listener for any other change of the
    collection. *)
Inductive event : Type :=
| Click (p : post) (echo : list doc_data) (echo_now : string)
| Snapshot (snap : list doc_data) (now : string).

Definition step (e : event) (b : board) : board :=
  match e with
  | Click p echo echo_now =>
      let b1 := typeIn p b in
      let b2 := state_of (postCommentHandler (post_online p) (post_now p) b1) in
      if goesOnline (post_online p) b1
      then state_of (onSnapshot echo echo_now b2) else b2
  | Snapshot snap now => state_of (onSnapshot snap now b)
  end.





(** Two boards with the same inputs present and in the same mode. *)
Definition same_mode (b b' : board) : Prop :=
  demoLocal b' = demoLocal b /\ firestore b' = firestore b
  /\ (textValue b' = None <-> textValue b = None)
  /\ (commentList b' = None <-> commentList b = None).






(** The escape of one code unit. *)
Definition esc_char (c : ascii) : string :=
  if Ascii.eqb c "&" then "&amp;"
  else if Ascii.eqb c "<" then "&lt;"
  else if Ascii.eqb c ">" then "&gt;"
  else String c EmptyString.

(** What an HTML parser reads back from text that uses the three character
    references [&amp;], [&lt;] and [&gt;]. *)
Fixpoint unescape (s : string) : string :=
  match s with
  | EmptyString => EmptyString
  | String c s' =>
      if Str.startsWith "&amp;" s then String "&" (unescape (Str.drop 4 s'))
      else if Str.startsWith "&lt;" s then String "<" (unescape (Str.drop 3 s'))
      else if Str.startsWith "&gt;" s then String ">" (unescape (Str.drop 3 s'))
      else String c (unescape s')
  end.

End Comments.

(* ===================================================================== *)
(** ** The line gutter and the counters of the editor *)
(* ===================================================================== *)

Module Editor.

Local Open Scope js_scope.
Local Open Scope string_scope.
Local Open Scope nat_scope.

Definition TAB : ascii := "009"%char.

(** [/\t/g] *)
Definition rx_tab : regex := Chr TAB.

(** What [updateLineNumbers] reads and writes: the text of the editor, the
    text of the gutter ([None] before the element exists; [ensureElement]
    creates it), and the texts of [#lineCount] and [#charCount], [None]
    when the page has no such element. *)
Record panel : Type := Panel {
  innerText : string;
  lineNumbers : option string;
  lineCount : option string;
  charCount : option string
}.

(** [for (let i = 1; i <= lines.length; i++) html += i + '\n'], with [n]
    rounds left and the counter at [i]. *)
Fixpoint numberLoop (n i : nat) (html : string) : string :=
  match n with
  | O => html
  | S n' => numberLoop n' (S i) (html ++ string_of_nat i ++ Str.nl)
  end.

(** An element that is there gets the text; a missing one is skipped. *)
Definition setText (el : option string) (txt : string) : option string :=
  match el with Some _ => Some txt | None => None end.

(** [updateLineNumbers()]; nothing in its [try] block throws. *)
Definition updateLineNumbers (p : panel) : panel :=
  let codeText := replace_all false rx_tab (fun _ _ => "    ") (innerText p) in
  let lines := Str.split_nl codeText in
  let html := numberLoop (List.length lines) 1 EmptyString in
  Panel (innerText p)
        (Some html)
        (setText (lineCount p) (string_of_nat (List.length lines)))
        (setText (charCount p) (string_of_nat (String.length codeText))).

(** The numbers [1 .. n], each on a line of its own. *)
Definition numbered (n : nat) : list string :=
  map string_of_nat (List.seq 1 n).

End Editor.

(* ===================================================================== *)
(** ** The two fix buttons *)
(* ===================================================================== *)

Module Buttons.

Import Fixer Editor.
Local Open Scope js_scope.
Local Open Scope string_scope.
Local Open Scope nat_scope.

(** What the click handlers of [#fixBtn] and [#applyLogsBtn] read and write:
    the page of the fixer, the editor with its gutter and counters, the
    value of the logs input ([None] when the element is missing), the text
    of the compile log, [window.GODFIX_LAST_COMPILE_LOG], the [display]
    style of the download button, and the alerts shown (newest first). *)
Record app : Type := App {
  page_of : page;
  panel_of : panel;
  logsInput : option string;
  compileLogText : string;
  lastCompileLog : string;
  downloadDisplay : string;
  alerts : list string
}.

(** A computation of the fixer, run on the page of the application. *)
Definition onPage {A} (c : M page A) : M app A :=
  fun a =>
    (value_of (c (page_of a)),
     App (state_of (c (page_of a))) (panel_of a) (logsInput a)
         (compileLogText a) (lastCompileLog a) (downloadDisplay a) (alerts a)).

(** [el.code.innerText = text; updateLineNumbers()] *)
Definition setCode (text : string) : M app unit :=
  fun a =>
    (Ret tt,
     App (page_of a)
         (updateLineNumbers
            (Panel text (lineNumbers (panel_of a)) (lineCount (panel_of a))
                   (charCount (panel_of a))))
         (logsInput a) (compileLogText a) (lastCompileLog a)
         (downloadDisplay a) (alerts a)).

(** [el.downloadBtn.style.display = 'inline-block'] *)
Definition showDownload : M app unit :=
  fun a =>
    (Ret tt,
     App (page_of a) (panel_of a) (logsInput a) (compileLogText a)
         (lastCompileLog a) "inline-block" (alerts a)).

(** [logCompile(msg, level)], with [now] for
    [new Date().toLocaleTimeString()]. *)
Definition logCompile (now msg level : string) : M app unit :=
  fun a =>
    let text := now ++ " [" ++ level ++ "] " ++ msg ++ Str.nl
                ++ compileLogText a in
    (Ret tt,
     App (page_of a) (panel_of a) (logsInput a) text text (downloadDisplay a)
         (alerts a)).

Definition alert (msg : string) : M app unit :=
  fun a =>
    (Ret tt,
     App (page_of a) (panel_of a) (logsInput a) (compileLogText a)
         (lastCompileLog a) (downloadDisplay a) (msg :: alerts a)).

(** [(el.code && el.code.innerText) ? el.code.innerText : ''] *)
Definition sourceOf (a : app) : string := innerText (panel_of a).

(** The click handler of [#fixBtn]; the animations leave this state alone. *)
Definition fixClick (now : string) : M app unit :=
  try_catch
    (a <- (fun a => (Ret a, a)) ;;
     fixed <- onPage (smartFixShader (JStr (sourceOf a))) ;;
     setCode (to_string fixed) ;;
     showDownload ;;
     logCompile now "Auto-fix applied" "OK")
    (fun e =>
       message <- message_of e ;;
       logCompile now ("Auto-fix crashed: " ++ to_string message) "ERR").

(** [(el.logsInput && el.logsInput.value) ? el.logsInput.value
      : (el.compileLog ? el.compileLog.textContent : '')] *)
Definition logsTextOf (a : app) : string :=
  match logsInput a with
  | Some v => if Str.is_empty v then compileLogText a else v
  | None => compileLogText a
  end.

(** The click handler of [#applyLogsBtn]. *)
Definition applyLogsClick (now : string) : M app unit :=
  try_catch
    (a <- (fun a => (Ret a, a)) ;;
     if Str.is_empty (logsTextOf a) then
       alert "Paste logs into the Logs input first or compile to produce logs."
     else
       patched <- onPage (parseErrorsAndFix (JStr (sourceOf a))
                                            (JStr (logsTextOf a))) ;;
       setCode (to_string patched) ;;
       showDownload ;;
       logCompile now "Applied fixes derived from logs" "OK")
    (fun e =>
       msg <- describe e ;;
       logCompile now ("Fix-with-logs error: " ++ msg) "ERR").

End Buttons.

(* ===================================================================== *)
(** * Properties *)
(* ===================================================================== *)

(** ** Computations over the page: totality and page-independent results *)

Module PageFacts.

Import Fixer.
Local Open Scope js_scope.
Local Open Scope string_scope.
Local Open Scope nat_scope.

Lemma total_ret A (a : A) : total (ret a).
Proof. intros w. exists a, w. reflexivity. Qed.

Lemma total_bind A B (c : M page A) (f : A -> M page B) :
  total c -> (forall a, total (f a)) -> total (bind c f).
Proof.
  intros Hc Hf w. destruct (Hc w) as (a & w1 & E).
  destruct (Hf a w1) as (b & w2 & E2).
  exists b, w2. unfold bind. rewrite E. exact E2.
Qed.

Lemma total_logMain msg level : total (logMain msg level).
Proof. intros w. eexists _, _. reflexivity. Qed.

Lemma total_set_fixed v : total (set_GODFIX_FIXED v).
Proof. intros w. eexists _, _. reflexivity. Qed.

Lemma total_try_catch A (c : M page A) h :
  (forall e, total (h e)) -> total (try_catch c h).
Proof.
  intros Hh w. unfold try_catch. destruct (c w) as [[a|e] w1].
  - exists a, w1. reflexivity.
  - apply Hh.
Qed.

Lemma total_string_method receiver name s :
  total (string_method receiver name (JStr s)).
Proof. apply total_ret. Qed.

Lemma total_if A (b : bool) (c d : M page A) :
  total c -> total d -> total (if b then c else d).
Proof. destruct b; auto. Qed.

Create HintDb total discriminated.
#[export] Hint Resolve total_ret total_bind total_logMain total_set_fixed
  total_try_catch total_string_method total_if : total.

Lemma det_ret A (a : A) : det (ret a).
Proof. exists (Ret a). reflexivity. Qed.

Lemma det_throw A e : det (@throw page A e).
Proof. exists (Throw e). reflexivity. Qed.

Lemma det_bind A B (c : M page A) (f : A -> M page B) :
  det c -> (forall a, det (f a)) -> det (bind c f).
Proof.
  intros [o Ho] Hf. destruct o as [a|e].
  - destruct (Hf a) as [o' Ho']. exists o'. intros w.
    unfold bind. specialize (Ho w). destruct (c w) as [r w1].
    unfold value_of in Ho. simpl in Ho. subst r. apply Ho'.
  - exists (Throw e). intros w. unfold bind. specialize (Ho w).
    destruct (c w) as [r w1]. unfold value_of in Ho. simpl in Ho.
    subst r. reflexivity.
Qed.

Lemma det_try_catch A (c : M page A) h :
  det c -> (forall e, det (h e)) -> det (try_catch c h).
Proof.
  intros [o Ho] Hh. destruct o as [a|e].
  - exists (Ret a). intros w. unfold try_catch. specialize (Ho w).
    destruct (c w) as [r w1]. unfold value_of in Ho. simpl in Ho.
    subst r. reflexivity.
  - destruct (Hh e) as [o' Ho']. exists o'. intros w.
    unfold try_catch. specialize (Ho w). destruct (c w) as [r w1].
    unfold value_of in Ho. simpl in Ho. subst r. apply Ho'.
Qed.

Lemma det_logMain msg level : det (logMain msg level).
Proof. exists (Ret tt). reflexivity. Qed.

Lemma det_set_fixed v : det (set_GODFIX_FIXED v).
Proof. exists (Ret tt). reflexivity. Qed.

Lemma det_string_method receiver name v :
  det (@string_method page receiver name v).
Proof.
  destruct v as [ | | | | |r s]; simpl; try first [apply det_ret | apply det_throw].
  destruct (method_named name r s); apply det_throw.
Qed.

Lemma det_describe e : det (@describe page e).
Proof.
  destruct e as [n m| |v]; simpl; try first [apply det_ret | apply det_throw].
  destruct v; first [apply det_ret | apply det_throw].
Qed.

Lemma det_if A (b : bool) (c d : M page A) :
  det c -> det d -> det (if b then c else d).
Proof. destruct b; auto. Qed.

Lemma det_foldM A B (f : B -> A -> M page A) l :
  (forall x a, det (f x a)) -> forall a, det (foldM f l a).
Proof.
  intros Hf. induction l as [|x t IH]; intros a; simpl.
  - apply det_ret.
  - apply det_bind; auto.
Qed.

Create HintDb det discriminated.
#[export] Hint Resolve det_ret det_throw det_bind det_try_catch det_logMain
  det_set_fixed det_string_method det_describe det_if det_foldM : det.

(** Two runs of a [det] computation agree on the outcome. *)
Lemma det_value A (c : M page A) w w' :
  det c -> value_of (c w) = value_of (c w').
Proof. intros [o Ho]. rewrite (Ho w), (Ho w'). reflexivity. Qed.

Ltac step_tac :=
  repeat first
    [ progress intros
    | apply total_bind | apply total_if | apply total_ret
    | apply total_logMain | apply total_set_fixed ].

Ltac det_tac :=
  repeat first
    [ progress intros
    | apply det_bind | apply det_if | apply det_ret | apply det_throw
    | apply det_logMain | apply det_set_fixed | apply det_string_method
    | apply det_describe ].

Lemma repairSteps_total out : total (repairSteps out).
Proof.
  unfold repairSteps, ensurePrecision, ensureUniforms, modernizeTexture,
    insertSemicolons, guardDivisionsStep, closeBraces, closeParens, ensureMain.
  step_tac.
  destruct (fold_left _ _ _) as [o n]. step_tac.
Qed.

Lemma repairSteps_det out : det (repairSteps out).
Proof.
  unfold repairSteps, ensurePrecision, ensureUniforms, modernizeTexture,
    insertSemicolons, guardDivisionsStep, closeBraces, closeParens, ensureMain.
  det_tac.
  destruct (fold_left _ _ _) as [o n]. det_tac.
Qed.










Lemma smartFixShader_try_det code : det (smartFixShader_try code).
Proof.
  unfold smartFixShader_try.
  apply det_bind; [apply det_logMain | intros _].
  apply det_bind; [apply det_string_method | intros s].
  apply det_bind; [apply repairSteps_det | det_tac].
Qed.

Lemma smartFixShader_det code : det (smartFixShader code).
Proof.
  unfold smartFixShader. apply det_try_catch.
  - apply smartFixShader_try_det.
  - intros e. unfold smartFixShader_catch. det_tac.
Qed.

Lemma returns_string_bind A (c : M page A) f :
  total c -> (forall a, returns_string (f a)) -> returns_string (bind c f).
Proof.
  intros Hc Hf w. destruct (Hc w) as (a & w1 & E).
  destruct (Hf a w1) as (s & w2 & E2).
  exists s, w2. unfold bind. rewrite E. exact E2.
Qed.

Lemma returns_string_bind' (c : M page jsval) f :
  returns_string c -> (forall s, returns_string (f (JStr s))) ->
  returns_string (bind c f).
Proof.
  intros Hc Hf w. destruct (Hc w) as (s & w1 & E).
  destruct (Hf s w1) as (s' & w2 & E2).
  exists s', w2. unfold bind. rewrite E. exact E2.
Qed.

Lemma returns_string_ret s : returns_string (ret (JStr s)).
Proof. intros w. exists s, w. reflexivity. Qed.

Lemma returns_string_if (b : bool) c d :
  returns_string c -> returns_string d -> returns_string (if b then c else d).
Proof. destruct b; auto. Qed.

Lemma js_or_string s :
  exists s0, js_or (JStr s) (JStr EmptyString) = JStr s0.
Proof. destruct s; eexists; reflexivity. Qed.

(** On a string the [try] block of [smartFixShader] runs to its end. *)
Lemma smartFixShader_try_string s :
  returns_string (smartFixShader_try (JStr s)).
Proof.
  unfold smartFixShader_try. destruct (js_or_string s) as [s0 ->].
  apply returns_string_bind; [apply total_logMain | intros _].
  apply returns_string_bind; [apply total_string_method | intros s1].
  apply returns_string_bind; [apply repairSteps_total | intros out].
  apply returns_string_bind; [apply total_logMain | intros _].
  apply returns_string_bind; [apply total_set_fixed | intros _].
  apply returns_string_ret.
Qed.

Lemma smartFixShader_string s : returns_string (smartFixShader (JStr s)).
Proof.
  intros w. destruct (smartFixShader_try_string s w) as (o & w1 & E).
  exists o, w1. unfold smartFixShader, try_catch. rewrite E. reflexivity.
Qed.

End PageFacts.

(** ** The worked example of [smartFixShader] *)

Module SampleFacts.

Import Fixer PageFacts.
Local Open Scope string_scope.
Local Open Scope nat_scope.

Lemma sample_run :
  smartFixShader (JStr sample_source) page0
  = (Ret (JStr sample_repaired),
     Page [ entry_done; entry_divisions; entry_semicolons;
            ("OK", "Added 6 uniform(s)"); entry_precision;
            ("OK", "Starting smartFixShader pass") ]
          (JStr sample_repaired)).
Proof. vm_compute. reflexivity. Qed.

(** C1.  What the code returns, from any page, for the source
    [void main(){ gl_FragColor = vec4(1.0); }]: the source preceded by the
    six uniform declarations and only then the line
    [precision mediump float;].  Step 1 puts the precision line first and
    step 2 then writes each missing declaration above it, so the line ends up
    seventh, below four [float] declarations and a [vec2] one; the output has
    exactly one [void main(] and no fallback main is appended. *)
Theorem sample_repair_output :
  forall w,
    value_of (smartFixShader (JStr sample_source) w) = Ret (JStr sample_repaired)
    /\ nth_error (Str.split_nl sample_repaired) 6 = Some "precision mediump float;"
    /\ Str.startsWith "uniform float uColorOffset;" sample_repaired = true
    /\ match_count false rx_main sample_repaired = 1
    /\ Str.includes fallback_main sample_repaired = false
    /\ ~ In entry_main (trace_of (smartFixShader (JStr sample_source))).
Proof.
  intros w. split.
  - rewrite (det_value w page0 (smartFixShader_det _)).
    rewrite sample_run. reflexivity.
  - repeat split; try (vm_compute; reflexivity).
    unfold trace_of. rewrite sample_run. vm_compute.
    intros H. repeat (destruct H as [H|H]; [discriminate H|]). exact H.
Qed.

(** On the code the output for the sample source does not start with the
    precision line that C1 asks for. *)
Lemma sample_repair_not_precision_first :
  ~ (exists out,
       value_of (smartFixShader (JStr sample_source) page0) = Ret (JStr out)
       /\ Str.startsWith precision_line out = true
       /\ match_count false rx_main out = 1).
Proof.
  intros (out & E & Hstart & _). rewrite sample_run in E.
  unfold value_of in E. simpl in E. injection E as <-.
  vm_compute in Hstart. discriminate Hstart.
Qed.

End SampleFacts.

(** ** Searching: a match that starts inside the text is found *)

Module SearchFacts.

Local Open Scope string_scope.
Local Open Scope nat_scope.

(** The code unit before the position that follows [a], when the code unit
    before [a] is [p]. *)
Definition prev_after (p : option ascii) (a : string) : option ascii :=
  match Str.last a with Some c => Some c | None => p end.

Lemma last_cons_some a : forall c, exists x, Str.last (String c a) = Some x.
Proof.
  induction a as [|d a IH]; intros c.
  - exists c. reflexivity.
  - destruct (IH d) as [x E]. exists x.
    change (Str.last (String c (String d a))) with (Str.last (String d a)).
    exact E.
Qed.

Lemma prev_after_cons p c a : prev_after p (String c a) = prev_after (Some c) a.
Proof.
  unfold prev_after. destruct a as [|d a]; [reflexivity|].
  change (Str.last (String c (String d a))) with (Str.last (String d a)).
  destruct (last_cons_some a d) as [x ->]. reflexivity.
Qed.

Lemma exec_from_app ic r a b :
  forall p,
    match_here ic r (prev_after p a) b <> None ->
    exec_from ic r p (a ++ b) <> None.
Proof.
  induction a as [|c a IH]; intros p H.
  - simpl. destruct b; simpl; unfold prev_after in H; simpl in H;
      destruct (match_here ic r p _); congruence.
  - simpl. destruct (match_here ic r p (String c (a ++ b))); [congruence|].
    apply IH. rewrite <- (prev_after_cons p). exact H.
Qed.

Lemma test_app ic r a b :
  match_here ic r (prev_after None a) b <> None -> test ic r (a ++ b) = true.
Proof.
  intros H. unfold test, exec.
  destruct (exec_from ic r None (a ++ b)) eqn:E; [reflexivity|].
  exfalso. exact (exec_from_app ic r a b None H E).
Qed.

(** A match that starts at the very beginning is found too. *)
Lemma test_here ic r s :
  match_here ic r None s <> None -> test ic r s = true.
Proof. intros H. apply (test_app ic r EmptyString s). exact H. Qed.

Lemma append_assoc (a b c : string) : (a ++ b) ++ c = a ++ (b ++ c).
Proof. induction a; simpl; congruence. Qed.

Lemma append_empty_r (a : string) : a ++ EmptyString = a.
Proof. induction a; simpl; congruence. Qed.

Lemma last_app_cons a c b : Str.last (a ++ String c b) = Str.last (String c b).
Proof.
  induction a as [|d a IH]; [reflexivity|].
  simpl append. change (Str.last (String d (a ++ String c b)))
    with (match a ++ String c b with
          | EmptyString => Some d
          | String _ _ => Str.last (a ++ String c b)
          end).
  destruct (a ++ String c b) eqn:E.
  - destruct a; discriminate E.
  - exact IH.
Qed.

End SearchFacts.

(** ** The main-presence step and the division and integer rewrites *)

Module StepFacts.

Import Fixer PageFacts SearchFacts.
Local Open Scope string_scope.
Local Open Scope nat_scope.

Lemma test_main_after_fallback out :
  test false rx_main (out ++ fallback_main) = true.
Proof.
  unfold fallback_main, Str.nl.
  change (String NL EmptyString ++ "void main(){ gl_FragColor = vec4(0.0); }")
    with (String NL "void main(){ gl_FragColor = vec4(0.0); }").
  replace (out ++ String NL "void main(){ gl_FragColor = vec4(0.0); }")
    with ((out ++ String NL EmptyString)
            ++ "void main(){ gl_FragColor = vec4(0.0); }")
    by (rewrite append_assoc; reflexivity).
  apply test_app. unfold prev_after. rewrite last_app_cons.
  vm_compute. discriminate.
Qed.

(** C4, as amended.  When the text has no match of [\bvoid\s+main\s*\(] the
    step appends the fallback [void main(){ gl_FragColor = vec4(0.0); }] on a
    line of its own and logs it; when it has one, the text and the page are
    untouched.  The fallback writes [vec4(0.0)], that is transparent black
    (all four components zero), and after the step the text has a main. *)
Theorem ensureMain_appends_fallback :
  forall out w,
    (test false rx_main out = false ->
       ensureMain out w
       = (Ret (out ++ fallback_main),
          Page (entry_main :: mainLog w) (GODFIX_FIXED w)))
    /\ (test false rx_main out = true -> ensureMain out w = (Ret out, w))
    /\ Glsl.writes Glsl.transparent_black fallback_main = true
    /\ (exists out', value_of (ensureMain out w) = Ret out'
                     /\ test false rx_main out' = true).
Proof.
  intros out w. unfold ensureMain.
  destruct (test false rx_main out) eqn:E; cbn [negb].
  - split; [intros H; discriminate H|]. split; [intros _; reflexivity|].
    split; [vm_compute; reflexivity|].
    exists out. split; [reflexivity | exact E].
  - split; [intros _; reflexivity|]. split; [intros H; discriminate H|].
    split; [vm_compute; reflexivity|].
    exists (out ++ fallback_main). split; [reflexivity|].
    apply test_main_after_fallback.
Qed.

Lemma ensureMain_appends_fallback_witness :
  test false rx_main EmptyString = false
  /\ ensureMain EmptyString page0
     = (Ret (EmptyString ++ fallback_main),
        Page (entry_main :: mainLog page0) (GODFIX_FIXED page0)).
Proof.
  split; [reflexivity|].
  apply (proj1 (ensureMain_appends_fallback EmptyString page0)).
  reflexivity.
Defined.

(** C4 as stated fails: what is appended for the empty text writes a colour
    whose alpha is zero, so it is not opaque black. *)
Lemma ensureMain_fallback_not_opaque :
  ~ (forall out,
       test false rx_main out = false ->
       exists appended,
         value_of (ensureMain out page0) = Ret (out ++ appended)
         /\ Glsl.writes Glsl.opaque_black appended = true).
Proof.
  intros H. destruct (H EmptyString eq_refl) as (appended & E & Hop).
  vm_compute in E. injection E as <-.
  vm_compute in Hop. discriminate Hop.
Qed.

(** C5: the code at the claim's two examples and at [a/(b)].  A bare
    denominator is guarded and a numeric one is left alone, but for the
    parenthesised form the opening parenthesis is dropped while the closing
    one is kept, so [a/(b)] becomes [a/ max(b, 0.000001))] with one closing
    parenthesis too many, and the whole pipeline keeps it. *)
Theorem guardDivisions_cases :
  guardDivisions "a / b" = "a / max(b, 0.000001)"
  /\ guardDivisions "a / 2.0" = "a / 2.0"
  /\ guardDivisions "a/(b)" = "a/ max(b, 0.000001))"
  /\ match_count false rx_lparen (guardDivisions "a/(b)") = 1
  /\ match_count false rx_rparen (guardDivisions "a/(b)") = 2
  /\ repair (JStr "void main(){ float c = a/(b); gl_FragColor = vec4(c); }")
     = JStr (Str.join_nl
         [ "uniform float uColorOffset;"; "uniform float uZoom;";
           "uniform float uRotate;"; "uniform sampler2D uSampler;";
           "uniform vec2 uResolution;"; "uniform float uTime;";
           "precision mediump float;";
           "void main(){ float c = a/ max(b, 0.000001)); gl_FragColor = vec4(c); }" ]).
Proof. repeat split; vm_compute; reflexivity. Qed.

(** C6: the code at a source with float literals.  The integer rewrite also
    matches the digit runs on both sides of a decimal point, so [1.5] becomes
    [1.0.5.0]; with a conversion diagnostic the whole remediation turns
    [vec4(x, 0.5, 0.0, 1.0)] into [vec4(x, 0.0.5.0, 0.0.0.0, 1.0.0.0)]. *)
Theorem intToFloat_rewrites_float_literals :
  intToFloat "1.5" = "1.0.5.0"
  /\ intToFloat "x = 1;" = "x = 1.0;"
  /\ value_of
       (parseErrorsAndFix
          (JStr "void main(){ float x = 1; gl_FragColor = vec4(x, 0.5, 0.0, 1.0); }")
          (JStr "ERROR: 0:1: '=' : cannot convert from 'const int' to 'highp float'")
          page0)
     = Ret (JStr (Str.join_nl
         [ "uniform float uColorOffset;"; "uniform float uZoom;";
           "uniform float uRotate;"; "uniform sampler2D uSampler;";
           "uniform vec2 uResolution;"; "uniform float uTime;";
           "precision mediump float;";
           "void main(){ float x = 1.0; gl_FragColor = vec4(x, 0.0.5.0, 0.0.0.0, 1.0.0.0); }" ])).
Proof. repeat split; vm_compute; reflexivity. Qed.

End StepFacts.

(** ** The log-driven pass *)

Module RemediateFacts.

Import Fixer PageFacts SearchFacts.
Local Open Scope string_scope.
Local Open Scope nat_scope.

Lemma js_or_empty_string text :
  js_or (JStr text) (JStr EmptyString) = JStr text.
Proof. destruct text; reflexivity. Qed.

(** The [try] block of [parseErrorsAndFix] on a string of diagnostics, step
    by step. *)
Lemma parseErrorsAndFix_try_eq code text w :
  parseErrorsAndFix_try code (JStr text) w
  = match foldM fixLine (candidateErrors (logLines text)) code
            (Page (("OK", "parseErrorsAndFix: analyzing logs") :: mainLog w)
                  (GODFIX_FIXED w)) with
    | (Ret patched, w1) =>
        match smartFixShader patched w1 with
        | (Ret v, w2) =>
            (Ret v,
             Page (("OK", "parseErrorsAndFix completed") :: mainLog w2)
                  (GODFIX_FIXED w2))
        | (Throw e, w2) => (Throw e, w2)
        end
    | (Throw e, w1) => (Throw e, w1)
    end.
Proof.
  unfold parseErrorsAndFix_try. rewrite js_or_empty_string.
  unfold bind at 1. unfold logMain at 1. cbv beta iota.
  unfold bind at 1. unfold string_method, ret at 1. cbv beta iota.
  unfold bind at 1.
  destruct (foldM fixLine (candidateErrors (logLines text)) code _)
    as [[patched|e] w1]; [|reflexivity].
  unfold bind at 1.
  destruct (smartFixShader patched w1) as [[v|e] w2]; reflexivity.
Qed.

Lemma trimStart_all_space s : all_space s = true -> Str.trimStart s = EmptyString.
Proof.
  induction s as [|c s IH]; [reflexivity|]. simpl.
  intros H. apply andb_prop in H. destruct H as [Hc Hs].
  rewrite Hc. auto.
Qed.

Lemma trim_all_space s : all_space s = true -> Str.trim s = EmptyString.
Proof. intros H. unfold Str.trim. rewrite trimStart_all_space; auto. Qed.

Lemma split_nl_all_space s :
  all_space s = true -> Forall (fun x => all_space x = true) (Str.split_nl s).
Proof.
  induction s as [|c s IH]; intros H.
  - repeat constructor.
  - simpl in H. apply andb_prop in H. destruct H as [Hc Hs].
    specialize (IH Hs). simpl.
    destruct (Ascii.eqb c NL).
    + constructor; [reflexivity | exact IH].
    + destruct (Str.split_nl s) as [|h t].
      * repeat constructor. simpl. rewrite Hc. reflexivity.
      * inversion IH; subst. constructor; [|assumption].
        simpl. rewrite Hc. assumption.
Qed.

(** Blank diagnostics have no lines to act on. *)
Lemma logLines_all_space d : all_space d = true -> logLines d = [].
Proof.
  intros H. unfold logLines. apply split_nl_all_space in H.
  induction H as [|x l Hx Hl IH]; [reflexivity|].
  simpl. rewrite (trim_all_space _ Hx). simpl. exact IH.
Qed.

(** C10.  When the diagnostic text is empty or made of white space and line
    terminators only, [parseErrorsAndFix] applies no log-derived patch: it
    logs that it analyses, runs [smartFixShader] on the untouched source,
    logs that it completed, and returns exactly what [smartFixShader]
    returns for that source (from any page). *)
Theorem blank_diagnostics_give_plain_repair :
  forall src d w w',
    all_space d = true ->
    value_of (parseErrorsAndFix (JStr src) (JStr d) w)
    = value_of (smartFixShader (JStr src) w')
    /\ parseErrorsAndFix (JStr src) (JStr d) w
       = (let r := smartFixShader (JStr src)
                     (Page (("OK", "parseErrorsAndFix: analyzing logs") :: mainLog w)
                           (GODFIX_FIXED w)) in
          (fst r,
           Page (("OK", "parseErrorsAndFix completed") :: mainLog (snd r))
                (GODFIX_FIXED (snd r)))).
Proof.
  intros src d w w' Hd.
  assert (E : parseErrorsAndFix (JStr src) (JStr d) w
       = (let r := smartFixShader (JStr src)
                     (Page (("OK", "parseErrorsAndFix: analyzing logs") :: mainLog w)
                           (GODFIX_FIXED w)) in
          (fst r,
           Page (("OK", "parseErrorsAndFix completed") :: mainLog (snd r))
                (GODFIX_FIXED (snd r))))).
  { unfold parseErrorsAndFix, try_catch. rewrite parseErrorsAndFix_try_eq.
    rewrite (logLines_all_space _ Hd).
    change (candidateErrors []) with (@nil string).
    change (foldM fixLine [] (JStr src)) with (@ret page _ (JStr src)).
    unfold ret at 1.
    destruct (smartFixShader_string src
                (Page (("OK", "parseErrorsAndFix: analyzing logs") :: mainLog w)
                      (GODFIX_FIXED w))) as (o & w2 & E2).
    rewrite E2. reflexivity. }
  split; [|exact E].
  rewrite E. cbv zeta. unfold value_of at 1. cbn [fst].
  apply (det_value _ w' (smartFixShader_det (JStr src))).
Qed.

Lemma blank_diagnostics_give_plain_repair_witness :
  all_space (String " " (String NL (String " " EmptyString))) = true
  /\ value_of (parseErrorsAndFix (JStr sample_source)
                 (JStr (String " " (String NL (String " " EmptyString)))) page0)
     = value_of (smartFixShader (JStr sample_source) page0).
Proof.
  split; [reflexivity|].
  apply (proj1 (blank_diagnostics_give_plain_repair sample_source
                  (String " " (String NL (String " " EmptyString)))
                  page0 page0 eq_refl)).
Defined.

(** *** The undeclared-identifier remediation *)

Lemma eqb_underscore c : Ascii.eqb "_"%char c = (code c =? 95).
Proof.
  destruct (Ascii.eqb_spec "_"%char c) as [<-|N]; [reflexivity|].
  symmetry. apply Nat.eqb_neq. intros E. apply N.
  unfold code in E. rewrite <- (ascii_nat_embedding c), E. reflexivity.
Qed.

Lemma ident_class_is_word c :
  items_have [range "a" "z"; range "A" "Z"; range "0" "9"; CChar "_"] c
  = is_word c.
Proof.
  unfold items_have, is_word, is_lower, is_upper, is_digit, range.
  cbn [existsb item_has].
  rewrite eqb_underscore.
  change (code "a") with 97. change (code "z") with 122.
  change (code "A") with 65. change (code "Z") with 90.
  change (code "0") with 48. change (code "9") with 57.
  destruct (between 97 122 c), (between 65 90 c), (between 48 57 c),
    (code c =? 95); reflexivity.
Qed.

Lemma succ_sub n : S n - n = 1.
Proof. lia. Qed.

Lemma sanitize_from s :
  forall fuel p,
    String.length s < fuel ->
    replace_from fuel false rx_not_ident_char (fun _ _ => EmptyString) p s
    = keep_word s.
Proof.
  induction s as [|c s IH]; intros fuel p Hf;
    (destruct fuel as [|fuel]; [inversion Hf|]).
  - reflexivity.
  - simpl in Hf. assert (Hf' : String.length s < fuel) by lia.
    cbn [replace_from].
    unfold match_here, rx_not_ident_char. cbn [m step_char rest caps].
    unfold class_has. rewrite ident_class_is_word.
    cbn [keep_word].
    destruct (is_word c); cbn [xorb negb].
    + exact (f_equal (String c) (IH fuel (Some c) Hf')).
    + cbn [rest prev]. cbn [String.length]. rewrite succ_sub.
      cbn [Nat.eqb append]. exact (IH fuel (Some c) Hf').
Qed.

Lemma sanitizeId_keep_word s : sanitizeId s = keep_word s.
Proof. unfold sanitizeId, replace_all. apply sanitize_from. lia. Qed.

Lemma keep_word_all_word s : all_word (keep_word s) = true.
Proof.
  induction s as [|c s IH]; [reflexivity|]. simpl.
  destruct (is_word c) eqn:E; [simpl; rewrite E|]; exact IH.
Qed.

Lemma foo_line_selected : candidateErrors (logLines foo_line) = [foo_line].
Proof. vm_compute. reflexivity. Qed.

Lemma foo_line_no_semicolon_msg :
  test true rx_semicolon_msg foo_line || test false rx_quoted_semicolon foo_line
  = false.
Proof. vm_compute. reflexivity. Qed.

Lemma foo_line_undeclared :
  exec true rx_undeclared foo_line
  = Some (MState (Some "r"%char) EmptyString [(1, "foo")]).
Proof. vm_compute. reflexivity. Qed.

Lemma foo_line_id :
  sanitizeId (firstCaptured (MState (Some "r"%char) EmptyString [(1, "foo")]))
  = "foo".
Proof. vm_compute. reflexivity. Qed.

Lemma foo_line_other_msgs :
  test true rx_implicit_conversion foo_line = false
  /\ test true rx_texture_msg foo_line = false
  /\ test true rx_no_main_msg foo_line = false
  /\ test true rx_unmatched_msg foo_line = false.
Proof. repeat split; vm_compute; reflexivity. Qed.

(** What the [forEach] does for the diagnostic [ERROR: 'foo' : undeclared
    identifier]: one declaration is put in front, nothing else changes. *)
Lemma fixLine_foo src w :
  fixLine foo_line (JStr src) w
  = (Ret (JStr ("uniform float foo;" ++ Str.nl ++ src)),
     Page (("OK", "Declared foo as uniform float (heuristic)") :: mainLog w)
          (GODFIX_FIXED w)).
Proof.
  destruct foo_line_other_msgs as (F3 & F4 & F5 & F6).
  unfold fixLine, fixMissingSemicolon, fixUndeclared, fixImplicitConversion,
    fixTextureCall, fixMissingMain, fixUnmatched.
  rewrite foo_line_no_semicolon_msg, foo_line_undeclared, foo_line_id,
    F3, F4, F5, F6.
  reflexivity.
Qed.

(** C7.  With the single diagnostic line [ERROR: 'foo' : undeclared
    identifier] the log pass puts [uniform float foo;] and a line break in
    front of the source, and what [parseErrorsAndFix] returns is
    [smartFixShader] of that patched text.  In general the undeclared
    remediation takes the first non-empty capture of the three phrasings,
    keeps only its code units in [[a-zA-Z0-9_]], and leaves the text alone
    when nothing is kept; otherwise it puts [uniform float <id>;] in front. *)
Theorem undeclared_identifier_declares_uniform :
  (forall src w,
     foldM fixLine (candidateErrors (logLines foo_line)) (JStr src) w
     = (Ret (JStr ("uniform float foo;" ++ Str.nl ++ src)),
        Page (("OK", "Declared foo as uniform float (heuristic)") :: mainLog w)
             (GODFIX_FIXED w)))
  /\ (forall src w w',
        value_of (parseErrorsAndFix (JStr src) (JStr foo_line) w)
        = value_of (smartFixShader
                      (JStr ("uniform float foo;" ++ Str.nl ++ src)) w'))
  /\ (forall err patched w,
        match exec true rx_undeclared err with
        | None => fixUndeclared err patched w = (Ret patched, w)
        | Some st =>
            let id := sanitizeId (firstCaptured st) in
            id = keep_word (firstCaptured st)
            /\ all_word id = true
            /\ fixUndeclared err patched w
               = if Str.is_empty id then (Ret patched, w)
                 else (Ret (JStr ("uniform float " ++ id ++ ";" ++ Str.nl
                                   ++ to_string patched)),
                       Page (("OK", "Declared " ++ id
                                    ++ " as uniform float (heuristic)")
                               :: mainLog w) (GODFIX_FIXED w))
        end)
  /\ (forall st,
        firstCaptured st
        = if negb (Str.is_empty (cap 1 st)) then cap 1 st
          else if negb (Str.is_empty (cap 2 st)) then cap 2 st
          else cap 3 st).
Proof.
  assert (P1 : forall src w,
     foldM fixLine (candidateErrors (logLines foo_line)) (JStr src) w
     = (Ret (JStr ("uniform float foo;" ++ Str.nl ++ src)),
        Page (("OK", "Declared foo as uniform float (heuristic)") :: mainLog w)
             (GODFIX_FIXED w))).
  { intros src w. rewrite foo_line_selected.
    change (foldM fixLine [foo_line] (JStr src))
      with (bind (fixLine foo_line (JStr src)) (foldM fixLine [])).
    unfold bind. rewrite fixLine_foo. reflexivity. }
  split; [exact P1|]. split; [|split].
  - intros src w w'. unfold parseErrorsAndFix, try_catch.
    rewrite parseErrorsAndFix_try_eq, P1.
    destruct (smartFixShader_string ("uniform float foo;" ++ Str.nl ++ src)
                (Page (("OK", "Declared foo as uniform float (heuristic)")
                         :: mainLog
                              (Page (("OK", "parseErrorsAndFix: analyzing logs")
                                       :: mainLog w) (GODFIX_FIXED w)))
                      (GODFIX_FIXED
                         (Page (("OK", "parseErrorsAndFix: analyzing logs")
                                  :: mainLog w) (GODFIX_FIXED w)))))
      as (o & w2 & E2).
    rewrite E2. unfold value_of at 1. cbn [fst].
    match type of E2 with
    | smartFixShader _ ?W = _ =>
        rewrite (det_value w' W (smartFixShader_det _))
    end.
    rewrite E2. reflexivity.
  - intros err patched w. unfold fixUndeclared.
    destruct (exec true rx_undeclared err) as [st|]; [|reflexivity].
    cbv zeta. split; [apply sanitizeId_keep_word|].
    split; [rewrite sanitizeId_keep_word; apply keep_word_all_word|].
    destruct (Str.is_empty (sanitizeId (firstCaptured st))); reflexivity.
  - intros st. reflexivity.
Qed.

(** *** Exceptions *)

Lemma returns_string_fixLine err s : returns_string (fixLine err (JStr s)).
Proof.
  unfold fixLine.
  apply returns_string_bind'.
  { unfold fixMissingSemicolon. apply returns_string_if.
    - apply returns_string_bind; [apply total_string_method | intros s1].
      apply returns_string_bind; [apply total_logMain | intros _].
      apply returns_string_ret.
    - apply returns_string_ret. }
  intros s1. apply returns_string_bind'.
  { unfold fixUndeclared. destruct (exec true rx_undeclared err).
    - apply returns_string_if.
      + apply returns_string_bind; [apply total_logMain | intros _].
        apply returns_string_ret.
      + apply returns_string_ret.
    - apply returns_string_ret. }
  intros s2. apply returns_string_bind'.
  { unfold fixImplicitConversion. apply returns_string_if.
    - apply returns_string_bind; [apply total_string_method | intros s3].
      apply returns_string_bind; [apply total_logMain | intros _].
      apply returns_string_ret.
    - apply returns_string_ret. }
  intros s3. apply returns_string_bind'.
  { unfold fixTextureCall. apply returns_string_if.
    - apply returns_string_bind; [apply total_string_method | intros s4].
      apply returns_string_if.
      + apply returns_string_bind; [apply total_logMain | intros _].
        apply returns_string_ret.
      + apply returns_string_ret.
    - apply returns_string_ret. }
  intros s4. apply returns_string_bind'.
  { unfold fixMissingMain. apply returns_string_if.
    - apply returns_string_if.
      + apply returns_string_bind; [apply total_logMain | intros _].
        apply returns_string_ret.
      + apply returns_string_ret.
    - apply returns_string_ret. }
  intros s5.
  unfold fixUnmatched. apply returns_string_if.
  - apply returns_string_bind; [apply total_string_method | intros s6].
    apply returns_string_bind.
    + apply total_if; [|apply total_ret].
      apply total_bind; [apply total_logMain | intros _; apply total_ret].
    + intros s7. apply returns_string_if.
      * apply returns_string_bind; [apply total_logMain | intros _].
        apply returns_string_ret.
      * apply returns_string_ret.
  - apply returns_string_ret.
Qed.

Lemma returns_string_foldM l :
  forall s, returns_string (foldM fixLine l (JStr s)).
Proof.
  induction l as [|x t IH]; intros s.
  - apply returns_string_ret.
  - simpl. apply returns_string_bind'; [apply returns_string_fixLine | exact IH].
Qed.




Lemma mild_weaken A (Q P : A -> Prop) (c : M page A) :
  mild Q c -> (forall a, Q a -> P a) -> mild P c.
Proof.
  intros Hc H w. specialize (Hc w).
  destruct (value_of (c w)); [apply H|]; exact Hc.
Qed.















(** Why the arguments are asked to be tame: when the [replace] of the
    argument throws [null], the handler of [smartFixShader] throws in turn
    while it reads [e.message], nothing is logged for the failure, and the
    [TypeError] leaves the function; the handler of [parseErrorsAndFix]
    catches that [TypeError] when the call is the nested one. *)
Lemma handler_fails_on_thrown_null :
  tame null_thrower = false
  /\ smartFixShader null_thrower page0
     = (Throw (TypeError "Cannot read properties of null (reading 'message')"),
        Page [("OK", "Starting smartFixShader pass")] JUndefined)
  /\ parseErrorsAndFix null_thrower (JStr EmptyString) page0
     = (Ret null_thrower,
        Page [("ERR", "parseErrorsAndFix error: Cannot read properties of null (reading 'message')");
              ("OK", "Starting smartFixShader pass");
              ("OK", "parseErrorsAndFix: analyzing logs")] JUndefined).
Proof. repeat split. Qed.

End RemediateFacts.

(** ** The preview engine *)

Module PreviewFacts.

Import Preview.
Local Open Scope string_scope.
Local Open Scope nat_scope.

Lemma not_in_remove_name q l : ~ In q (remove_name q l).
Proof.
  unfold remove_name. intros H. apply filter_In in H. destruct H as [_ H].
  rewrite Nat.eqb_refl in H. discriminate H.
Qed.

Lemma remove_name_incl p l x : In x (remove_name p l) -> In x l.
Proof. unfold remove_name. intros H. apply filter_In in H. tauto. Qed.

Section Failure.

Variable drv : driver.
Variable src : string.
Variable e : engine.
Hypothesis gl_available : gl e = true.

Lemma vertex_failure info :
  shader_info_log drv VERTEX_SHADER vs = Some info ->
  compileAndRun drv src e
  = (Ret tt,
     with_statusLabel
       (match statusLabel e with
        | Some _ => Some "Status: Compile Error"
        | None => None
        end)
       (with_compileLog (("ERR", "Compile/Link failed: " ++ info) :: compileLog e)
          (with_shaders (remove_name (next_name e) (next_name e :: shaders e))
             (with_next_name (S (next_name e)) e)))).
Proof.
  intros Hv. unfold compileAndRun, bind, get, try_catch, compileShader, bind.
  rewrite gl_available. cbn [negb].
  unfold createShader, bind, fresh, modify, ret.
  rewrite Hv. reflexivity.
Qed.

Lemma fragment_failure info :
  shader_info_log drv VERTEX_SHADER vs = None ->
  shader_info_log drv FRAGMENT_SHADER src = Some info ->
  compileAndRun drv src e
  = (Ret tt,
     with_statusLabel
       (match statusLabel e with
        | Some _ => Some "Status: Compile Error"
        | None => None
        end)
       (with_compileLog (("ERR", "Compile/Link failed: " ++ info) :: compileLog e)
          (with_shaders
             (remove_name (S (next_name e))
                (S (next_name e) :: next_name e :: shaders e))
             (with_next_name (S (S (next_name e))) e)))).
Proof.
  intros Hv Hf. unfold compileAndRun, bind, get, try_catch, compileShader, bind.
  rewrite gl_available. cbn [negb].
  unfold createShader, bind, fresh, modify, ret.
  rewrite Hv. cbn. rewrite Hf. reflexivity.
Qed.

Lemma link_failure info :
  shader_info_log drv VERTEX_SHADER vs = None ->
  shader_info_log drv FRAGMENT_SHADER src = None ->
  program_info_log drv vs src = Some info ->
  compileAndRun drv src e
  = (Ret tt,
     with_statusLabel
       (match statusLabel e with
        | Some _ => Some "Status: Compile Error"
        | None => None
        end)
       (with_compileLog
          (("ERR", "Compile/Link failed: Link error: " ++ info) :: compileLog e)
          (with_programs
             (remove_name (S (S (next_name e)))
                (S (S (next_name e))
                 :: match program e with
                    | Some q => remove_name q (programs e)
                    | None => programs e
                    end))
             (with_program None
                (with_shaders (S (next_name e) :: next_name e :: shaders e)
                   (with_next_name (S (S (S (next_name e)))) e)))))).
Proof.
  intros Hv Hf Hl.
  unfold compileAndRun, bind, get, try_catch, compileShader, bind.
  rewrite gl_available. cbn [negb].
  unfold createShader, bind, fresh, modify, ret.
  rewrite Hv. cbn. rewrite Hf. cbn.
  destruct e as [g pr ar st cl sl ps sh sc nn ck]. cbn in *.
  destruct pr as [q|]; cbn; unfold createProgram, deleteProgram, bind, fresh,
    modify, ret; cbn; rewrite Hl; cbn; reflexivity.
Qed.

End Failure.

(** C2, as amended.  When a shader fails to compile in [compileAndRun], the
    driver's info log is written to the compile log behind the prefix
    [Compile/Link failed: ], the status becomes [Status: Compile Error], and
    the running program, the live programs and the render loop are as
    before.  When the program fails to link, the log and the status are set
    likewise (the message carries [Link error: ]), but the previous program
    has already been deleted: [webgl.program] is null and the old program is
    no longer alive, while the old frame request stays scheduled. *)
Theorem failed_compile_keeps_program_failed_link_deletes_it :
  forall drv src e,
    gl e = true ->
    let e' := state_of (compileAndRun drv src e) in
    (forall info,
       shader_info_log drv VERTEX_SHADER vs = Some info ->
       preview_untouched e e' /\ failure_reported info e e')
    /\ (forall info,
          shader_info_log drv VERTEX_SHADER vs = None ->
          shader_info_log drv FRAGMENT_SHADER src = Some info ->
          preview_untouched e e' /\ failure_reported info e e')
    /\ (forall info,
          shader_info_log drv VERTEX_SHADER vs = None ->
          shader_info_log drv FRAGMENT_SHADER src = None ->
          program_info_log drv vs src = Some info ->
          program e' = None
          /\ (forall q, program e = Some q -> ~ In q (programs e'))
          /\ animReq e' = animReq e /\ scheduled e' = scheduled e
          /\ failure_reported ("Link error: " ++ info) e e').
Proof.
  intros drv src e Hgl e'. subst e'. repeat split.
  all: try (rewrite (@vertex_failure drv src e Hgl info H); reflexivity).
  all: try (rewrite (@fragment_failure drv src e Hgl info H H0); reflexivity).
  all: try (rewrite (@link_failure drv src e Hgl info H H0 H1); reflexivity).
  rewrite (@link_failure drv src e Hgl info H H0 H1).
  unfold state_of, with_statusLabel, with_compileLog, with_programs.
  cbn [snd programs].
  intros q Hq Hin. rewrite Hq in Hin.
  destruct (Nat.eq_dec q (S (S (next_name e)))) as [->|Hne].
  - revert Hin. apply not_in_remove_name.
  - apply remove_name_incl in Hin. destruct Hin as [Hin|Hin].
    + congruence.
    + revert Hin. apply not_in_remove_name.
Qed.

Lemma failed_compile_keeps_program_failed_link_deletes_it_witness :
  gl running_engine = true
  /\ shader_info_log link_failing_driver VERTEX_SHADER vs = None
  /\ shader_info_log link_failing_driver FRAGMENT_SHADER Notions.sample_source = None
  /\ program_info_log link_failing_driver vs Notions.sample_source
     = Some "varyings do not match"
  /\ program (state_of (compileAndRun link_failing_driver Notions.sample_source
                          running_engine)) = None.
Proof.
  split; [reflexivity|]. split; [reflexivity|]. split; [reflexivity|].
  split; [reflexivity|].
  exact (proj1 (proj2 (proj2
           (failed_compile_keeps_program_failed_link_deletes_it
              link_failing_driver Notions.sample_source running_engine eq_refl))
           "varyings do not match" eq_refl eq_refl eq_refl)).
Defined.

(** C2 as stated fails: with a preview running (program 7) and a driver that
    compiles the shaders but does not link them, the failed call leaves
    [webgl.program] null and program 7 deleted. *)
Lemma failed_link_deletes_running_program :
  ~ (forall drv src e,
       gl e = true ->
       compile_failed drv src \/ link_failed drv src ->
       program (state_of (compileAndRun drv src e)) = program e
       /\ programs (state_of (compileAndRun drv src e)) = programs e).
Proof.
  intros H.
  assert (L : link_failed link_failing_driver Notions.sample_source).
  { repeat split. eexists. reflexivity. }
  destruct (H link_failing_driver Notions.sample_source running_engine
              eq_refl (or_intror L)) as [Hp _].
  vm_compute in Hp. discriminate Hp.
Qed.

End PreviewFacts.

(** ** The zoom stays clamped *)

Module InteractionFacts.

Import Interaction.
Local Open Scope Z_scope.

(** *** Rounding never produces NaN *)

Lemma shr_1_nonneg mrs : 0 <= shr_m mrs -> 0 <= shr_m (shr_1 mrs).
Proof.
  destruct mrs as [m r s]. destruct m as [|p|p]; simpl; intros H;
    try (destruct p; simpl; lia); lia.
Qed.

Lemma iter_pos_invariant (A : Type) (f : A -> A) (P : A -> Prop) :
  (forall x, P x -> P (f x)) ->
  forall n x, P x -> P (iter_pos f n x).
Proof.
  intros Hf. induction n as [n IH|n IH|]; intros x Hx; simpl; auto.
Qed.

Lemma shr_nonneg mrs e n : 0 <= shr_m mrs -> 0 <= shr_m (fst (shr mrs e n)).
Proof.
  intros H. destruct n as [|p|p]; simpl; try exact H.
  apply (iter_pos_invariant shr_1 (fun x => 0 <= shr_m x) shr_1_nonneg). exact H.
Qed.

Lemma shr_fexp_nonneg m e l :
  0 <= m -> 0 <= shr_m (fst (shr_fexp prec emax m e l)).
Proof.
  intros H. unfold shr_fexp. apply shr_nonneg.
  destruct l as [|[| |]]; simpl; exact H.
Qed.

Lemma round_nearest_even_nonneg mx lx :
  0 <= mx -> 0 <= round_nearest_even mx lx.
Proof.
  intros H. destruct lx as [|[| |]]; simpl; try lia.
  destruct (Z.even mx); lia.
Qed.

Lemma binary_round_aux_not_nan sx mx ex lx :
  0 <= mx -> is_nan (binary_round_aux prec emax sx mx ex lx) = false.
Proof.
  intros H. unfold binary_round_aux.
  pose proof (shr_fexp_nonneg ex lx H) as H1.
  destruct (shr_fexp prec emax mx ex lx) as [mrs1 e1]. simpl in H1.
  pose proof (shr_fexp_nonneg e1 loc_Exact
                (round_nearest_even_nonneg (loc_of_shr_record mrs1) H1)) as H2.
  destruct (shr_fexp prec emax
              (round_nearest_even (shr_m mrs1) (loc_of_shr_record mrs1))
              e1 loc_Exact) as [mrs2 e2].
  simpl in H2. destruct (shr_m mrs2) as [|p|p].
  - reflexivity.
  - destruct (e2 <=? emax - prec); reflexivity.
  - lia.
Qed.

Lemma binary_round_not_nan sx mx ex :
  is_nan (binary_round prec emax sx mx ex) = false.
Proof.
  unfold binary_round.
  destruct (shl_align mx ex (fexp prec emax (Z.pos (digits2_pos mx) + ex)))
    as [mz ez].
  apply binary_round_aux_not_nan. lia.
Qed.

Lemma binary_normalize_not_nan m e sz :
  is_nan (binary_normalize prec emax m e sz) = false.
Proof.
  destruct m; simpl; [reflexivity | apply binary_round_not_nan ..].
Qed.

Lemma fmul_not_nan x y :
  is_finite x = true -> is_nan y = false ->
  (match x with S754_zero _ => is_finite y | _ => true end) = true ->
  is_nan (fmul x y) = false.
Proof.
  unfold fmul. destruct x as [sx|sx| |sx mx ex], y as [sy|sy| |sy my ey];
    simpl; try discriminate; try reflexivity.
  intros _ _ _. apply binary_round_aux_not_nan. lia.
Qed.

Lemma fsub_finite_not_nan x y :
  is_finite x = true -> is_nan y = false -> is_nan (fsub x y) = false.
Proof.
  unfold fsub. destruct x as [sx|sx| |sx mx ex], y as [sy|sy| |sy my ey];
    simpl; try discriminate; try reflexivity.
  - destruct sx, sy; reflexivity.
  - intros _ _. apply binary_normalize_not_nan.
Qed.

Lemma div_eucl_quotient_nonneg a b :
  0 <= a -> 0 < b -> 0 <= fst (Z.div_eucl a b).
Proof.
  intros Ha Hb. change (fst (Z.div_eucl a b)) with (a / b).
  apply Z.div_pos; assumption.
Qed.

Lemma fdiv_finite_not_nan x y :
  is_finite x = true -> is_finite y = true -> truthy y = true ->
  is_nan (fdiv x y) = false.
Proof.
  unfold fdiv. destruct x as [sx|sx| |sx mx ex], y as [sy|sy| |sy my ey];
    simpl; try discriminate; try reflexivity.
  intros _ _ _. unfold SFdiv_core_binary.
  set (e' := Z.min _ _). set (sh := ex - ey - e').
  set (m' := match sh with
             | 0 => Z.pos mx
             | Z.pos _ => Z.shiftl (Z.pos mx) sh
             | Z.neg _ => 0
             end).
  assert (Hm : 0 <= m').
  { subst m'. destruct sh; try lia. apply Z.shiftl_nonneg. lia. }
  pose proof (div_eucl_quotient_nonneg (b := Z.pos my) Hm eq_refl) as Hq.
  destruct (Z.div_eucl m' (Z.pos my)) as [q r]. simpl in Hq.
  apply binary_round_aux_not_nan. exact Hq.
Qed.

(** *** Comparison *)

Lemma SFcompare_antisym x y :
  SFcompare y x
  = match SFcompare x y with Some c => Some (CompOpp c) | None => None end.
Proof.
  destruct x as [sx|sx| |sx mx ex], y as [sy|sy| |sy my ey]; simpl;
    try reflexivity;
    try (destruct sx; reflexivity); try (destruct sy; reflexivity);
    try (destruct sx, sy; reflexivity).
  destruct sx, sy; simpl; try reflexivity.
  - rewrite (Z.compare_antisym ex ey).
    pose proof (Pos.compare_cont_antisym mx my Eq) as A. simpl in A.
    destruct (ex ?= ey); simpl; try reflexivity.
    rewrite <- A. reflexivity.
  - rewrite (Z.compare_antisym ex ey).
    pose proof (Pos.compare_cont_antisym mx my Eq) as A. simpl in A.
    destruct (ex ?= ey); simpl; try reflexivity.
    rewrite <- A. reflexivity.
Qed.

Lemma SFcompare_finite_none sx mx ex y :
  SFcompare (S754_finite sx mx ex) y = None -> y = S754_nan.
Proof.
  destruct y as [sy|sy| |sy my ey]; simpl; try discriminate; auto.
Qed.

Lemma k_6_value : k_6 = S754_finite false 6755399441055744 (-50).
Proof. vm_compute. reflexivity. Qed.

Lemma k_0_18_value : k_0_18 = S754_finite false 6485183463413514 (-55).
Proof. vm_compute. reflexivity. Qed.

Lemma k_0_0018_value : k_0_0018 = S754_finite false 8301034833169298 (-62).
Proof. vm_compute. reflexivity. Qed.

Lemma k_1_value : k_1 = S754_finite false 4503599627370496 (-52).
Proof. vm_compute. reflexivity. Qed.

(** A zoom in range is a positive finite number. *)
Lemma zoom_in_range_finite z :
  zoom_in_range z = true -> exists m e, z = S754_finite false m e.
Proof.
  unfold zoom_in_range. rewrite k_0_18_value, k_6_value.
  destruct z as [s|s| |s m e]; try (destruct s); simpl;
    try discriminate; eauto.
Qed.

(** [Math.max(0.18, Math.min(6.0, x))] is in range whenever [x] is a
    number. *)
Lemma clampZoom_in_range x :
  is_nan x = false -> zoom_in_range (clampZoom x) = true.
Proof.
  intros Hx. unfold clampZoom.
  assert (Hr : is_nan (Math_min k_6 x) = false
               /\ SFleb (Math_min k_6 x) k_6 = true).
  { unfold Math_min. rewrite k_6_value.
    destruct (SFcompare (S754_finite false 6755399441055744 (-50)) x)
      as [[| |]|] eqn:E.
    - split; [exact Hx|]. unfold SFleb.
      rewrite (SFcompare_antisym (S754_finite false 6755399441055744 (-50)) x), E.
      reflexivity.
    - split; reflexivity.
    - split; [exact Hx|]. unfold SFleb.
      rewrite (SFcompare_antisym (S754_finite false 6755399441055744 (-50)) x), E.
      reflexivity.
    - apply SFcompare_finite_none in E. subst x. discriminate Hx. }
  destruct Hr as [Hn Hle]. set (r := Math_min k_6 x) in *.
  unfold zoom_in_range, Math_max, SFleb.
  rewrite k_0_18_value.
  destruct (SFcompare (S754_finite false 6485183463413514 (-55)) r)
    as [[| |]|] eqn:E.
  - unfold SFleb in *. rewrite E. simpl. exact Hle.
  - unfold SFleb in *. rewrite E. simpl. exact Hle.
  - rewrite k_6_value. vm_compute. reflexivity.
  - apply SFcompare_finite_none in E. rewrite E in Hn. discriminate Hn.
Qed.

(** *** The handlers keep the invariant *)

Section Handlers.

Variable hypot : float -> float -> float.

Lemma wheel_factor_not_nan deltaY :
  is_nan deltaY = false -> is_nan (fsub k_1 (fmul deltaY k_0_0018)) = false.
Proof.
  intros H. apply fsub_finite_not_nan.
  - rewrite k_1_value. reflexivity.
  - rewrite k_0_0018_value. unfold fmul.
    destruct deltaY as [s|s| |s m e]; simpl; try reflexivity;
      try discriminate H.
    apply binary_round_aux_not_nan. lia.
Qed.

Lemma zoom_times_not_nan z f :
  zoom_in_range z = true -> is_nan f = false -> is_nan (fmul z f) = false.
Proof.
  intros Hz Hf. destruct (zoom_in_range_finite _ Hz) as (m & e & ->).
  apply fmul_not_nan; [reflexivity | exact Hf | reflexivity].
Qed.

Lemma handle_keeps_invariant ev s :
  finite_event hypot ev = true ->
  zoom_invariant s -> zoom_invariant (handle hypot ev s).
Proof.
  intros Hev [Hz Hp]. unfold zoom_invariant.
  destruct ev as [x y|x w h| | |deltaY| |ts|ts w h|]; unfold handle.
  - split; assumption.
  - destruct (dragging s); cbn [negb zoom pinchDist]; split; assumption.
  - split; assumption.
  - split; assumption.
  - cbn [zoom pinchDist]. split; [|assumption]. apply clampZoom_in_range.
    apply zoom_times_not_nan; [assumption|].
    apply wheel_factor_not_nan. unfold finite_event in Hev.
    destruct (is_nan deltaY); [discriminate Hev | reflexivity].
  - split; assumption.
  - destruct ts as [|t0 [|t1 [|t2 ts]]]; cbn [zoom pinchDist];
      split; assumption.
  - destruct ts as [|t0 [|t1 [|t2 ts]]]; try (split; assumption).
    + destruct (dragging s); cbn [zoom pinchDist]; split; assumption.
    + destruct (truthy (pinchDist s)) eqn:Ht; [|split; assumption].
      cbn [zoom pinchDist]. unfold finite_event in Hev. split; [|exact Hev].
      apply clampZoom_in_range. apply zoom_times_not_nan; [assumption|].
      apply fdiv_finite_not_nan; assumption.
  - cbn [zoom pinchDist]. split; [assumption | reflexivity].
Qed.

Lemma handle_all_keeps_invariant evs :
  forall s,
    forallb (finite_event hypot) evs = true ->
    zoom_invariant s -> zoom_invariant (handle_all hypot evs s).
Proof.
  induction evs as [|ev evs IH]; intros s Hev Hs; simpl; [exact Hs|].
  simpl in Hev. apply andb_prop in Hev. destruct Hev as [H1 H2].
  apply IH; [exact H2|]. apply handle_keeps_invariant; assumption.
Qed.

End Handlers.

Lemma initial_invariant : zoom_invariant initial.
Proof. split; vm_compute; reflexivity. Qed.

(** C9, as amended.  Starting from the initial interaction state (zoom 1),
    after any finite sequence of canvas events (wheel, pinch and all the
    others) in which every wheel [deltaY] is a number (not NaN) and every
    two-finger distance that [Math.hypot] returns is finite, the zoom is
    within [[0.18, 6.0]]; this holds for every [Math.hypot]. *)
Theorem zoom_stays_in_range :
  forall hypot evs,
    forallb (finite_event hypot) evs = true ->
    zoom_in_range (zoom (handle_all hypot evs initial)) = true.
Proof.
  intros hypot evs Hev.
  apply (handle_all_keeps_invariant hypot evs Hev initial_invariant).
Qed.

Lemma zoom_stays_in_range_witness :
  forallb (finite_event hypot_sqrt) sample_session = true
  /\ zoom_in_range (zoom (handle_all hypot_sqrt sample_session initial)) = true.
Proof.
  split; [vm_compute; reflexivity|].
  apply (zoom_stays_in_range hypot_sqrt sample_session).
  vm_compute. reflexivity.
Defined.

(** C9 as stated fails: two touches at the finite coordinates
    [±1.7976931348623157e308] are infinitely far apart in binary64, the
    pinch ratio is [Infinity / Infinity], and the zoom becomes NaN, which
    [Math.max] and [Math.min] pass on. *)
Lemma extreme_pinch_breaks_zoom_range :
  ~ (forall hypot evs,
       zoom_in_range (zoom (handle_all hypot evs initial)) = true).
Proof.
  intros H. specialize (H hypot_sqrt extreme_pinch).
  vm_compute in H. discriminate H.
Qed.

End InteractionFacts.

(** ** The matcher finds only what the pattern matches *)

Module RegexFacts.

Import SearchFacts.
Local Open Scope string_scope.
Local Open Scope nat_scope.

Lemma step_char_sound p k st res :
  step_char p k st = Some res ->
  exists c s', rest st = String c s' /\ p c = true
               /\ k (MState (Some c) s' (caps st)) = Some res.
Proof.
  unfold step_char. destruct (rest st) as [|c s']; [discriminate|].
  destruct (p c) eqn:E; [|discriminate]. intros H. exists c, s'. auto.
Qed.

Lemma rep_sound body (R : mstate -> mstate -> Prop) greedy k :
  (forall k' st res, body k' st = Some res ->
                     exists st', R st st' /\ k' st' = Some res) ->
  forall fuel mn mx st res,
    rep body greedy k fuel mn mx st = Some res ->
    exists st', Iter R mn mx st st' /\ k st' = Some res.
Proof.
  intros Hbody. induction fuel as [|fuel IH]; intros mn mx st res H;
    [discriminate H|].
  cbn [rep] in H. destruct (max_is_zero mx) eqn:Emax.
  { exists st. split; [apply Iter_stop; right; exact Emax | exact H]. }
  assert (Hiter : forall res',
    body (fun st' =>
            if (mn =? 0) && (String.length (rest st') =? String.length (rest st))
            then None
            else rep body greedy k fuel (pred mn) (max_pred mx) st') st
    = Some res' ->
    exists st', Iter R mn mx st st' /\ k st' = Some res').
  { intros res' H'. apply Hbody in H'. destruct H' as (st1 & HR & Hk).
    destruct ((mn =? 0) && (String.length (rest st1) =? String.length (rest st)))
      eqn:Ec; [discriminate Hk|].
    apply IH in Hk. destruct Hk as (st2 & Hit & Hk2).
    exists st2. split; [|exact Hk2].
    apply Iter_more with st1; auto.
    intros Hmn. subst mn. simpl in Ec. apply Nat.eqb_neq in Ec. exact Ec. }
  assert (Hstop : forall res', mn = 0 -> k st = Some res' ->
    exists st', Iter R mn mx st st' /\ k st' = Some res').
  { intros res' Hmn Hk. exists st. split; [apply Iter_stop; left|]; assumption. }
  destruct (0 <? mn) eqn:Emn.
  - apply Hiter. exact H.
  - apply Nat.ltb_ge in Emn. assert (Hmn : mn = 0) by lia.
    destruct greedy.
    + destruct (body _ st) as [r1|] eqn:E1.
      * injection H as <-. apply Hiter. reflexivity.
      * apply Hstop; assumption.
    + destruct (k st) as [r1|] eqn:E1.
      * injection H as <-. apply Hstop; [assumption | reflexivity].
      * apply Hiter. exact H.
Qed.

(** Soundness of the matcher: a successful run goes through a state the
    pattern relates to the start, and the continuation succeeds from it. *)
Lemma m_sound ic r :
  forall k st res,
    m ic r k st = Some res ->
    exists st', Matches ic r st st' /\ k st' = Some res.
Proof.
  induction r as [ |a| |neg items| | | |r1 IH1 r2 IH2|r1 IH1 r2 IH2
                  |mn mx greedy r1 IH1|n r1 IH1];
    intros k st res H; cbn [m] in H; cbn [Matches].
  - exists st. auto.
  - apply step_char_sound in H. destruct H as (c & s' & E & Hp & Hk).
    eexists. split; [exists c, s'; eauto | exact Hk].
  - apply step_char_sound in H. destruct H as (c & s' & E & Hp & Hk).
    eexists. split; [exists c, s'; split; [exact E|split; [|reflexivity]]
                    | exact Hk].
    destruct (is_line_terminator c); [discriminate Hp | reflexivity].
  - apply step_char_sound in H. destruct H as (c & s' & E & Hp & Hk).
    eexists. split; [exists c, s'; eauto | exact Hk].
  - destruct (is_boundary st) eqn:E; [|discriminate H]. exists st. auto.
  - destruct (prev st) eqn:E; [discriminate H|]. exists st. auto.
  - destruct (rest st) eqn:E; [|discriminate H]. exists st. auto.
  - apply IH1 in H. destruct H as (st1 & H1 & H).
    apply IH2 in H. destruct H as (st2 & H2 & H).
    exists st2. split; [exists st1; auto | exact H].
  - destruct (m ic r1 k st) as [r|] eqn:E.
    + injection H as <-. apply IH1 in E. destruct E as (st' & H1 & Hk).
      exists st'. auto.
    + apply IH2 in H. destruct H as (st' & H2 & Hk). exists st'. auto.
  - apply (rep_sound (m ic r1) (Matches ic r1) greedy k IH1) in H. exact H.
  - apply IH1 in H. destruct H as (st1 & H1 & Hk).
    exists (add_capture n st st1). split; [exists st1; auto | exact Hk].
Qed.

Lemma match_here_sound ic r p s st :
  match_here ic r p s = Some st -> Matches ic r (MState p s []) st.
Proof.
  unfold match_here. intros H. apply m_sound in H.
  destruct H as (st' & HM & E). injection E as <-. exact HM.
Qed.

(** *** What a match consumes *)

Lemma all_chars_app ok a b :
  all_chars ok (a ++ b) = all_chars ok a && all_chars ok b.
Proof.
  induction a as [|c a IH]; [reflexivity|]. simpl. rewrite IH.
  apply andb_assoc.
Qed.

Lemma Iter_consumes ok (R : mstate -> mstate -> Prop) :
  (forall st st', R st st' ->
     exists w, rest st = w ++ rest st' /\ all_chars ok w = true) ->
  forall mn mx st st',
    Iter R mn mx st st' ->
    exists w, rest st = w ++ rest st' /\ all_chars ok w = true.
Proof.
  intros HR mn mx st st' H. induction H as [mn mx st _|mn mx st st1 st2 _ H1 _ _ IH].
  - exists EmptyString. auto.
  - apply HR in H1. destruct H1 as (w1 & E1 & A1).
    destruct IH as (w2 & E2 & A2).
    exists (w1 ++ w2). rewrite E1, E2, append_assoc, all_chars_app, A1, A2. auto.
Qed.

(** A match consumes a prefix of the remaining input, made of code units
    the pattern allows. *)
Lemma Matches_consumes ok ic r :
  consumes_only ok ic r ->
  forall st st',
    Matches ic r st st' ->
    exists w, rest st = w ++ rest st' /\ all_chars ok w = true.
Proof.
  induction r as [ |a| |neg items| | | |r1 IH1 r2 IH2|r1 IH1 r2 IH2
                  |mn mx greedy r1 IH1|n r1 IH1];
    intros Hok st st' H; cbn [Matches consumes_only] in *.
  - subst. exists EmptyString. auto.
  - destruct H as (c & s' & E & Hp & ->). exists (String c EmptyString).
    simpl. rewrite (Hok c Hp). auto.
  - destruct H as (c & s' & E & Hp & ->). exists (String c EmptyString).
    simpl. rewrite (Hok c Hp). auto.
  - destruct H as (c & s' & E & Hp & ->). exists (String c EmptyString).
    simpl. rewrite (Hok c Hp). auto.
  - destruct H as [_ ->]. exists EmptyString. auto.
  - destruct H as [_ ->]. exists EmptyString. auto.
  - destruct H as [_ ->]. exists EmptyString. auto.
  - destruct Hok as [Hok1 Hok2]. destruct H as (st1 & H1 & H2).
    destruct (IH1 Hok1 _ _ H1) as (w1 & E1 & A1).
    destruct (IH2 Hok2 _ _ H2) as (w2 & E2 & A2).
    exists (w1 ++ w2). rewrite E1, E2, append_assoc, all_chars_app, A1, A2. auto.
  - destruct Hok as [Hok1 Hok2]. destruct H as [H|H]; eauto.
  - eapply Iter_consumes; [|exact H]. intros s1 s2 HR. eauto.
  - destruct H as (st1 & H1 & ->). cbn [add_capture rest]. eauto.
Qed.

Lemma consumes_only_any ic r : consumes_only (fun _ => true) ic r.
Proof. induction r; simpl; auto. Qed.

(** The rest after a match is a suffix of the rest before it. *)
Lemma Matches_suffix ic r st st' :
  Matches ic r st st' -> exists w, rest st = w ++ rest st'.
Proof.
  intros H.
  destruct (Matches_consumes (fun _ => true) ic r (consumes_only_any ic r) _ _ H)
    as (w & E & _).
  exists w. exact E.
Qed.

Lemma match_here_suffix ic r p s st :
  match_here ic r p s = Some st -> exists w, s = w ++ rest st.
Proof.
  intros H. apply match_here_sound in H. apply Matches_suffix in H. exact H.
Qed.

(** *** Captures *)

Lemma Iter_caps (R : mstate -> mstate -> Prop) :
  (forall st st', R st st' -> caps st' = caps st) ->
  forall mn mx st st', Iter R mn mx st st' -> caps st' = caps st.
Proof.
  intros HR mn mx st st' H. induction H as [|mn mx st st1 st2 _ H1 _ _ IH];
    [reflexivity|].
  rewrite IH. apply HR. exact H1.
Qed.

(** A pattern without groups leaves the captures alone. *)
Lemma Matches_caps ic r :
  group_free r = true ->
  forall st st', Matches ic r st st' -> caps st' = caps st.
Proof.
  induction r as [ |a| |neg items| | | |r1 IH1 r2 IH2|r1 IH1 r2 IH2
                  |mn mx greedy r1 IH1|n r1 IH1];
    intros Hg st st' H; cbn [Matches group_free] in *;
    try (subst st'; reflexivity);
    try (destruct H as (c & s' & _ & _ & ->); reflexivity);
    try (destruct H as [? ->]; reflexivity).
  - apply andb_prop in Hg. destruct Hg as [G1 G2].
    destruct H as (st1 & H1 & H2).
    rewrite (IH2 G2 _ _ H2). apply (IH1 G1 _ _ H1).
  - apply andb_prop in Hg. destruct Hg as [G1 G2].
    destruct H as [H|H]; auto.
  - eapply Iter_caps; [|exact H]. intros s1 s2 HR. auto.
  - discriminate Hg.
Qed.

Lemma length_app (a b : string) :
  String.length (a ++ b) = String.length a + String.length b.
Proof. induction a as [|c a IH]; simpl; [reflexivity | rewrite IH; reflexivity]. Qed.

Lemma take_app_exact (w r : string) :
  Str.take (String.length (w ++ r) - String.length r) (w ++ r) = w.
Proof.
  rewrite length_app, Nat.add_sub.
  induction w as [|c w IH]; simpl.
  - destruct r; reflexivity.
  - rewrite IH. reflexivity.
Qed.

(** The text a group-free pattern captures inside [Group n]: it is what the
    pattern consumed. *)
Lemma Matches_group ok ic n r st st' :
  consumes_only ok ic r -> group_free r = true ->
  Matches ic (Group n r) st st' ->
  exists w, rest st = w ++ rest st' /\ all_chars ok w = true
            /\ caps st' = (n, w) :: caps st.
Proof.
  intros Hok Hg H. cbn [Matches] in H. destruct H as (st1 & H1 & ->).
  destruct (Matches_consumes ok ic r Hok _ _ H1) as (w & E & A).
  exists w. cbn [add_capture rest caps]. split; [exact E|]. split; [exact A|].
  rewrite (Matches_caps ic r Hg _ _ H1), E, take_app_exact. reflexivity.
Qed.

End RegexFacts.

(** ** Occurrences of a text inside a text *)

Module OccursFacts.

Import SearchFacts RegexFacts.
Local Open Scope string_scope.
Local Open Scope nat_scope.

Lemma startsWith_app_l p a b :
  Str.startsWith p a = true -> Str.startsWith p (a ++ b) = true.
Proof.
  revert a. induction p as [|x p IH]; intros a H; [reflexivity|].
  destruct a as [|y a]; [discriminate H|]. simpl in *.
  apply andb_prop in H. destruct H as [H1 H2]. rewrite H1. simpl. auto.
Qed.

Lemma includes_app_l p a b :
  Str.includes p a = true -> Str.includes p (a ++ b) = true.
Proof.
  induction a as [|y a IH]; intros H.
  - simpl in H. rewrite orb_false_r in H.
    destruct p; [|discriminate H]. destruct b; reflexivity.
  - cbn [Str.includes] in H. apply orb_prop in H. cbn [append Str.includes].
    destruct H as [H|H].
    + pose proof (startsWith_app_l _ _ b H) as H'. cbn [append] in H'.
      rewrite H'. reflexivity.
    + rewrite (IH H). apply orb_true_r.
Qed.

Lemma includes_app_r p a b :
  Str.includes p b = true -> Str.includes p (a ++ b) = true.
Proof.
  intros H. induction a as [|y a IH]; [exact H|].
  cbn [append Str.includes]. rewrite IH. apply orb_true_r.
Qed.

Lemma includes_app_false p a b :
  Str.includes p (a ++ b) = false ->
  Str.includes p a = false /\ Str.includes p b = false.
Proof.
  intros H. split.
  - destruct (Str.includes p a) eqn:E; [|reflexivity].
    rewrite (includes_app_l _ _ b E) in H. discriminate H.
  - destruct (Str.includes p b) eqn:E; [|reflexivity].
    rewrite (includes_app_r _ a _ E) in H. discriminate H.
Qed.

Lemma includes_split p x :
  Str.includes p x = true ->
  exists x1 x2, x = x1 ++ x2 /\ Str.startsWith p x2 = true.
Proof.
  induction x as [|c x IH]; intros H.
  - simpl in H. rewrite orb_false_r in H. exists EmptyString, EmptyString. auto.
  - cbn [Str.includes] in H. apply orb_prop in H. destruct H as [H|H].
    + exists EmptyString, (String c x). auto.
    + destruct (IH H) as (x1 & x2 & -> & Hs). exists (String c x1), x2. auto.
Qed.

Section Separator.

(** [c] does not occur in the non-empty [p]. *)
Variable p : string.
Variable c : ascii.
Hypothesis c_absent : absent c p = true.
Hypothesis p_nonempty : p <> EmptyString.

Lemma startsWith_sep_aux q a b :
  absent c q = true ->
  Str.startsWith q (a ++ String c b) = Str.startsWith q a.
Proof.
  revert a. induction q as [|x q IH]; intros a Hq; [reflexivity|].
  unfold absent in Hq. simpl in Hq. apply andb_prop in Hq.
  destruct Hq as [Hx Hq]. destruct a as [|y a]; simpl.
  - apply negb_true_iff in Hx. rewrite Hx. reflexivity.
  - rewrite (IH a Hq). reflexivity.
Qed.

Lemma startsWith_sep a b :
  Str.startsWith p (a ++ String c b) = Str.startsWith p a.
Proof. apply startsWith_sep_aux. exact c_absent. Qed.

Lemma includes_empty : Str.includes p EmptyString = false.
Proof. destruct p; [congruence | reflexivity]. Qed.

(** An occurrence cannot contain [c]: it lies on one side of it. *)
Lemma includes_sep a b :
  Str.includes p (a ++ String c b) = Str.includes p a || Str.includes p b.
Proof.
  induction a as [|y a IH].
  - rewrite includes_empty. cbn [append Str.includes orb].
    pose proof (startsWith_sep EmptyString b) as E. cbn [append] in E.
    rewrite E. destruct p; [congruence | reflexivity].
  - cbn [append Str.includes]. rewrite IH.
    pose proof (startsWith_sep (String y a) b) as E. cbn [append] in E.
    rewrite E. apply orb_assoc.
Qed.

Lemma includes_sep_head b :
  Str.includes p (String c b) = Str.includes p b.
Proof.
  pose proof (includes_sep EmptyString b) as E. cbn [append] in E.
  rewrite E, includes_empty. reflexivity.
Qed.

End Separator.

Section LastChar.

(** The pattern [q ++ [l]], whose last code unit is [l]. *)
Variable q : string.
Variable l : ascii.

Lemma startsWith_last_aux q' a g :
  absent l g = true ->
  Str.startsWith (q' ++ String l EmptyString) (a ++ g)
  = Str.startsWith (q' ++ String l EmptyString) a.
Proof.
  intros Hg. revert a g Hg. induction q' as [|x q' IH]; intros a g Hg.
  - destruct a as [|y a]; simpl.
    + destruct g as [|z g]; [reflexivity|].
      unfold absent in Hg. simpl in Hg. apply andb_prop in Hg.
      destruct Hg as [Hz _]. apply negb_true_iff in Hz.
      simpl. rewrite Ascii.eqb_sym, Hz. reflexivity.
    + reflexivity.
  - destruct a as [|y a]; cbn [append Str.startsWith].
    + destruct g as [|z g]; [reflexivity|].
      unfold absent in Hg. simpl in Hg. apply andb_prop in Hg.
      destruct Hg as [_ Hg].
      pose proof (IH EmptyString g Hg) as E. cbn [append] in E.
      assert (F : Str.startsWith (q' ++ String l EmptyString) EmptyString = false).
      { destruct q'; reflexivity. }
      rewrite F in E. rewrite E. apply andb_false_r.
    + rewrite (IH a g Hg). reflexivity.
Qed.

(** An occurrence cannot end inside a text without [l]. *)
Lemma includes_last a g :
  absent l g = true ->
  Str.includes (q ++ String l EmptyString) (a ++ g)
  = Str.includes (q ++ String l EmptyString) a.
Proof.
  intros Hg. induction a as [|y a IH].
  - cbn [append]. induction g as [|z g IHg].
    + reflexivity.
    + unfold absent in Hg. simpl in Hg. apply andb_prop in Hg.
      destruct Hg as [Hz Hg'].
      cbn [Str.includes].
      pose proof (startsWith_last_aux q EmptyString (String z g)) as E.
      cbn [append] in E. rewrite E.
      * rewrite (IHg Hg'). destruct q; reflexivity.
      * unfold absent. simpl. rewrite Hz. exact Hg'.
  - cbn [append Str.includes]. rewrite IH.
    pose proof (startsWith_last_aux q (String y a) g Hg) as E.
    cbn [append] in E. rewrite E. reflexivity.
Qed.

Lemma includes_last_alone g :
  absent l g = true -> Str.includes (q ++ String l EmptyString) g = false.
Proof.
  intros Hg. pose proof (includes_last EmptyString g Hg) as E.
  cbn [append] in E. rewrite E. destruct q; reflexivity.
Qed.

End LastChar.

(** An occurrence starts with the first code unit of the pattern. *)
Lemma includes_first x p s :
  absent x s = true -> Str.includes (String x p) s = false.
Proof.
  induction s as [|y s IH]; intros H; [reflexivity|].
  unfold absent in H. simpl in H. apply andb_prop in H. destruct H as [Hy Hs].
  cbn [Str.includes Str.startsWith]. apply negb_true_iff in Hy.
  rewrite Ascii.eqb_sym, Hy. simpl. apply IH. exact Hs.
Qed.

(** A text made of code units foreign to the pattern is inert. *)
Lemma inert_foreign p out :
  p <> EmptyString ->
  all_chars (fun c => absent c p) out = true -> out <> EmptyString ->
  inert p out.
Proof.
  intros Hp Hall Hne a b H.
  destruct out as [|c out]; [congruence|]. clear Hne.
  simpl in Hall. apply andb_prop in Hall. destruct Hall as [Hc Hall].
  cbn [append] in H. rewrite (@includes_sep p c Hc Hp) in H.
  apply orb_prop in H. destruct H as [H|H]; [left; exact H|]. right.
  revert H Hall. clear Hc. induction out as [|d out IH]; intros H Hall.
  - exact H.
  - simpl in Hall. apply andb_prop in Hall. destruct Hall as [Hd Hall].
    cbn [append] in H. rewrite (@includes_sep_head p d Hd Hp) in H. auto.
Qed.

End OccursFacts.

(** ** Global replacement keeps a text free of a pattern *)

Module ReplaceFacts.

Import SearchFacts RegexFacts OccursFacts.
Local Open Scope string_scope.
Local Open Scope nat_scope.

Lemma inert_keeps p out a b :
  inert p out ->
  Str.includes p a = false -> Str.includes p b = false ->
  Str.includes p (a ++ out ++ b) = false.
Proof.
  intros Hin Ha Hb. destruct (Str.includes p (a ++ out ++ b)) eqn:E;
    [|reflexivity].
  destruct (Hin a b E) as [H|H]; congruence.
Qed.

(** If every replacement is inert for [p] and [p] does not occur in the
    text, it does not occur after the replacement; [a] is what stands
    before the part still to be scanned. *)
Lemma replace_from_keeps_free p ic r f :
  (forall q s st,
     match_here ic r q s = Some st ->
     inert p (f (Str.take (String.length s - String.length (rest st)) s) st)) ->
  forall fuel q s a,
    Str.includes p (a ++ s) = false ->
    Str.includes p (a ++ replace_from fuel ic r f q s) = false.
Proof.
  intros Hf. induction fuel as [|fuel IH]; intros q s a H; [exact H|].
  cbn [replace_from].
  destruct (includes_app_false _ _ _ H) as [Ha Hs].
  destruct (match_here ic r q s) as [st|] eqn:E.
  - pose proof (Hf q s st E) as Hin.
    set (out := f (Str.take (String.length s - String.length (rest st)) s) st)
      in *.
    destruct (String.length s - String.length (rest st) =? 0).
    + destruct s as [|c s'].
      * rewrite <- (append_empty_r out). apply inert_keeps; assumption.
      * replace (a ++ out ++ String c (replace_from fuel ic r f (Some c) s'))
          with ((a ++ out ++ String c EmptyString)
                  ++ replace_from fuel ic r f (Some c) s')
          by (rewrite !append_assoc; reflexivity).
        apply IH. rewrite !append_assoc. cbn [append].
        apply inert_keeps; assumption.
    + destruct (match_here_suffix _ _ _ _ E) as (w & Ew).
      rewrite <- append_assoc. apply IH. rewrite append_assoc.
      apply inert_keeps; [assumption..|].
      rewrite Ew in Hs. apply (includes_app_false _ _ _ Hs).
  - destruct s as [|c s']; [exact H|].
    replace (a ++ String c (replace_from fuel ic r f (Some c) s'))
      with ((a ++ String c EmptyString) ++ replace_from fuel ic r f (Some c) s')
      by (rewrite append_assoc; reflexivity).
    apply IH. rewrite append_assoc. exact H.
Qed.

Lemma replace_all_keeps_free p ic r f s :
  (forall q s' st,
     match_here ic r q s' = Some st ->
     inert p (f (Str.take (String.length s' - String.length (rest st)) s') st)) ->
  Str.includes p s = false ->
  Str.includes p (replace_all ic r f s) = false.
Proof.
  intros Hf H. unfold replace_all.
  apply (@replace_from_keeps_free p ic r f Hf (S (String.length s)) None s
           EmptyString).
  exact H.
Qed.

(** *** A literal pattern *)

Lemma startsWith_eq l s :
  Str.startsWith l s = true -> s = l ++ Str.drop (String.length l) s.
Proof.
  revert s. induction l as [|x l IH]; intros s H.
  - destruct s; reflexivity.
  - destruct s as [|y s]; [discriminate H|]. simpl in H.
    apply andb_prop in H. destruct H as [Hx Hl].
    apply Ascii.eqb_eq in Hx. subst y. simpl. rewrite <- (IH s Hl). reflexivity.
Qed.

Lemma m_lit_fail l :
  forall k st, Str.startsWith l (rest st) = false -> m false (lit l) k st = None.
Proof.
  induction l as [|x l IH]; intros k st H; [discriminate H|].
  destruct st as [q s cs]. cbn [rest] in H.
  destruct l as [|x2 l].
  - cbn [lit m]. unfold step_char. cbn [rest caps canonicalize].
    destruct s as [|y s]; [reflexivity|].
    simpl in H. rewrite andb_true_r in H. rewrite H. reflexivity.
  - change (lit (String x (String x2 l)))
      with (Seq (Chr x) (lit (String x2 l))).
    cbn [m]. unfold step_char at 1. cbn [rest caps canonicalize].
    destruct s as [|y s]; [reflexivity|].
    cbn [Str.startsWith] in H.
    destruct (Ascii.eqb x y); [|reflexivity].
    apply IH. exact H.
Qed.

Lemma m_lit_ok l :
  forall k st,
    Str.startsWith l (rest st) = true ->
    exists q, m false (lit l) k st
              = k (MState q (Str.drop (String.length l) (rest st)) (caps st)).
Proof.
  induction l as [|x l IH]; intros k st H.
  - destruct st as [q s cs]. exists q. cbn. destruct s; reflexivity.
  - destruct st as [q s cs]. cbn [rest caps] in *.
    destruct s as [|y s]; [discriminate H|].
    cbn [Str.startsWith] in H. apply andb_prop in H. destruct H as [Hx Hl].
    destruct l as [|x2 l].
    + exists (Some y). cbn. rewrite Hx. destruct s; reflexivity.
    + change (lit (String x (String x2 l)))
        with (Seq (Chr x) (lit (String x2 l))).
      cbn [m]. unfold step_char at 1. cbn [rest caps canonicalize].
      rewrite Hx.
      destruct (IH k (MState (Some y) s cs) Hl) as (q' & E).
      exists q'. rewrite E. reflexivity.
Qed.

Lemma match_here_lit l q s :
  match_here false (lit l) q s = None <-> Str.startsWith l s = false.
Proof.
  unfold match_here. split; intros H.
  - destruct (Str.startsWith l s) eqn:E; [|reflexivity].
    destruct (m_lit_ok l (fun st => Some st) (MState q s []) E) as (q' & E').
    rewrite E' in H. discriminate H.
  - apply m_lit_fail. exact H.
Qed.

Lemma match_here_lit_rest l q s st :
  match_here false (lit l) q s = Some st ->
  Str.startsWith l s = true /\ rest st = Str.drop (String.length l) s.
Proof.
  intros H. destruct (Str.startsWith l s) eqn:E.
  - split; [reflexivity|].
    destruct (m_lit_ok l (fun st => Some st) (MState q s []) E) as (q' & E').
    unfold match_here in H. rewrite E' in H. injection H as <-. reflexivity.
  - apply (match_here_lit l q s) in E. congruence.
Qed.

(** [/literal/.test(s)] is [s.includes(literal)]. *)
Lemma test_lit l s : test false (lit l) s = Str.includes l s.
Proof.
  unfold test, exec. generalize (@None ascii).
  induction s as [|c s IH]; intros q; cbn [exec_from Str.includes].
  - destruct (match_here false (lit l) q EmptyString) eqn:E.
    + apply match_here_lit_rest in E. destruct E as [E _]. rewrite E. reflexivity.
    + apply match_here_lit in E. rewrite E. reflexivity.
  - destruct (match_here false (lit l) q (String c s)) eqn:E.
    + apply match_here_lit_rest in E. destruct E as [E _]. rewrite E. reflexivity.
    + apply match_here_lit in E. rewrite E. apply IH.
Qed.

End ReplaceFacts.

(** ** The texture step leaves no legacy call *)

Module TextureFacts.

Import Fixer SearchFacts RegexFacts OccursFacts ReplaceFacts.
Local Open Scope string_scope.
Local Open Scope nat_scope.

Lemma app_eq_app (a b a1 a2 : string) :
  a ++ b = a1 ++ a2 ->
  (exists t, a = a1 ++ t /\ a2 = t ++ b)
  \/ (exists t, a1 = a ++ t /\ b = t ++ a2).
Proof.
  revert a1. induction a as [|c a IH]; intros a1 H.
  - right. exists a1. auto.
  - destruct a1 as [|d a1].
    + left. exists (String c a). auto.
    + cbn [append] in H. injection H as -> H.
      destruct (IH a1 H) as [(t & -> & ->)|(t & -> & ->)].
      * left. exists t. auto.
      * right. exists t. auto.
Qed.

Ltac peel_suffix H :=
  repeat match type of H with
         | String _ _ = ?t ++ _ =>
             destruct t as [|? t];
             [ cbn [append] in H; subst; cbn; reflexivity
             | cbn [append] in H; injection H as ? H; subst ]
         end.

(** After a replacement no occurrence starts at or before it. *)
Lemma no_start_after_replacement a s :
  no_start_within legacy_call a (legacy_call ++ s) ->
  no_start_within legacy_call (a ++ "texture(") s.
Proof.
  intros Inv a1 a2 E Hne.
  destruct (app_eq_app _ _ _ _ E) as [(t & -> & ->)|(t & -> & Et)].
  - destruct t as [|c1 t]; [cbn; reflexivity|].
    assert (H : Str.startsWith legacy_call
                  (String c1 t ++ legacy_call ++ s) = false).
    { apply (Inv a1 (String c1 t)); [reflexivity | discriminate]. }
    rewrite append_assoc. unfold legacy_call in *.
    repeat (destruct t as [|? t];
            [ cbn in H |- *; rewrite ?andb_false_r; reflexivity |]).
    cbn in H |- *. exact H.
  - peel_suffix Et.
    destruct t; [|discriminate Et]. cbn [append] in Et. congruence.
Qed.

(** With no match at the current position, none starts before the next. *)
Lemma no_start_after_copy p a c s :
  no_start_within p a (String c s) ->
  Str.startsWith p (String c s) = false ->
  no_start_within p (a ++ String c EmptyString) s.
Proof.
  intros Inv Hc a1 a2 E Hne.
  destruct (app_eq_app _ _ _ _ E) as [(t & -> & ->)|(t & -> & Et)].
  - rewrite append_assoc. cbn [append].
    destruct t as [|d t]; [exact Hc|].
    apply (Inv a1 (String d t)); [reflexivity | discriminate].
  - destruct t as [|d t].
    + cbn [append] in Et. subst a2. exact Hc.
    + cbn [append] in Et. injection Et as -> Et.
      destruct t; [|discriminate Et]. cbn [append] in Et. congruence.
Qed.

Lemma no_start_no_occurrence p a :
  p <> EmptyString ->
  no_start_within p a EmptyString -> Str.includes p a = false.
Proof.
  intros Hp Inv. destruct (Str.includes p a) eqn:E; [|reflexivity].
  destruct (includes_split _ _ E) as (x1 & x2 & -> & Hs).
  assert (Hne : x2 <> EmptyString).
  { intros ->. destruct p; [congruence | discriminate Hs]. }
  pose proof (Inv x1 x2 eq_refl Hne) as H.
  rewrite append_empty_r in H. congruence.
Qed.

Lemma length_drop n s :
  String.length (Str.drop n s) = String.length s - n.
Proof.
  revert s. induction n as [|n IH]; intros s.
  - destruct s; simpl; lia.
  - destruct s as [|c s]; [reflexivity|]. simpl. apply IH.
Qed.

Lemma texture_replace_from fuel :
  forall s a q,
    String.length s < fuel ->
    no_start_within legacy_call a s ->
    Str.includes legacy_call
      (a ++ replace_from fuel false rx_texture2D (fun _ _ => "texture(") q s)
    = false.
Proof.
  induction fuel as [|fuel IH]; intros s a q Hf Inv; [inversion Hf|].
  cbn [replace_from].
  destruct (match_here false rx_texture2D q s) as [st|] eqn:E.
  - apply match_here_lit_rest in E. destruct E as [Hs Hr].
    change (String.length "texture2D(") with 10 in Hr.
    pose proof (startsWith_eq _ _ Hs) as Es.
    change (String.length "texture2D(") with 10 in Es.
    assert (Hlen : String.length (rest st) = String.length s - 10).
    { rewrite Hr. apply length_drop. }
    assert (Hs10 : 10 <= String.length s).
    { rewrite Es, length_app. simpl. lia. }
    replace (String.length s - String.length (rest st) =? 0) with false
      by (symmetry; apply Nat.eqb_neq; lia).
    rewrite <- append_assoc. apply IH; [lia|].
    apply no_start_after_replacement. rewrite Hr.
    change ("texture2D(" ++ Str.drop 10 s) with (legacy_call ++ Str.drop 10 s)
      in Es.
    rewrite <- Es. exact Inv.
  - apply match_here_lit in E. destruct s as [|c s].
    + rewrite append_empty_r. apply no_start_no_occurrence; [discriminate|].
      exact Inv.
    + replace (a ++ String c
                 (replace_from fuel false rx_texture2D
                    (fun _ _ => "texture(") (Some c) s))
        with ((a ++ String c EmptyString)
                ++ replace_from fuel false rx_texture2D
                     (fun _ _ => "texture(") (Some c) s)
        by (rewrite append_assoc; reflexivity).
      apply IH; [simpl in Hf; lia|].
      apply no_start_after_copy; assumption.
Qed.

(** After [.replace(/texture2D\(/g, 'texture(')] no [texture2D(] is left. *)
Lemma texture_replace_free s :
  Str.includes legacy_call
    (replace_all false rx_texture2D (fun _ _ => "texture(") s) = false.
Proof.
  unfold replace_all.
  apply (@texture_replace_from (S (String.length s)) s EmptyString None).
  - lia.
  - intros a1 a2 E Hne. destruct a1; [|discriminate E].
    cbn [append] in E. congruence.
Qed.

End TextureFacts.

Unset Implicit Arguments.

(** ** Which steps can bring a legacy call into the text: none *)

Module LegacyFacts.

Import Fixer SearchFacts RegexFacts OccursFacts ReplaceFacts TextureFacts.
Local Open Scope string_scope.
Local Open Scope nat_scope.

Local Notation "'free' s" := (Str.includes legacy_call s = false)
  (at level 70, s at level 9, only parsing).

Lemma legacy_nonempty : legacy_call <> EmptyString.
Proof. discriminate. Qed.

Lemma legacy_sep a c b :
  absent c legacy_call = true ->
  Str.includes legacy_call (a ++ String c b)
  = Str.includes legacy_call a || Str.includes legacy_call b.
Proof. intros H. apply (@includes_sep legacy_call c H legacy_nonempty). Qed.

Lemma legacy_no_paren_app a g :
  absent "(" g = true ->
  Str.includes legacy_call (a ++ g) = Str.includes legacy_call a.
Proof. intros H. apply (@includes_last "texture2D" "("%char a g H). Qed.

Lemma legacy_no_paren g : absent "(" g = true -> free g.
Proof. intros H. apply (@includes_last_alone "texture2D" "("%char g H). Qed.

Lemma legacy_no_t g : absent "t" g = true -> free g.
Proof. intros H. apply (@includes_first "t"%char "exture2D(" g H). Qed.

(** *** Inert pieces and how they compose *)

Lemma inert_app x y :
  inert legacy_call x -> inert legacy_call y -> inert legacy_call (x ++ y).
Proof.
  intros Hx Hy a b H. rewrite append_assoc in H.
  destruct (Hx a (y ++ b) H) as [Ha|Hyb]; [left; exact Ha|].
  destruct (Hy EmptyString b Hyb) as [He|Hb]; [discriminate He | right; exact Hb].
Qed.

Lemma inert_foreign_text out :
  all_chars (fun c => absent c legacy_call) out = true ->
  out <> EmptyString -> inert legacy_call out.
Proof. intros H Hne. apply inert_foreign; [discriminate | exact H | exact Hne]. Qed.

(** Foreign code units after an inert piece, possibly none. *)
Lemma inert_app_foreign x g :
  inert legacy_call x ->
  all_chars (fun c => absent c legacy_call) g = true ->
  inert legacy_call (x ++ g).
Proof.
  intros Hx Hg. destruct g as [|c g].
  - rewrite append_empty_r. exact Hx.
  - apply inert_app; [exact Hx|]. apply inert_foreign_text; [exact Hg|discriminate].
Qed.

(** A text free of the call between two foreign code units. *)
Lemma inert_fenced c g d :
  absent c legacy_call = true -> absent d legacy_call = true ->
  free g ->
  inert legacy_call (String c (g ++ String d EmptyString)).
Proof.
  intros Hc Hd Hg a b H.
  change (a ++ String c (g ++ String d EmptyString) ++ b)
    with (a ++ String c ((g ++ String d EmptyString) ++ b)) in H.
  rewrite (legacy_sep a c _ Hc), append_assoc in H. cbn [append] in H.
  rewrite (legacy_sep g d _ Hd), Hg in H.
  apply orb_prop in H. exact H.
Qed.

(** A text without [(] and then a foreign code unit. *)
Lemma inert_closed g c :
  absent "(" g = true -> absent c legacy_call = true ->
  inert legacy_call (g ++ String c EmptyString).
Proof.
  intros Hg Hc a b H. rewrite append_assoc in H. cbn [append] in H.
  rewrite <- append_assoc, (legacy_sep (a ++ g) c _ Hc) in H.
  rewrite (legacy_no_paren_app a g Hg) in H. apply orb_prop in H. exact H.
Qed.

(** *** Texts put in front or behind *)

Lemma free_prepend_line l out :
  free l -> free out -> free (l ++ Str.nl ++ out).
Proof.
  intros Hl Ho. unfold Str.nl. cbn [append].
  rewrite (legacy_sep l NL out eq_refl), Hl, Ho. reflexivity.
Qed.

Lemma free_append_line out l :
  free out -> free l -> free (out ++ Str.nl ++ l).
Proof. intros Ho Hl. apply free_prepend_line; assumption. Qed.

Lemma free_repeat_brace n : free (Str.repeat "}" n).
Proof.
  apply legacy_no_paren. induction n as [|n IH]; [reflexivity|]. exact IH.
Qed.

Lemma absent_repeat_paren n : absent "(" (Str.repeat ")" n) = true.
Proof. induction n as [|n IH]; [reflexivity|]. exact IH. Qed.

(** *** The steps *)

Lemma free_precisionText out : free out -> free (precisionText out).
Proof.
  intros H. unfold precisionText.
  destruct (negb (test false rx_precision out)); [|exact H].
  apply free_prepend_line; [reflexivity | exact H].
Qed.

Lemma free_addUniforms us :
  Forall (fun u : regex * string => free (snd u)) us ->
  forall out n,
    free out ->
    free (fst (fold_left (fun acc u => addUniform u acc) us (out, n))).
Proof.
  intros Hus. induction Hus as [|u us Hu _ IH]; intros out n H; [exact H|].
  cbn [fold_left]. unfold addUniform at 2.
  destruct (negb (test false (fst u) out)).
  - apply IH. apply free_prepend_line; assumption.
  - apply IH. exact H.
Qed.

Lemma free_uniformsText out : free out -> free (uniformsText out).
Proof.
  intros H. unfold uniformsText. apply free_addUniforms; [|exact H].
  unfold uniforms. repeat constructor.
Qed.

Lemma free_textureText out : free (textureText out).
Proof.
  unfold textureText. destruct (test false rx_texture2D out) eqn:E.
  - apply texture_replace_free.
  - unfold rx_texture2D in E. rewrite test_lit in E. exact E.
Qed.

Lemma free_bracesText out : free out -> free (bracesText out).
Proof.
  intros H. unfold bracesText.
  destruct (_ <? _); [|exact H].
  apply free_append_line; [exact H | apply free_repeat_brace].
Qed.

Lemma free_parensText out : free out -> free (parensText out).
Proof.
  intros H. unfold parensText.
  destruct (_ <? _); [|exact H].
  rewrite legacy_no_paren_app; [exact H | apply absent_repeat_paren].
Qed.

Lemma free_mainText out : free out -> free (mainText out).
Proof.
  intros H. unfold mainText.
  destruct (negb (test false rx_main out)); [|exact H].
  unfold fallback_main. apply free_append_line; [exact H | reflexivity].
Qed.

(** Line by line: splitting and joining. *)

Lemma split_nl_nonempty s : Str.split_nl s <> [].
Proof.
  destruct s as [|c s]; [discriminate|]. simpl.
  destruct (Ascii.eqb c NL); [discriminate|].
  destruct (Str.split_nl s); discriminate.
Qed.

Lemma free_join ls :
  Forall (fun l => free l) ls -> free (Str.join_nl ls).
Proof.
  intros H. induction H as [|l ls Hl Hls IH]; [reflexivity|].
  destruct ls as [|l2 ls]; [exact Hl|].
  change (Str.join_nl (l :: l2 :: ls)) with (l ++ Str.nl ++ Str.join_nl (l2 :: ls)).
  apply free_prepend_line; assumption.
Qed.

Lemma free_split s : free s -> Forall (fun l => free l) (Str.split_nl s).
Proof.
  induction s as [|c s IH]; intros H.
  - repeat constructor.
  - cbn [Str.split_nl]. destruct (Ascii.eqb c NL) eqn:E.
    + apply Ascii.eqb_eq in E. subst c.
      constructor; [reflexivity|]. apply IH.
      change (String NL s) with (EmptyString ++ String NL s) in H.
      rewrite (legacy_sep EmptyString NL s eq_refl) in H. exact H.
    + assert (Hs : free s).
      { change (String c s) with (String c EmptyString ++ s) in H.
        apply (includes_app_false _ _ _ H). }
      specialize (IH Hs).
      destruct (Str.split_nl s) as [|h t] eqn:Es.
      * exfalso. exact (split_nl_nonempty s Es).
      * inversion IH as [|? ? Hh Ht]; subst. constructor; [|exact Ht].
        assert (J : Str.join_nl (h :: t) = s).
        { rewrite <- Es. clear. induction s as [|d s IHs]; [reflexivity|].
          cbn [Str.split_nl]. destruct (Ascii.eqb d NL) eqn:Ed.
          - apply Ascii.eqb_eq in Ed. subst d.
            destruct (Str.split_nl s) as [|h t] eqn:Es.
            + exfalso. exact (split_nl_nonempty s Es).
            + change (Str.join_nl (EmptyString :: h :: t))
                with (EmptyString ++ Str.nl ++ Str.join_nl (h :: t)).
              rewrite IHs. reflexivity.
          - destruct (Str.split_nl s) as [|h t] eqn:Es.
            + exfalso. exact (split_nl_nonempty s Es).
            + destruct t as [|h2 t].
              * cbn [Str.join_nl] in *. rewrite IHs. reflexivity.
              * change (Str.join_nl (String d h :: h2 :: t))
                  with (String d (h ++ Str.nl ++ Str.join_nl (h2 :: t))).
                change (Str.join_nl (h :: h2 :: t))
                  with (h ++ Str.nl ++ Str.join_nl (h2 :: t)) in IHs.
                rewrite IHs. reflexivity. }
        destruct t as [|h2 t].
        { cbn [Str.join_nl] in J. subst h. exact H. }
        change (Str.join_nl (h :: h2 :: t))
          with (h ++ Str.nl ++ Str.join_nl (h2 :: t)) in J.
        rewrite <- J in H. unfold Str.nl in H.
        change (String c (h ++ String NL EmptyString ++ Str.join_nl (h2 :: t)))
          with (String c h ++ String NL (Str.join_nl (h2 :: t))) in H.
        rewrite (legacy_sep (String c h) NL _ eq_refl) in H.
        apply orb_false_elim in H. exact (proj1 H).
Qed.

Lemma free_semicolonLine ln : free ln -> free (semicolonLine ln).
Proof.
  intros H. unfold semicolonLine.
  repeat match goal with
         | |- context [if ?b then _ else _] => destruct b
         end; try exact H;
    rewrite (legacy_sep ln ";"%char EmptyString eq_refl), H; reflexivity.
Qed.

Lemma free_semicolonsText out : free out -> free (semicolonsText out).
Proof.
  intros H. unfold semicolonsText. apply free_join.
  apply Forall_map. apply free_split in H.
  induction H as [|l ls Hl _ IH]; constructor; auto using free_semicolonLine.
Qed.

(** Constant replacements made of foreign code units. *)

Lemma free_replace_constant r out s :
  all_chars (fun c => absent c legacy_call) out = true ->
  out <> EmptyString ->
  free s -> free (replace_all false r (fun _ _ => out) s).
Proof.
  intros Hall Hne H. apply replace_all_keeps_free; [|exact H].
  intros q s' st _. apply inert_foreign_text; assumption.
Qed.

Lemma free_normalizeNewlines s : free s -> free (normalizeNewlines s).
Proof.
  intros H. unfold normalizeNewlines.
  apply free_replace_constant; [reflexivity | discriminate |].
  apply free_replace_constant; [reflexivity | discriminate | exact H].
Qed.

Lemma free_replacePlaceholders s : free s -> free (replacePlaceholders s).
Proof.
  intros H. unfold replacePlaceholders.
  apply free_replace_constant; [reflexivity | discriminate |].
  apply free_replace_constant; [reflexivity | discriminate | exact H].
Qed.

End LegacyFacts.

(** ** The captures of the division and vector patterns *)

Module CaptureFacts.

Import Fixer SearchFacts RegexFacts OccursFacts ReplaceFacts TextureFacts
  LegacyFacts.
Local Open Scope string_scope.
Local Open Scope nat_scope.

Local Notation "'free' s" := (Str.includes legacy_call s = false)
  (at level 70, s at level 9, only parsing).

Lemma Matches_seq ic r1 r2 st st' :
  Matches ic (Seq r1 r2) st st' ->
  exists st1, Matches ic r1 st st1 /\ Matches ic r2 st1 st'.
Proof. intros H. exact H. Qed.

Lemma all_chars_impl (ok ok' : ascii -> bool) s :
  (forall c, ok c = true -> ok' c = true) ->
  all_chars ok s = true -> all_chars ok' s = true.
Proof.
  intros Himp. induction s as [|c s IH]; [reflexivity|]. simpl.
  intros H. apply andb_prop in H. destruct H as [Hc Hs].
  rewrite (Himp c Hc), (IH Hs). reflexivity.
Qed.

(** The text captured by [Group n (Seq (Cls ...) r)] starts with a code
    unit of the class. *)
Lemma Matches_group_first ok ic n neg items r st st' :
  consumes_only ok ic (Seq (Cls neg items) r) ->
  group_free r = true ->
  Matches ic (Group n (Seq (Cls neg items) r)) st st' ->
  exists c w,
    xorb neg (class_has ic items c) = true
    /\ all_chars ok (String c w) = true
    /\ caps st' = (n, String c w) :: caps st.
Proof.
  intros [Hok1 Hok2] Hg H.
  change (exists st1, (exists sa, Matches ic (Cls neg items) st sa
                                  /\ Matches ic r sa st1)
                      /\ st' = add_capture n st st1) in H.
  destruct H as (st1 & (sa & Ha & Hr) & ->).
  cbn [Matches] in Ha. destruct Ha as (c & s' & E & Hc & ->).
  destruct (Matches_consumes ok ic r Hok2 _ _ Hr) as (w & Ew & Aw).
  pose proof (Matches_caps ic r Hg _ _ Hr) as Ec.
  cbn [rest caps] in Ew, Ec.
  exists c, w. split; [exact Hc|]. split.
  - cbn [all_chars]. rewrite (Hok1 c Hc), Aw. reflexivity.
  - cbn [add_capture caps]. rewrite Ec, E, Ew.
    change (String c (w ++ rest st1)) with (String c w ++ rest st1).
    rewrite take_app_exact. reflexivity.
Qed.

Lemma exec_from_bol ic r s :
  forall c, exec_from ic (Seq Bol r) (Some c) s = None.
Proof.
  induction s as [|d s IH]; intros c; cbn [exec_from].
  - reflexivity.
  - unfold match_here. cbn [m prev]. apply IH.
Qed.

(** [/^\d/.test(g)] looks at the first code unit only. *)
Lemma test_leading_digit c s :
  test false rx_leading_digit (String c s) = is_digit c.
Proof.
  unfold test, exec, rx_leading_digit, digit. cbn [exec_from].
  unfold match_here. cbn [m prev]. unfold step_char.
  cbn [rest caps xorb class_has items_have existsb item_has].
  rewrite orb_false_r. destruct (is_digit c); [reflexivity|].
  rewrite exec_from_bol. reflexivity.
Qed.

Lemma ident_start_not_digit c :
  class_has false [range "a" "z"; range "A" "Z"; CChar "_"] c = true ->
  is_digit c = false.
Proof.
  unfold class_has, items_have, range. cbn [existsb item_has].
  change (code "a") with 97. change (code "z") with 122.
  change (code "A") with 65. change (code "Z") with 90.
  intros H. rewrite orb_false_r in H.
  destruct (Ascii.eqb "_" c) eqn:E.
  { apply Ascii.eqb_eq in E. subst c. reflexivity. }
  rewrite orb_false_r in H. unfold is_digit, between in *.
  apply andb_false_iff.
  apply orb_prop in H. destruct H as [H|H]; apply andb_prop in H;
    destruct H as [H1 H2]; apply Nat.leb_le in H1; apply Nat.leb_le in H2.
  - right. apply Nat.leb_gt. lia.
  - right. apply Nat.leb_gt. lia.
Qed.

Ltac caps_of H C :=
  match type of H with
  | Matches ?ic ?r ?a ?b =>
      pose proof (Matches_caps ic r (eq_refl true) a b H) as C
  end.

Ltac not_paren :=
  let c := fresh "c" in
  let H := fresh "H" in
  intros c H;
  match goal with
  | |- negb (Ascii.eqb c ?x) = true =>
      destruct (Ascii.eqb_spec c x) as [->|_];
      [vm_compute in H; discriminate H | reflexivity]
  end.

(** What [g1] and [g2] are for a match of the division pattern. *)
Lemma division_captures q s st :
  match_here false rx_division q s = Some st ->
  exists c0 w g2,
    cap 1 st = String c0 w /\ cap 2 st = g2
    /\ is_digit c0 = false
    /\ absent "(" (String c0 w) = true
    /\ all_chars (fun c => absent c legacy_call) g2 = true.
Proof.
  intros H. apply match_here_sound in H.
  unfold rx_division in H. cbn [seq] in H.
  apply Matches_seq in H. destruct H as (s1 & H1 & H).
  apply Matches_seq in H. destruct H as (s2 & H2 & H).
  apply Matches_seq in H. destruct H as (s3 & H3 & H).
  apply Matches_seq in H. destruct H as (s4 & H4 & H5).
  caps_of H1 C1.
  caps_of H2 C2.
  caps_of H3 C3.
  cbn [caps] in C1. rewrite C1 in C2. rewrite C2 in C3.
  unfold ident_start in H4.
  apply (Matches_group_first (fun c => negb (Ascii.eqb c "("))) in H4.
  - destruct H4 as (c0 & w & Hc0 & Hw & C4). rewrite C3 in C4.
    apply (Matches_group (fun c => absent c legacy_call)) in H5.
    + destruct H5 as (g2 & _ & Hg2 & C5). rewrite C4 in C5.
      exists c0, w, g2. unfold cap. rewrite C5. cbn [capture Nat.eqb].
      split; [reflexivity|]. split; [reflexivity|].
      split; [apply ident_start_not_digit; exact Hc0|].
      split; [exact Hw | exact Hg2].
    + cbn [consumes_only opt canonicalize]. intros c Hc.
      apply Ascii.eqb_eq in Hc. subst c. reflexivity.
    + reflexivity.
  - cbn [consumes_only seq star opt word]. repeat split; not_paren.
  - reflexivity.
Qed.

Lemma free_cons x s :
  Ascii.eqb "t" x = false -> free s -> free (String x s).
Proof.
  intros Hx Hs. cbn [Str.includes]. rewrite Hs.
  unfold legacy_call. cbn [Str.startsWith]. rewrite Hx. reflexivity.
Qed.

(** The guarded denominator is inert. *)
Lemma divisionGuard_inert q s st m0 :
  match_here false rx_division q s = Some st ->
  inert legacy_call (divisionGuard m0 st).
Proof.
  intros H. destruct (division_captures q s st H)
    as (c0 & w & g2 & E1 & E2 & Hd & Hw & Hg2).
  unfold divisionGuard. rewrite E1, E2, test_leading_digit, Hd.
  replace ("/ max(" ++ String c0 w ++ ", 0.000001)" ++ g2)
    with ((("/ m" ++ String "a" (("x(" ++ String c0 w) ++ String "," EmptyString))
             ++ " 0.000001)") ++ g2)
    by (repeat (cbn [append]; rewrite ?append_assoc); reflexivity).
  apply inert_app_foreign; [|exact Hg2].
  apply inert_app; [|apply inert_foreign_text; [reflexivity | discriminate]].
  apply inert_app; [apply inert_foreign_text; [reflexivity | discriminate]|].
  apply inert_fenced; [reflexivity | reflexivity |].
  cbn [append]. apply free_cons; [reflexivity|].
  apply free_cons; [reflexivity|]. apply legacy_no_paren. exact Hw.
Qed.

Lemma free_guardDivisions s : free s -> free (guardDivisions s).
Proof.
  intros H. unfold guardDivisions. apply replace_all_keeps_free; [|exact H].
  intros q s' st E. apply (divisionGuard_inert q s' st _ E).
Qed.

(** What the three groups are for a match of the vector pattern. *)
Lemma vec_init_captures q s st :
  match_here false rx_vec_init q s = Some st ->
  exists g1 g2 g3,
    cap 1 st = g1 /\ cap 2 st = g2 /\ cap 3 st = g3
    /\ absent "t" g1 = true /\ absent "(" g1 = true
    /\ absent "(" g2 = true /\ absent "(" g3 = true.
Proof.
  intros H. apply match_here_sound in H.
  unfold rx_vec_init in H. cbn [seq] in H.
  apply Matches_seq in H. destruct H as (s0 & H0 & H).
  apply Matches_seq in H. destruct H as (s1 & H1 & H).
  apply Matches_seq in H. destruct H as (s2 & H2 & H).
  apply Matches_seq in H. destruct H as (s3 & H3 & H).
  apply Matches_seq in H. destruct H as (s4 & H4 & H).
  apply Matches_seq in H. destruct H as (s5 & H5 & H).
  apply Matches_seq in H. destruct H as (s6 & H6 & H).
  apply Matches_seq in H. destruct H as (s7 & H7 & H).
  apply Matches_seq in H. destruct H as (s8 & H8 & H9).
  caps_of H0 C0. cbn [caps] in C0.
  apply (Matches_group
           (fun c => negb (Ascii.eqb c "t") && negb (Ascii.eqb c "("))) in H1;
    [|cbn [consumes_only lit]; repeat split;
      (intros c Hc;
       destruct (Ascii.eqb_spec c "t") as [->|_];
       [vm_compute in Hc; discriminate Hc|];
       destruct (Ascii.eqb_spec c "(") as [->|_];
       [vm_compute in Hc; discriminate Hc | reflexivity])
     |reflexivity].
  destruct H1 as (g1 & _ & A1 & C1). rewrite C0 in C1.
  caps_of H2 C2. rewrite C1 in C2.
  unfold ident_start in H3.
  apply (Matches_group (fun c => negb (Ascii.eqb c "("))) in H3;
    [|cbn [consumes_only star word]; repeat split; not_paren | reflexivity].
  destruct H3 as (g2 & _ & A2 & C3). rewrite C2 in C3.
  caps_of H4 C4. rewrite C3 in C4.
  caps_of H5 C5. rewrite C4 in C5.
  caps_of H6 C6. rewrite C5 in C6.
  apply (Matches_group (fun c => negb (Ascii.eqb c "("))) in H7;
    [|cbn [consumes_only plus opt]; repeat split; not_paren | reflexivity].
  destruct H7 as (g3 & _ & A3 & C7). rewrite C6 in C7.
  caps_of H8 C8. rewrite C7 in C8.
  caps_of H9 C9. rewrite C8 in C9.
  exists g1, g2, g3. unfold cap. rewrite C9. cbn [capture Nat.eqb].
  repeat split; try assumption.
  - apply (all_chars_impl _ _ g1 (fun c Hc => proj1 (andb_prop _ _ Hc)) A1).
  - apply (all_chars_impl _ _ g1 (fun c Hc => proj2 (andb_prop _ _ Hc)) A1).
Qed.

Lemma absent_app c a b :
  absent c a = true -> absent c b = true -> absent c (a ++ b) = true.
Proof.
  unfold absent. intros Ha Hb. rewrite all_chars_app, Ha, Hb. reflexivity.
Qed.

(** The rewritten initialiser is inert. *)
Lemma vecInitReplacement_inert q s st m0 :
  match_here false rx_vec_init q s = Some st ->
  inert legacy_call (vecInitReplacement m0 st).
Proof.
  intros H. destruct (vec_init_captures q s st H)
    as (g1 & g2 & g3 & E1 & E2 & E3 & T1 & P1 & P2 & P3).
  unfold vecInitReplacement. rewrite E1, E2, E3.
  replace (g1 ++ " " ++ g2 ++ " = " ++ g1 ++ "(" ++ g3 ++ ");")
    with ((((g1 ++ " ") ++ (g2 ++ " ")) ++ "=")
            ++ String " " (((g1 ++ "(") ++ g3) ++ String ")" EmptyString) ++ ";")
    by (repeat (cbn [append]; rewrite ?append_assoc); reflexivity).
  apply inert_app.
  - apply inert_app; [|apply inert_foreign_text; [reflexivity | discriminate]].
    apply inert_app; apply inert_closed; try assumption; reflexivity.
  - change (String " " (((g1 ++ "(") ++ g3) ++ String ")" EmptyString) ++ ";")
      with (String " " (((g1 ++ "(") ++ g3) ++ String ")" EmptyString)
              ++ String ";" EmptyString).
    apply inert_app; [|apply inert_foreign_text; [reflexivity | discriminate]].
    apply inert_fenced; [reflexivity | reflexivity |].
    rewrite (legacy_no_paren_app _ _ P3).
    apply legacy_no_t. apply absent_app; [exact T1 | reflexivity].
Qed.

Lemma free_coerceVecInit s : free s -> free (coerceVecInit s).
Proof.
  intros H. unfold coerceVecInit. apply replace_all_keeps_free; [|exact H].
  intros q s' st E. apply (vecInitReplacement_inert q s' st _ E).
Qed.

End CaptureFacts.

(** ** The pipeline as a function of the text *)

Module PipelineFacts.

Import Fixer PageFacts SearchFacts RegexFacts OccursFacts ReplaceFacts
  TextureFacts LegacyFacts CaptureFacts StepFacts.
Local Open Scope string_scope.
Local Open Scope nat_scope.

Local Notation "'free' s" := (Str.includes legacy_call s = false)
  (at level 70, s at level 9, only parsing).

Lemma bind_run {W A B} {c : M W A} (f : A -> M W B) {w a w1} :
  c w = (Ret a, w1) -> bind c f w = f a w1.
Proof. intros E. unfold bind. rewrite E. reflexivity. Qed.

Lemma page_eta w : Page (mainLog w) (GODFIX_FIXED w) = w.
Proof. destruct w; reflexivity. Qed.

(** [repairSteps] returns [repairText] and adds [repairLog] to the log. *)
Lemma repairSteps_run out w :
  repairSteps out w
  = (Ret (repairText out),
     Page (repairLog out ++ mainLog w)%list (GODFIX_FIXED w)).
Proof.
  unfold repairSteps, repairText, repairLog, textBeforeTexture.
  assert (E1 : ensurePrecision out w
          = (Ret (precisionText out),
             Page (when (negb (test false rx_precision out)) entry_precision
                     ++ mainLog w)%list (GODFIX_FIXED w))).
  { unfold ensurePrecision, precisionText, when.
    destruct (negb (test false rx_precision out)); [reflexivity|].
    unfold ret. cbn [app]. rewrite page_eta. reflexivity. }
  rewrite (bind_run _ E1). clear E1.
  set (l1 := (when (negb (test false rx_precision out)) entry_precision
                ++ mainLog w)%list).
  set (o1 := precisionText out).
  assert (E2 : ensureUniforms o1 (Page l1 (GODFIX_FIXED w))
          = (Ret (uniformsText o1),
             Page (when (0 <? uniformsAdded o1) (uniformsEntry (uniformsAdded o1))
                     ++ l1)%list (GODFIX_FIXED w))).
  { unfold ensureUniforms, uniformsText, uniformsAdded, when, uniformsEntry.
    destruct (fold_left (fun acc u => addUniform u acc) uniforms (o1, 0))
      as [o n]. cbn [fst snd].
    destruct (0 <? n); reflexivity. }
  rewrite (bind_run _ E2). clear E2.
  set (l2 := (when (0 <? uniformsAdded o1) _ ++ l1)%list).
  set (o2 := uniformsText o1).
  assert (E3 : modernizeTexture o2 (Page l2 (GODFIX_FIXED w))
          = (Ret (textureText o2),
             Page (when (test false rx_texture2D o2) entry_texture ++ l2)%list
                  (GODFIX_FIXED w))).
  { unfold modernizeTexture, textureText, when.
    destruct (test false rx_texture2D o2); reflexivity. }
  rewrite (bind_run _ E3). clear E3.
  set (l3 := (when (test false rx_texture2D o2) _ ++ l2)%list).
  set (o3 := textureText o2).
  assert (E4 : insertSemicolons o3 (Page l3 (GODFIX_FIXED w))
          = (Ret (semicolonsText o3),
             Page (entry_semicolons :: l3) (GODFIX_FIXED w))).
  { reflexivity. }
  rewrite (bind_run _ E4). clear E4.
  assert (E5 : guardDivisionsStep (semicolonsText o3)
                 (Page (entry_semicolons :: l3) (GODFIX_FIXED w))
          = (Ret (guardDivisions (semicolonsText o3)),
             Page (entry_divisions :: entry_semicolons :: l3) (GODFIX_FIXED w))).
  { reflexivity. }
  rewrite (bind_run _ E5). clear E5.
  set (o5 := guardDivisions (semicolonsText o3)).
  set (l5 := entry_divisions :: entry_semicolons :: l3).
  assert (E6 : closeBraces o5 (Page l5 (GODFIX_FIXED w))
          = (Ret (bracesText o5),
             Page (when (match_count false rx_rbrace o5
                         <? match_count false rx_lbrace o5)
                     (bracesEntry (missingBraces o5)) ++ l5)%list
                  (GODFIX_FIXED w))).
  { unfold closeBraces, bracesText, when, bracesEntry, missingBraces.
    destruct (match_count false rx_rbrace o5 <? match_count false rx_lbrace o5);
      reflexivity. }
  rewrite (bind_run _ E6). clear E6.
  set (l6 := (when (match_count false rx_rbrace o5 <? _) _ ++ l5)%list).
  set (o6 := bracesText o5).
  assert (E7 : closeParens o6 (Page l6 (GODFIX_FIXED w))
          = (Ret (parensText o6),
             Page (when (match_count false rx_rparen o6
                         <? match_count false rx_lparen o6)
                     (parensEntry (missingParens o6)) ++ l6)%list
                  (GODFIX_FIXED w))).
  { unfold closeParens, parensText, when, parensEntry, missingParens.
    destruct (match_count false rx_rparen o6 <? match_count false rx_lparen o6);
      reflexivity. }
  rewrite (bind_run _ E7). clear E7.
  set (l7 := (when (match_count false rx_rparen o6 <? _) _ ++ l6)%list).
  set (o7 := parensText o6).
  unfold bind at 1. unfold ret at 1. unfold bind at 1. unfold ret at 1.
  set (o9 := coerceVecInit (replacePlaceholders o7)).
  unfold ensureMain, mainText.
  subst l7 l6 l5 l3 l2 l1. rewrite <- !app_assoc. unfold when at 1.
  destruct (negb (test false rx_main o9)); reflexivity.
Qed.

(** [smartFixShader] on a string. *)
Lemma smartFixShader_run s w :
  smartFixShader (JStr s) w
  = (Ret (JStr (repairText (normalizeNewlines s))),
     Page (entry_done
             :: repairLog (normalizeNewlines s)
             ++ ("OK", "Starting smartFixShader pass") :: mainLog w)%list
          (JStr (repairText (normalizeNewlines s)))).
Proof.
  unfold smartFixShader, try_catch, smartFixShader_try.
  rewrite RemediateFacts.js_or_empty_string.
  unfold bind at 1. unfold logMain at 1. cbn [mainLog GODFIX_FIXED].
  unfold bind at 1. unfold string_method, ret at 1.
  unfold bind at 1. rewrite repairSteps_run. cbn [mainLog GODFIX_FIXED].
  reflexivity.
Qed.

Lemma repair_string s : repair (JStr s) = JStr (repairText (normalizeNewlines s)).
Proof. unfold repair. rewrite smartFixShader_run. reflexivity. Qed.

(** The text at the end of the pipeline has no legacy call. *)
Lemma free_repairText s : free (repairText s).
Proof.
  unfold repairText.
  apply free_mainText, free_coerceVecInit, free_replacePlaceholders,
    free_parensText, free_bracesText, free_guardDivisions,
    free_semicolonsText, free_textureText.
Qed.

(** In a second run the texture step finds nothing to do. *)
Lemma second_run_texture_test s :
  test false rx_texture2D
    (textBeforeTexture (normalizeNewlines (repairText (normalizeNewlines s))))
  = false.
Proof.
  unfold rx_texture2D. rewrite test_lit. unfold textBeforeTexture.
  apply free_uniformsText, free_precisionText, free_normalizeNewlines,
    free_repairText.
Qed.

Lemma in_when (b : bool) (e x : string * string) :
  In x (when b e) -> b = true /\ x = e.
Proof.
  destruct b; simpl; intros H; [|contradiction].
  destruct H as [H|H]; [auto | contradiction].
Qed.

(** The texture entry is in the log of [repairSteps] only when the texture
    step found a legacy call. *)
Lemma texture_entry_in_repairLog out :
  In entry_texture (repairLog out) ->
  test false rx_texture2D (textBeforeTexture out) = true.
Proof.
  unfold repairLog, textBeforeTexture. intros H.
  repeat (apply in_app_or in H; destruct H as [H|H]);
    try (apply in_when in H; destruct H as [Hb He];
         first [ discriminate He | exact Hb ]).
  simpl in H. destruct H as [H|[H|H]]; try discriminate H; contradiction.
Qed.

End PipelineFacts.

(** ** Each of the four steps on its own *)

Module IsolationFacts.

Import Fixer PageFacts SearchFacts RegexFacts OccursFacts ReplaceFacts
  TextureFacts LegacyFacts CaptureFacts StepFacts PipelineFacts.
Local Open Scope string_scope.
Local Open Scope nat_scope.

Lemma step_char_place p k1 k2 st1 st2 :
  related k1 k2 -> same_place st1 st2 ->
  (step_char p k1 st1 = None <-> step_char p k2 st2 = None).
Proof.
  intros Hk [Hr _]. unfold step_char. rewrite Hr.
  destruct (rest st2) as [|c s]; [tauto|].
  destruct (p c); [|tauto]. apply Hk. split; reflexivity.
Qed.

Lemma is_boundary_place st1 st2 :
  same_place st1 st2 -> is_boundary st1 = is_boundary st2.
Proof. intros [Hr Hp]. unfold is_boundary. rewrite Hr, Hp. reflexivity. Qed.

Lemma or_none (a b : option mstate) :
  match a with Some res => Some res | None => b end = None
  <-> a = None /\ b = None.
Proof. destruct a; split; intros H; try tauto; try discriminate; destruct H; discriminate. Qed.

Lemma rep_place (body : (mstate -> option mstate) -> mstate -> option mstate)
    greedy k1 k2 :
  (forall c1 c2 s1 s2, related c1 c2 -> same_place s1 s2 ->
                       (body c1 s1 = None <-> body c2 s2 = None)) ->
  related k1 k2 ->
  forall fuel mn mx st1 st2,
    same_place st1 st2 ->
    (rep body greedy k1 fuel mn mx st1 = None
     <-> rep body greedy k2 fuel mn mx st2 = None).
Proof.
  intros Hbody Hk. induction fuel as [|fuel IH]; intros mn mx st1 st2 Hst;
    [tauto|].
  cbn [rep]. destruct (max_is_zero mx); [apply Hk; exact Hst|].
  assert (Hiter :
    body (fun st' =>
            if (mn =? 0) && (String.length (rest st') =? String.length (rest st1))
            then None else rep body greedy k1 fuel (pred mn) (max_pred mx) st')
         st1 = None
    <-> body (fun st' =>
            if (mn =? 0) && (String.length (rest st') =? String.length (rest st2))
            then None else rep body greedy k2 fuel (pred mn) (max_pred mx) st')
         st2 = None).
  { apply Hbody; [|exact Hst]. intros a b Hab.
    destruct Hst as [Hr _]. destruct Hab as [Hr' Hp']. rewrite Hr, Hr'.
    destruct ((mn =? 0) && (String.length (rest b) =? String.length (rest st2)));
      [tauto|].
    apply IH. split; assumption. }
  destruct (0 <? mn); [exact Hiter|].
  destruct greedy; rewrite !or_none; specialize (Hk st1 st2 Hst); tauto.
Qed.

(** Whether a pattern without [^] matches at a place does not depend on the
    text before it, beyond the kind of the code unit just before. *)
Lemma m_place ic r :
  bol_free r = true ->
  forall k1 k2 st1 st2,
    related k1 k2 -> same_place st1 st2 ->
    (m ic r k1 st1 = None <-> m ic r k2 st2 = None).
Proof.
  induction r as [ |a| |neg items| | | |r1 IH1 r2 IH2|r1 IH1 r2 IH2
                  |mn mx greedy r1 IH1|n r1 IH1];
    intros Hb k1 k2 st1 st2 Hk Hst; cbn [m bol_free] in *.
  - apply Hk. exact Hst.
  - apply step_char_place; assumption.
  - apply step_char_place; assumption.
  - apply step_char_place; assumption.
  - rewrite (is_boundary_place st1 st2 Hst). destruct (is_boundary st2); [|tauto].
    apply Hk. exact Hst.
  - discriminate Hb.
  - pose proof Hst as [Hr _]. rewrite Hr. destruct (rest st2); [|tauto].
    apply Hk. exact Hst.
  - apply andb_prop in Hb. destruct Hb as [B1 B2].
    apply IH1; [exact B1 | | exact Hst].
    intros a b Hab. apply IH2; assumption.
  - apply andb_prop in Hb. destruct Hb as [B1 B2]. rewrite !or_none.
    pose proof (IH1 B1 k1 k2 st1 st2 Hk Hst).
    pose proof (IH2 B2 k1 k2 st1 st2 Hk Hst). tauto.
  - destruct Hst as [Hr Hp]. rewrite Hr.
    apply rep_place; [|exact Hk | split; assumption].
    intros c1 c2 s1 s2 Hc Hs. apply IH1; assumption.
  - apply IH1; [exact Hb | | exact Hst].
    intros a b Hab. apply Hk. destruct Hab as [Hr Hp]. split; assumption.
Qed.

Lemma match_here_place ic r p1 p2 s :
  bol_free r = true -> is_word_opt p1 = is_word_opt p2 ->
  (match_here ic r p1 s = None <-> match_here ic r p2 s = None).
Proof.
  intros Hb Hp. unfold match_here. apply m_place; [exact Hb | |split; auto].
  intros a b _. split; discriminate.
Qed.

Lemma exec_from_place ic r p1 p2 s :
  bol_free r = true -> is_word_opt p1 = is_word_opt p2 ->
  exec_from ic r p1 s <> None -> exec_from ic r p2 s <> None.
Proof.
  intros Hb Hp H. destruct s as [|c s]; cbn [exec_from] in *.
  - destruct (match_here ic r p1 EmptyString) eqn:E1; [|congruence].
    destruct (match_here ic r p2 EmptyString) eqn:E2; [discriminate|].
    apply (match_here_place ic r p1 p2 EmptyString Hb Hp) in E2. congruence.
  - destruct (match_here ic r p2 (String c s)) eqn:E2; [discriminate|].
    apply (match_here_place ic r p1 p2 (String c s) Hb Hp) in E2.
    rewrite E2 in H. exact H.
Qed.

Lemma exec_from_app_search ic r a b :
  forall p,
    exec_from ic r (prev_after p a) b <> None ->
    exec_from ic r p (a ++ b) <> None.
Proof.
  induction a as [|c a IH]; intros p H.
  - exact H.
  - cbn [append exec_from].
    destruct (match_here ic r p (String c (a ++ b))); [discriminate|].
    apply IH. rewrite <- (prev_after_cons p). exact H.
Qed.

(** A text put in front of a line break keeps every match. *)
Lemma test_prepend_line r l t :
  bol_free r = true ->
  test false r t = true -> test false r (l ++ Str.nl ++ t) = true.
Proof.
  intros Hb H. unfold test, exec in *.
  destruct (exec_from false r None t) eqn:E; [|discriminate H].
  assert (N : exec_from false r None ((l ++ Str.nl) ++ t) <> None).
  { apply exec_from_app_search.
    apply (exec_from_place false r None _ t Hb); [|congruence].
    unfold prev_after, Str.nl. rewrite last_app_cons. reflexivity. }
  rewrite append_assoc in N.
  destruct (exec_from false r None (l ++ Str.nl ++ t)); [reflexivity|congruence].
Qed.

(** *** The uniform table *)

Lemma uniforms_declare : Forall declares uniforms.
Proof.
  unfold uniforms.
  repeat (constructor;
          [split; [reflexivity|];
           intros t; apply test_here; cbn [fst snd]; vm_compute; discriminate|]).
  constructor.
Qed.

Lemma addUniform_keeps r u acc :
  bol_free r = true ->
  test false r (fst acc) = true ->
  test false r (fst (addUniform u acc)) = true.
Proof.
  intros Hb H. destruct acc as [out n]. unfold addUniform. cbn [fst] in *.
  destruct (negb (test false (fst u) out)); cbn [fst]; [|exact H].
  apply test_prepend_line; assumption.
Qed.

Lemma fold_addUniform_keeps r us :
  bol_free r = true ->
  forall acc,
    test false r (fst acc) = true ->
    test false r (fst (fold_left (fun acc u => addUniform u acc) us acc)) = true.
Proof.
  intros Hb. induction us as [|u us IH]; intros acc H; [exact H|].
  cbn [fold_left]. apply IH. apply addUniform_keeps; assumption.
Qed.

Lemma addUniform_declares u acc :
  declares u -> test false (fst u) (fst (addUniform u acc)) = true.
Proof.
  intros [_ Hd]. destruct acc as [out n]. unfold addUniform.
  destruct (test false (fst u) out) eqn:E; cbn [negb fst]; [exact E | apply Hd].
Qed.

(** After the step every declaration of the table is found. *)
Lemma fold_addUniform_declared us :
  Forall declares us ->
  forall acc,
    Forall (fun u => test false (fst u)
                       (fst (fold_left (fun acc u => addUniform u acc) us acc))
                     = true) us.
Proof.
  intros H. induction H as [|u us Hu Hus IH]; intros acc; [constructor|].
  cbn [fold_left]. constructor.
  - apply fold_addUniform_keeps; [apply Hu|]. apply addUniform_declares. exact Hu.
  - apply IH.
Qed.

Lemma fold_addUniform_fixed us :
  forall out n,
    Forall (fun u : regex * string => test false (fst u) out = true) us ->
    fold_left (fun acc u => addUniform u acc) us (out, n) = (out, n).
Proof.
  induction us as [|u us IH]; intros out n H; [reflexivity|].
  inversion H as [|? ? Hu Hus]; subst. cbn [fold_left].
  unfold addUniform at 2. rewrite Hu. cbn [negb]. apply IH. exact Hus.
Qed.

Lemma uniformsText_fixed t :
  fold_left (fun acc u => addUniform u acc) uniforms (uniformsText t, 0)
  = (uniformsText t, 0).
Proof.
  apply fold_addUniform_fixed. unfold uniformsText.
  apply fold_addUniform_declared. exact uniforms_declare.
Qed.

Lemma precision_line_found t :
  test false rx_precision ("precision mediump float;" ++ Str.nl ++ t) = true.
Proof. apply test_here. vm_compute. discriminate. Qed.

End IsolationFacts.

(** ** Two repairs in a row *)

Module IdempotenceFacts.

Import Fixer PageFacts SearchFacts RegexFacts OccursFacts ReplaceFacts
  TextureFacts LegacyFacts CaptureFacts StepFacts PipelineFacts IsolationFacts.
Local Open Scope string_scope.
Local Open Scope nat_scope.

Lemma ensurePrecision_settles : settles ensurePrecision precisionText.
Proof.
  intros t w. unfold ensurePrecision, precisionText. split.
  - destruct (test false rx_precision t); reflexivity.
  - destruct (test false rx_precision t) eqn:E; cbn [negb].
    + rewrite E. reflexivity.
    + rewrite precision_line_found. reflexivity.
Qed.

Lemma ensureUniforms_settles : settles ensureUniforms uniformsText.
Proof.
  intros t w. split.
  - unfold ensureUniforms, uniformsText.
    destruct (fold_left (fun acc u => addUniform u acc) uniforms (t, 0))
      as [out added].
    destruct (0 <? added); reflexivity.
  - unfold ensureUniforms. rewrite uniformsText_fixed. reflexivity.
Qed.

Lemma modernizeTexture_settles : settles modernizeTexture textureText.
Proof.
  intros t w. split.
  - unfold modernizeTexture, textureText.
    destruct (test false rx_texture2D t); reflexivity.
  - unfold modernizeTexture.
    assert (E : test false rx_texture2D (textureText t) = false).
    { unfold rx_texture2D. rewrite test_lit. apply free_textureText. }
    rewrite E. reflexivity.
Qed.

Lemma ensureMain_settles : settles ensureMain mainText.
Proof.
  intros t w. unfold ensureMain, mainText. split.
  - destruct (test false rx_main t); reflexivity.
  - destruct (test false rx_main t) eqn:E; cbn [negb].
    + rewrite E. reflexivity.
    + rewrite test_main_after_fallback. reflexivity.
Qed.

Lemma second_run_no_texture_entry x :
  ~ In entry_texture (second_run_trace (JStr x)).
Proof.
  unfold second_run_trace, trace_of. rewrite repair_string, smartFixShader_run.
  unfold state_of. cbn [snd mainLog page0]. rewrite <- in_rev. intros H.
  apply in_inv in H. destruct H as [H|H]; [discriminate H|].
  apply in_app_or in H. destruct H as [H|H].
  - apply texture_entry_in_repairLog in H.
    rewrite second_run_texture_test in H. discriminate H.
  - apply in_inv in H. destruct H as [H|H]; [discriminate H | contradiction].
Qed.

(** C8, as amended: a second repair in a row never converts a legacy
    texture call again, since the text a repair returns contains no
    [texture2D(]; each of the precision, uniform, texture and entry-point
    steps, run on its own on the text it has just returned, returns it
    unchanged and logs nothing; and on the sample source the second repair
    logs none of the four steps. *)
Theorem second_repair_never_converts_texture_again :
  (forall x, ~ In entry_texture (second_run_trace (JStr x)))
  /\ (forall x w,
        value_of (smartFixShader (JStr x) w)
        = Ret (JStr (repairText (normalizeNewlines x)))
        /\ Str.includes legacy_call (repairText (normalizeNewlines x)) = false)
  /\ settles ensurePrecision precisionText
  /\ settles ensureUniforms uniformsText
  /\ settles modernizeTexture textureText
  /\ settles ensureMain mainText
  /\ second_run_is_quiet sample_source.
Proof.
  split; [exact second_run_no_texture_entry|].
  split.
  { intros x w. split.
    - rewrite smartFixShader_run. reflexivity.
    - apply free_repairText. }
  split; [exact ensurePrecision_settles|].
  split; [exact ensureUniforms_settles|].
  split; [exact modernizeTexture_settles|].
  split; [exact ensureMain_settles|].
  assert (E : second_run_trace (JStr sample_source)
              = [("OK", "Starting smartFixShader pass"); entry_semicolons;
                 entry_divisions; entry_done]) by (vm_compute; reflexivity).
  unfold second_run_is_quiet. rewrite E.
  split; [|split; [|split]].
  - intros [H|[H|[H|[H|[]]]]]; discriminate H.
  - intros e [H|[H|[H|[H|[]]]]]; subst e; reflexivity.
  - intros [H|[H|[H|[H|[]]]]]; discriminate H.
  - intros [H|[H|[H|[H|[]]]]]; discriminate H.
Qed.

(** C8, as stated, fails: after a source that ends in an open comment the
    second repair appends the fallback entry point again; after a source
    whose precision statement, or whose uniform declaration, is split over
    two lines it inserts the precision line, or the uniform, again. *)
Lemma second_repair_repeats_steps :
  In entry_main (second_run_trace (JStr dangling_comment))
  /\ In entry_precision (second_run_trace (JStr split_precision))
  /\ In (uniformsEntry 1) (second_run_trace (JStr split_uniform))
  /\ is_entry_uniforms (uniformsEntry 1) = true
  /\ ~ (forall x, second_run_is_quiet x).
Proof.
  assert (Hm : In entry_main (second_run_trace (JStr dangling_comment))).
  { vm_compute. tauto. }
  split; [exact Hm|].
  split; [vm_compute; tauto|].
  split; [vm_compute; tauto|].
  split; [reflexivity|].
  intros H. destruct (H dangling_comment) as (_ & _ & _ & Hq). exact (Hq Hm).
Qed.

End IdempotenceFacts.

(** ** Counting code units through a replacement *)

Module CountFacts.

Import Fixer SearchFacts RegexFacts OccursFacts ReplaceFacts.
Local Open Scope string_scope.
Local Open Scope nat_scope.

Lemma count_char_app c a b :
  Str.count_char c (a ++ b) = Str.count_char c a + Str.count_char c b.
Proof.
  induction a as [|d a IH]; [reflexivity|]. cbn [append Str.count_char].
  rewrite IH. lia.
Qed.

Lemma count_char_repeat c d n :
  Str.count_char c (Str.repeat (String d EmptyString) n)
  = if Ascii.eqb c d then n else 0.
Proof.
  induction n as [|n IH]; cbn [Str.repeat append Str.count_char].
  - destruct (Ascii.eqb c d); reflexivity.
  - rewrite IH. destruct (Ascii.eqb c d); reflexivity.
Qed.

Lemma count_char_none c s :
  all_chars (fun x => negb (Ascii.eqb c x)) s = true -> Str.count_char c s = 0.
Proof.
  induction s as [|d s IH]; [reflexivity|]. cbn [all_chars Str.count_char].
  intros H. apply andb_prop in H. destruct H as [H1 H2].
  destruct (Ascii.eqb c d); [discriminate H1|]. rewrite (IH H2). reflexivity.
Qed.

Lemma match_here_chr c p s :
  match_here false (Chr c) p s
  = match s with
    | String d s' =>
        if Ascii.eqb c d then Some (MState (Some d) s' []) else None
    | EmptyString => None
    end.
Proof.
  unfold match_here. cbn [m canonicalize]. unfold step_char. cbn [rest caps].
  destruct s; reflexivity.
Qed.

Lemma succ_minus n : S n - n = 1.
Proof. lia. Qed.

(** [(s.match(/c/g) || []).length] counts the code units [c]. *)
Lemma count_from_chr c s :
  forall fuel p,
    String.length s < fuel ->
    count_from fuel false (Chr c) p s = Str.count_char c s.
Proof.
  induction s as [|d s IH]; intros fuel p Hf;
    (destruct fuel as [|fuel]; [inversion Hf|]);
    cbn [count_from]; rewrite match_here_chr.
  - reflexivity.
  - cbn [String.length] in Hf. cbn [Str.count_char].
    destruct (Ascii.eqb c d).
    + cbn [rest prev String.length]. rewrite succ_minus. cbn [Nat.eqb].
      rewrite IH by lia. reflexivity.
    + rewrite IH by lia. reflexivity.
Qed.

Lemma match_count_chr c s : match_count false (Chr c) s = Str.count_char c s.
Proof. unfold match_count. apply count_from_chr. lia. Qed.

(** [s.replace(/c/g, r)] puts [r] for every code unit [c]. *)
Lemma replace_from_chr c r s :
  forall fuel p,
    String.length s < fuel ->
    replace_from fuel false (Chr c) (fun _ _ => r) p s = subst c r s.
Proof.
  induction s as [|d s IH]; intros fuel p Hf;
    (destruct fuel as [|fuel]; [inversion Hf|]);
    cbn [replace_from]; rewrite match_here_chr.
  - reflexivity.
  - cbn [String.length] in Hf. cbn [subst].
    destruct (Ascii.eqb c d).
    + cbn [rest prev String.length]. rewrite succ_minus. cbn [Nat.eqb].
      rewrite IH by lia. reflexivity.
    + rewrite IH by lia. reflexivity.
Qed.

Lemma replace_all_chr c r s :
  replace_all false (Chr c) (fun _ _ => r) s = subst c r s.
Proof. unfold replace_all. apply replace_from_chr. lia. Qed.

Lemma count_char_subst c x r s :
  Str.count_char x (subst c r s)
  = Str.count_char c s * Str.count_char x r
    + (if Ascii.eqb x c then 0 else Str.count_char x s).
Proof.
  induction s as [|d s IH]; cbn [subst Str.count_char].
  - destruct (Ascii.eqb x c); reflexivity.
  - rewrite count_char_app, IH.
    destruct (Ascii.eqb_spec c d) as [->|Hcd].
    + destruct (Ascii.eqb_spec x d) as [->|Hxd]; lia.
    + cbn [Str.count_char].
      destruct (Ascii.eqb_spec x c) as [->|Hxc].
      * destruct (Ascii.eqb_spec c d); [contradiction|]. lia.
      * destruct (Ascii.eqb x d); lia.
Qed.

(** The matched text of a successful attempt. *)
Lemma matched_text ic r p s st :
  match_here ic r p s = Some st ->
  exists w, s = w ++ rest st
            /\ Str.take (String.length s - String.length (rest st)) s = w.
Proof.
  intros H. apply match_here_suffix in H. destruct H as (w & E).
  exists w. subst s. split; [reflexivity | apply take_app_exact].
Qed.

Lemma matched_text_chars ok ic r p s st :
  consumes_only ok ic r ->
  match_here ic r p s = Some st ->
  all_chars ok (Str.take (String.length s - String.length (rest st)) s) = true.
Proof.
  intros Hok H. apply match_here_sound in H.
  apply (Matches_consumes ok ic r Hok) in H. destruct H as (w & E & A).
  cbn [rest] in E. subst s. rewrite take_app_exact. exact A.
Qed.

(** When every replacement holds [d] more code units [c] than the text it
    replaces, the result holds [d] more for each match. *)
Lemma count_replace_from c d ic r f :
  (forall p s st,
     match_here ic r p s = Some st ->
     Str.count_char c
       (f (Str.take (String.length s - String.length (rest st)) s) st)
     = Str.count_char c
         (Str.take (String.length s - String.length (rest st)) s) + d) ->
  forall fuel p s,
    Str.count_char c (replace_from fuel ic r f p s)
    = Str.count_char c s + d * count_from fuel ic r p s.
Proof.
  intros Hf. induction fuel as [|fuel IH]; intros p s;
    cbn [replace_from count_from]; [lia|].
  destruct (match_here ic r p s) as [st|] eqn:E.
  - pose proof (Hf p s st E) as Hc.
    destruct (matched_text ic r p s st E) as (w & Es & Et).
    destruct (String.length s - String.length (rest st) =? 0) eqn:En.
    + apply Nat.eqb_eq in En. rewrite En in Hc.
      assert (T0 : Str.take 0 s = EmptyString) by (destruct s; reflexivity).
      rewrite T0 in Hc. cbn [Str.count_char] in Hc. rewrite En, T0.
      destruct s as [|ch s'].
      * rewrite Hc. cbn [Str.count_char]. lia.
      * rewrite count_char_app. cbn [Str.count_char]. rewrite IH, Hc. lia.
    + rewrite Et in Hc. rewrite Et, count_char_app, IH, Hc.
      assert (Ec : Str.count_char c s
                   = Str.count_char c w + Str.count_char c (rest st))
        by (rewrite Es at 1; apply count_char_app).
      lia.
  - destruct s as [|ch s']; [cbn [Str.count_char]; lia|].
    cbn [Str.count_char]. rewrite IH. lia.
Qed.

(** A constant replacement without [c], for a pattern that cannot consume
    [c], keeps the number of [c]. *)
Lemma count_replace_constant c ic r rep s :
  consumes_only (fun x => negb (Ascii.eqb c x)) ic r ->
  Str.count_char c rep = 0 ->
  Str.count_char c (replace_all ic r (fun _ _ => rep) s) = Str.count_char c s.
Proof.
  intros Hok Hrep. unfold replace_all.
  rewrite (count_replace_from c 0 ic r (fun _ _ => rep)); [lia|].
  intros p s' st E. rewrite Hrep.
  rewrite (count_char_none c _ (matched_text_chars _ ic r p s' st Hok E)).
  reflexivity.
Qed.

End CountFacts.

(** ** What every repaired text has *)

Module OutputFacts.

Import Fixer PageFacts SearchFacts RegexFacts OccursFacts ReplaceFacts
  CaptureFacts StepFacts PipelineFacts RemediateFacts CountFacts.
Local Open Scope string_scope.
Local Open Scope nat_scope.

(** A statement about every code unit, checked on each of them. *)
Ltac each_char :=
  let c := fresh "c" in
  intros c; destruct c as [[] [] [] [] [] [] [] []];
  vm_compute; intros; first [reflexivity | discriminate | congruence].

Lemma count_char_excluded (ok : ascii -> bool) c s :
  ok c = false -> all_chars ok s = true -> Str.count_char c s = 0.
Proof.
  intros Hc. induction s as [|d s IH]; [reflexivity|].
  cbn [all_chars Str.count_char]. intros H. apply andb_prop in H.
  destruct H as [H1 H2]. rewrite (IH H2).
  destruct (Ascii.eqb_spec c d) as [->|_]; [congruence | reflexivity].
Qed.

(** *** Steps 6 *)

Lemma bracesText_closed out : closed "{" "}" (bracesText out).
Proof.
  unfold closed, bracesText, rx_lbrace, rx_rbrace. rewrite !match_count_chr.
  destruct (Str.count_char "}" out <? Str.count_char "{" out) eqn:E.
  - apply Nat.ltb_lt in E. rewrite !count_char_app.
    rewrite !(count_char_repeat _ "}"). cbn. lia.
  - apply Nat.ltb_ge in E. exact E.
Qed.

Lemma bracesText_parens c out :
  Ascii.eqb c "}" = false -> Ascii.eqb c Chars.NL = false ->
  Str.count_char c (bracesText out) = Str.count_char c out.
Proof.
  intros H1 H2. unfold bracesText.
  destruct (_ <? _); [|reflexivity].
  rewrite !count_char_app, (count_char_repeat _ "}"), H1.
  unfold Str.nl. cbn [Str.count_char]. rewrite H2. lia.
Qed.

Lemma parensText_closed out : closed "(" ")" (parensText out).
Proof.
  unfold closed, parensText, rx_lparen, rx_rparen. rewrite !match_count_chr.
  destruct (Str.count_char ")" out <? Str.count_char "(" out) eqn:E.
  - apply Nat.ltb_lt in E. rewrite !count_char_app.
    rewrite !(count_char_repeat _ ")"). cbn. lia.
  - apply Nat.ltb_ge in E. exact E.
Qed.

Lemma parensText_braces c out :
  Ascii.eqb c ")" = false ->
  Str.count_char c (parensText out) = Str.count_char c out.
Proof.
  intros H1. unfold parensText.
  destruct (_ <? _); [|reflexivity].
  rewrite !count_char_app, (count_char_repeat _ ")"), H1. lia.
Qed.

(** *** Step 7 *)

Lemma plain_word c : plain c = false -> is_word c = false.
Proof. revert c. each_char. Qed.

Lemma replacePlaceholders_count c out :
  plain c = false ->
  Str.count_char c (replacePlaceholders out) = Str.count_char c out.
Proof.
  intros Hp. pose proof (plain_word c Hp) as Hc. unfold replacePlaceholders.
  assert (Hrep : Str.count_char c "0.0" = 0).
  { apply (count_char_excluded plain c); [exact Hp | reflexivity]. }
  assert (Hok : forall l,
             all_chars is_word l = true ->
             consumes_only (fun x => negb (Ascii.eqb c x)) false
               (seq [WordB; lit l; WordB])).
  { intros l Hl. cbn [seq consumes_only]. split; [exact I|]. split; [|exact I].
    induction l as [|a l IH]; [exact I|].
    cbn [all_chars] in Hl. apply andb_prop in Hl. destruct Hl as [Ha Hl].
    assert (Hchr : consumes_only (fun x => negb (Ascii.eqb c x)) false (Chr a)).
    { cbn [consumes_only canonicalize]. intros x Hx.
      apply Ascii.eqb_eq in Hx. subst x.
      destruct (Ascii.eqb_spec c a) as [->|_]; [congruence | reflexivity]. }
    destruct l as [|b l]; [exact Hchr|].
    change (lit (String a (String b l))) with (Seq (Chr a) (lit (String b l))).
    split; [exact Hchr | exact (IH Hl)]. }
  rewrite (count_replace_constant c false rx_NULL "0.0");
    [|apply (Hok "NULL"); reflexivity | exact Hrep].
  apply (count_replace_constant c false rx_undefined "0.0");
    [apply (Hok "undefined"); reflexivity | exact Hrep].
Qed.

(** *** Step 8 *)

Lemma vec_init_consumes : consumes_only plain false rx_vec_init.
Proof.
  unfold rx_vec_init, ident_start.
  cbn [seq consumes_only lit plus star opt sp word canonicalize].
  repeat split; each_char.
Qed.

(** The three groups of a match of the vector pattern are made of the code
    units of identifiers and numbers. *)
Lemma vec_init_parts q s st :
  match_here false rx_vec_init q s = Some st ->
  all_chars literal_char (cap 1 st) = true
  /\ all_chars literal_char (cap 2 st) = true
  /\ all_chars literal_char (cap 3 st) = true.
Proof.
  intros H. apply match_here_sound in H.
  unfold rx_vec_init in H. cbn [seq] in H.
  apply Matches_seq in H. destruct H as (s0 & H0 & H).
  apply Matches_seq in H. destruct H as (s1 & H1 & H).
  apply Matches_seq in H. destruct H as (s2 & H2 & H).
  apply Matches_seq in H. destruct H as (s3 & H3 & H).
  apply Matches_seq in H. destruct H as (s4 & H4 & H).
  apply Matches_seq in H. destruct H as (s5 & H5 & H).
  apply Matches_seq in H. destruct H as (s6 & H6 & H).
  apply Matches_seq in H. destruct H as (s7 & H7 & H).
  apply Matches_seq in H. destruct H as (s8 & H8 & H9).
  caps_of H0 C0. cbn [caps] in C0.
  apply (Matches_group literal_char) in H1;
    [|cbn [consumes_only lit canonicalize]; repeat split; each_char
     |reflexivity].
  destruct H1 as (g1 & _ & A1 & C1). rewrite C0 in C1.
  caps_of H2 C2. rewrite C1 in C2.
  unfold ident_start in H3.
  apply (Matches_group literal_char) in H3;
    [|cbn [consumes_only star word]; repeat split; each_char | reflexivity].
  destruct H3 as (g2 & _ & A2 & C3). rewrite C2 in C3.
  caps_of H4 C4. rewrite C3 in C4.
  caps_of H5 C5. rewrite C4 in C5.
  caps_of H6 C6. rewrite C5 in C6.
  apply (Matches_group literal_char) in H7;
    [|cbn [consumes_only plus opt canonicalize]; repeat split; each_char
     |reflexivity].
  destruct H7 as (g3 & _ & A3 & C7). rewrite C6 in C7.
  caps_of H8 C8. rewrite C7 in C8.
  caps_of H9 C9. rewrite C8 in C9.
  unfold cap. rewrite C9. cbn [capture Nat.eqb]. auto.
Qed.

Lemma plain_literal c : plain c = false -> literal_char c = false.
Proof. revert c. each_char. Qed.

(** Each rewritten initialiser holds one more [(] and one more [)] than
    the text it replaces, and no brace. *)
Lemma coerceVecInit_count c out :
  plain c = false ->
  Str.count_char c (coerceVecInit out)
  = Str.count_char c out
    + (if Ascii.eqb c "(" || Ascii.eqb c ")" then 1 else 0)
      * match_count false rx_vec_init out.
Proof.
  intros Hc. unfold coerceVecInit, replace_all, match_count.
  apply count_replace_from. intros p s st E.
  rewrite (count_char_excluded plain c _ Hc
             (matched_text_chars plain false rx_vec_init p s st
                vec_init_consumes E)).
  destruct (vec_init_parts p s st E) as (A1 & A2 & A3).
  unfold vecInitReplacement.
  rewrite !count_char_app.
  rewrite !(count_char_excluded literal_char c _ (plain_literal c Hc) A1),
    (count_char_excluded literal_char c _ (plain_literal c Hc) A2),
    (count_char_excluded literal_char c _ (plain_literal c Hc) A3).
  revert Hc. destruct c as [[] [] [] [] [] [] [] []]; vm_compute;
    intros; first [reflexivity | discriminate].
Qed.

(** *** Step 9 *)

Lemma mainText_has_main out : test false rx_main (mainText out) = true.
Proof.
  unfold mainText. destruct (test false rx_main out) eqn:E; cbn [negb].
  - exact E.
  - apply test_main_after_fallback.
Qed.

Lemma mainText_closed o c out :
  Str.count_char o fallback_main = Str.count_char c fallback_main ->
  closed o c out -> closed o c (mainText out).
Proof.
  unfold closed, mainText. intros Hf H.
  destruct (negb (test false rx_main out)); [|exact H].
  rewrite !count_char_app, Hf. lia.
Qed.

(** *** The whole pipeline *)

Lemma repairText_closed out :
  closed "{" "}" (repairText out) /\ closed "(" ")" (repairText out).
Proof.
  unfold repairText.
  set (t := guardDivisions (semicolonsText (textureText (textBeforeTexture out)))).
  split.
  - apply mainText_closed; [reflexivity|]. unfold closed.
    rewrite !coerceVecInit_count by reflexivity.
    rewrite !replacePlaceholders_count by reflexivity.
    rewrite !parensText_braces by reflexivity.
    pose proof (bracesText_closed t) as H.
    unfold closed in H.
    change (Ascii.eqb "{" "(" || Ascii.eqb "{" ")") with false.
    change (Ascii.eqb "}" "(" || Ascii.eqb "}" ")") with false. lia.
  - apply mainText_closed; [reflexivity|]. unfold closed.
    rewrite !coerceVecInit_count by reflexivity.
    rewrite !replacePlaceholders_count by reflexivity.
    pose proof (parensText_closed (bracesText t)) as H. unfold closed in H.
    change (Ascii.eqb "(" "(" || Ascii.eqb "(" ")") with true.
    change (Ascii.eqb ")" "(" || Ascii.eqb ")" ")") with true. lia.
Qed.

End OutputFacts.

(** ** Lines: [split('\n')], [join('\n')] and the semicolon pass *)

Module LineFacts.

Import Fixer PageFacts SearchFacts RegexFacts OccursFacts ReplaceFacts
  LegacyFacts CountFacts.
Local Open Scope string_scope.
Local Open Scope nat_scope.

Lemma join_nl_cons x l :
  l <> [] -> Str.join_nl (x :: l) = x ++ Str.nl ++ Str.join_nl l.
Proof. destruct l; [congruence | reflexivity]. Qed.

(** [s.split('\n').join('\n')] is [s]. *)
Lemma join_split s : Str.join_nl (Str.split_nl s) = s.
Proof.
  induction s as [|c s IH]; [reflexivity|]. cbn [Str.split_nl].
  destruct (Ascii.eqb_spec c NL) as [->|Hc].
  - rewrite join_nl_cons by apply split_nl_nonempty. rewrite IH. reflexivity.
  - destruct (Str.split_nl s) as [|h t] eqn:E;
      [exfalso; exact (split_nl_nonempty s E)|].
    destruct t as [|h' t'].
    + cbn [Str.join_nl] in *. rewrite IH. reflexivity.
    + rewrite join_nl_cons in * by discriminate.
      cbn [append]. rewrite IH. reflexivity.
Qed.

Lemma split_nl_line x :
  Str.count_char NL x = 0 -> Str.split_nl x = [x].
Proof.
  induction x as [|c x IH]; [reflexivity|]. cbn [Str.count_char Str.split_nl].
  rewrite (Ascii.eqb_sym c NL).
  destruct (Ascii.eqb NL c); [discriminate|]. intros H.
  rewrite (IH H). reflexivity.
Qed.

Lemma split_nl_app x s :
  Str.count_char NL x = 0 ->
  Str.split_nl (x ++ Str.nl ++ s) = x :: Str.split_nl s.
Proof.
  induction x as [|c x IH]; [reflexivity|].
  cbn [Str.count_char append Str.split_nl]. rewrite (Ascii.eqb_sym c NL).
  destruct (Ascii.eqb NL c); [discriminate|]. intros H.
  rewrite (IH H). reflexivity.
Qed.

(** [l.join('\n').split('\n')] is [l] for lines without a line break. *)
Lemma split_join l :
  l <> [] -> Forall (fun x => Str.count_char NL x = 0) l ->
  Str.split_nl (Str.join_nl l) = l.
Proof.
  induction l as [|x l IH]; [congruence|]. intros _ H.
  inversion H as [|? ? Hx Hl]; subst.
  destruct l as [|y l].
  - cbn [Str.join_nl]. apply split_nl_line. exact Hx.
  - rewrite join_nl_cons by discriminate.
    rewrite split_nl_app by exact Hx. rewrite IH; [reflexivity|discriminate|exact Hl].
Qed.

Lemma split_nl_lines s :
  Forall (fun x => Str.count_char NL x = 0) (Str.split_nl s).
Proof.
  induction s as [|c s IH]; [repeat constructor|]. cbn [Str.split_nl].
  destruct (Ascii.eqb_spec c NL) as [->|Hc].
  - constructor; [reflexivity | exact IH].
  - destruct (Str.split_nl s) as [|h t]; [repeat constructor|].
    + cbn [Str.count_char]. destruct (Ascii.eqb_spec NL c); [congruence|reflexivity].
    + inversion IH as [|? ? Hh Ht]; subst. constructor; [|exact Ht].
      cbn [Str.count_char]. destruct (Ascii.eqb_spec NL c); [congruence|exact Hh].
Qed.

(** The number of lines is one more than the number of line breaks. *)
Lemma length_split_nl s :
  List.length (Str.split_nl s) = S (Str.count_char NL s).
Proof.
  induction s as [|c s IH]; [reflexivity|]. cbn [Str.split_nl Str.count_char].
  rewrite (Ascii.eqb_sym c NL). destruct (Ascii.eqb NL c).
  - cbn [List.length]. rewrite IH. reflexivity.
  - destruct (Str.split_nl s) as [|h t]; cbn [List.length] in *; lia.
Qed.

(** *** Trimming a line that ends in a semicolon *)

Lemma trimStart_semicolon ln :
  exists y, Str.trimStart (ln ++ ";") = y ++ ";".
Proof.
  induction ln as [|c ln IH].
  - exists EmptyString. reflexivity.
  - cbn [append Str.trimStart]. destruct (is_space c); [exact IH|].
    exists (String c ln). reflexivity.
Qed.

Lemma is_empty_app_semicolon y : Str.is_empty (y ++ ";") = false.
Proof. destruct y; reflexivity. Qed.

Lemma trimEnd_semicolon y : Str.trimEnd (y ++ ";") = y ++ ";".
Proof.
  induction y as [|c y IH]; [reflexivity|].
  cbn [append Str.trimEnd]. rewrite IH, is_empty_app_semicolon, andb_false_r.
  reflexivity.
Qed.

Lemma rev_acc_app a b acc :
  Str.rev_acc (a ++ b) acc = Str.rev_acc b (Str.rev_acc a acc).
Proof.
  revert acc. induction a as [|c a IH]; intros acc; [reflexivity|].
  cbn [append Str.rev_acc]. apply IH.
Qed.

Lemma endsWith_semicolon y : Str.endsWith ";" (y ++ ";") = true.
Proof.
  unfold Str.endsWith, Str.rev. rewrite rev_acc_app. reflexivity.
Qed.

Lemma trim_semicolon ln : Str.endsWith ";" (Str.trim (ln ++ ";")) = true.
Proof.
  unfold Str.trim. destruct (trimStart_semicolon ln) as (y & ->).
  rewrite trimEnd_semicolon. apply endsWith_semicolon.
Qed.

(** *** The callback of the semicolon pass *)

Lemma semicolonLine_cases ln :
  semicolonLine ln = ln \/ semicolonLine ln = ln ++ ";".
Proof.
  unfold semicolonLine.
  repeat match goal with
         | |- context [if ?b then _ else _] => destruct b
         end; auto.
Qed.

Lemma semicolonLine_semicolon ln : semicolonLine (ln ++ ";") = ln ++ ";".
Proof.
  unfold semicolonLine. rewrite trim_semicolon. cbn [negb].
  rewrite !andb_false_r.
  repeat match goal with
         | |- context [if ?b then _ else _] => destruct b
         end; reflexivity.
Qed.

Lemma semicolonLine_idempotent ln :
  semicolonLine (semicolonLine ln) = semicolonLine ln.
Proof.
  destruct (semicolonLine_cases ln) as [E|E]; rewrite E.
  - exact E.
  - apply semicolonLine_semicolon.
Qed.

Lemma semicolonLine_line ln :
  Str.count_char NL ln = 0 -> Str.count_char NL (semicolonLine ln) = 0.
Proof.
  intros H. destruct (semicolonLine_cases ln) as [E|E]; rewrite E.
  - exact H.
  - rewrite count_char_app, H. reflexivity.
Qed.

Lemma semicolon_lines s :
  Str.split_nl (semicolonsText s) = map semicolonLine (Str.split_nl s).
Proof.
  unfold semicolonsText. apply split_join.
  - destruct (Str.split_nl s) eqn:E;
      [destruct (split_nl_nonempty s E) | discriminate].
  - pose proof (split_nl_lines s) as H.
    induction H as [|x l Hx Hl IH]; constructor; [|exact IH].
    apply semicolonLine_line. exact Hx.
Qed.

Lemma semicolonsText_idempotent s :
  semicolonsText (semicolonsText s) = semicolonsText s.
Proof.
  unfold semicolonsText at 1. rewrite semicolon_lines. unfold semicolonsText.
  rewrite map_map. f_equal. apply map_ext. apply semicolonLine_idempotent.
Qed.

End LineFacts.

(** ** Line endings *)

Module NewlineFacts.

Import Fixer SearchFacts RegexFacts OccursFacts ReplaceFacts CountFacts.
Local Open Scope string_scope.
Local Open Scope nat_scope.

Lemma match_here_crlf p s :
  match_here false rx_crlf p s
  = match s with
    | String c (String d s') =>
        if Ascii.eqb CR c && Ascii.eqb NL d
        then Some (MState (Some d) s' []) else None
    | _ => None
    end.
Proof.
  unfold match_here, rx_crlf. cbn [m canonicalize]. unfold step_char.
  cbn [rest caps]. destruct s as [|c [|d s]]; [reflexivity| |].
  - destruct (Ascii.eqb CR c); reflexivity.
  - destruct (Ascii.eqb CR c); [|reflexivity]. cbn [rest caps andb].
    destruct (Ascii.eqb NL d); reflexivity.
Qed.

Lemma replace_from_crlf fuel :
  forall s p,
    String.length s < fuel ->
    replace_from fuel false rx_crlf (fun _ _ => Str.nl) p s = crlf_pass s.
Proof.
  induction fuel as [|fuel IH]; intros s p Hf; [inversion Hf|].
  cbn [replace_from]. rewrite match_here_crlf.
  destruct s as [|c [|d s]].
  - reflexivity.
  - cbn [crlf_pass]. rewrite IH by (cbn in *; lia).
    destruct fuel; [cbn in Hf; lia | reflexivity].
  - cbn [crlf_pass]. cbn [String.length] in Hf.
    destruct (Ascii.eqb CR c && Ascii.eqb NL d).
    + cbn [rest prev String.length].
      replace (S (S (String.length s)) - String.length s) with 2 by lia.
      cbn [Nat.eqb]. rewrite IH by lia. reflexivity.
    + rewrite IH by (cbn [String.length]; lia). reflexivity.
Qed.

Lemma subst_crlf_pass s :
  forall n, String.length s < n ->
  subst CR Str.nl (crlf_pass s) = newlines s.
Proof.
  intros n. revert s. induction n as [|n IH]; intros s Hn; [inversion Hn|].
  destruct s as [|c [|d s]].
  - reflexivity.
  - cbn [crlf_pass subst newlines]. rewrite (Ascii.eqb_sym c CR).
    destruct (Ascii.eqb CR c); reflexivity.
  - cbn [String.length] in Hn.
    change (crlf_pass (String c (String d s)))
      with (if Ascii.eqb CR c && Ascii.eqb NL d then String NL (crlf_pass s)
            else String c (crlf_pass (String d s))).
    change (newlines (String c (String d s)))
      with (if Ascii.eqb c CR
            then String NL (if Ascii.eqb d NL then newlines s
                            else newlines (String d s))
            else String c (newlines (String d s))).
    rewrite (Ascii.eqb_sym c CR), (Ascii.eqb_sym d NL).
    destruct (Ascii.eqb CR c) eqn:Ec; cbn [andb].
    + destruct (Ascii.eqb NL d) eqn:Ed.
      * cbn [subst]. change (Ascii.eqb CR NL) with false. cbn [append].
        rewrite (IH s) by lia. reflexivity.
      * cbn [subst]. rewrite Ec. unfold Str.nl at 1. cbn [append].
        rewrite (IH (String d s)) by (cbn [String.length]; lia). reflexivity.
    + cbn [subst]. rewrite Ec. cbn [append].
      rewrite (IH (String d s)) by (cbn [String.length]; lia). reflexivity.
Qed.

(** The two replacements of [smartFixShader]'s first statement are one pass
    over the line endings. *)
Lemma normalizeNewlines_newlines s : normalizeNewlines s = newlines s.
Proof.
  unfold normalizeNewlines, rx_cr. rewrite replace_all_chr. unfold replace_all.
  rewrite replace_from_crlf by lia.
  apply (subst_crlf_pass s (S (String.length s))). lia.
Qed.

Lemma newlines_no_cr s :
  forall n, String.length s < n -> Str.count_char CR (newlines s) = 0.
Proof.
  intros n. revert s. induction n as [|n IH]; intros s Hn; [inversion Hn|].
  destruct s as [|c s]; [reflexivity|]. cbn [String.length] in Hn.
  cbn [newlines]. rewrite (Ascii.eqb_sym c CR).
  destruct (Ascii.eqb CR c) eqn:Ec.
  - cbn [Str.count_char]. change (Ascii.eqb CR NL) with false.
    destruct s as [|d s]; [reflexivity|]. cbn [String.length] in Hn.
    destruct (Ascii.eqb d NL); apply IH; cbn [String.length]; lia.
  - cbn [Str.count_char]. rewrite Ec. apply IH. lia.
Qed.

Lemma newlines_fixed s : Str.count_char CR s = 0 -> newlines s = s.
Proof.
  induction s as [|c s IH]; [reflexivity|]. cbn [Str.count_char newlines].
  rewrite (Ascii.eqb_sym c CR). destruct (Ascii.eqb CR c); [discriminate|].
  intros H. rewrite (IH H). reflexivity.
Qed.

End NewlineFacts.

(** ** Completeness of the matcher for the existence of a match *)

Module MatcherFacts.

Import SearchFacts RegexFacts.
Local Open Scope string_scope.
Local Open Scope nat_scope.

Lemma step_char_complete (p : ascii -> bool) k st c s' :
  rest st = String c s' -> p c = true ->
  k (MState (Some c) s' (caps st)) <> None ->
  step_char p k st <> None.
Proof. intros E Hp Hk. unfold step_char. rewrite E, Hp. exact Hk. Qed.

Lemma Matches_shorter ic r st st' :
  Matches ic r st st' -> String.length (rest st') <= String.length (rest st).
Proof.
  intros H. apply Matches_suffix in H. destruct H as (w & ->).
  rewrite length_app. lia.
Qed.

Lemma rep_complete ic r1 greedy k :
  (forall k' st st1,
     Matches ic r1 st st1 -> k' st1 <> None -> m ic r1 k' st <> None) ->
  forall mn mx st st',
    Iter (Matches ic r1) mn mx st st' ->
    k st' <> None ->
    forall fuel,
      mn + String.length (rest st) < fuel ->
      rep (m ic r1) greedy k fuel mn mx st <> None.
Proof.
  intros Hbody mn mx st st' H.
  induction H as [mn mx st Hstop|mn mx st st1 st2 Hmx HR Hne Hit IH];
    intros Hk fuel Hf; (destruct fuel as [|fuel]; [inversion Hf|]);
    cbn [rep].
  - destruct (max_is_zero mx) eqn:Emx; [exact Hk|].
    destruct Hstop as [->|Hz]; [|congruence]. cbn [Nat.ltb Nat.leb].
    destruct greedy.
    + destruct (m ic r1 _ st); [discriminate | exact Hk].
    + destruct (k st); [discriminate | congruence].
  - rewrite Hmx.
    assert (Hiter :
      m ic r1
        (fun st' =>
           if (mn =? 0) && (String.length (rest st') =? String.length (rest st))
           then None
           else rep (m ic r1) greedy k fuel (pred mn) (max_pred mx) st') st
      <> None).
    { apply (Hbody _ st st1 HR).
      pose proof (Matches_shorter ic r1 st st1 HR) as Hle.
      destruct (mn =? 0) eqn:Emn; cbn [andb].
      - apply Nat.eqb_eq in Emn. specialize (Hne Emn).
        destruct (String.length (rest st1) =? String.length (rest st)) eqn:El;
          [apply Nat.eqb_eq in El; contradiction|].
        apply IH; [exact Hk | lia].
      - apply Nat.eqb_neq in Emn. apply IH; [exact Hk | lia]. }
    destruct (0 <? mn); [exact Hiter|].
    destruct greedy.
    + destruct (m ic r1 _ st); [discriminate | contradiction].
    + destruct (k st); [discriminate | exact Hiter].
Qed.

(** When some way of matching the pattern leads to a state from which the
    continuation succeeds, the matcher succeeds. *)
Lemma m_complete ic r :
  forall k st st',
    Matches ic r st st' -> k st' <> None -> m ic r k st <> None.
Proof.
  induction r as [ |a| |neg items| | | |r1 IH1 r2 IH2|r1 IH1 r2 IH2
                  |mn mx greedy r1 IH1|n r1 IH1];
    intros k st st' H Hk; cbn [m]; cbn [Matches] in H.
  - subst st'. exact Hk.
  - destruct H as (c & s' & E & Hp & ->).
    apply (step_char_complete _ k st c s' E Hp Hk).
  - destruct H as (c & s' & E & Hp & ->).
    apply (step_char_complete _ k st c s' E); [rewrite Hp; reflexivity | exact Hk].
  - destruct H as (c & s' & E & Hp & ->).
    apply (step_char_complete _ k st c s' E Hp Hk).
  - destruct H as [Hb ->]. rewrite Hb. exact Hk.
  - destruct H as [Hb ->]. rewrite Hb. exact Hk.
  - destruct H as [Hb ->]. rewrite Hb. exact Hk.
  - destruct H as (st1 & H1 & H2).
    apply (IH1 _ st st1 H1). apply (IH2 _ st1 st' H2 Hk).
  - destruct (m ic r1 k st) eqn:E; [discriminate|].
    destruct H as [H|H].
    + exfalso. exact (IH1 k st st' H Hk E).
    + apply (IH2 k st st' H Hk).
  - apply (rep_complete ic r1 greedy k IH1 mn mx st st' H Hk). lia.
  - destruct H as (st1 & H1 & ->).
    apply (IH1 _ st st1 H1). exact Hk.
Qed.

Lemma match_here_complete ic r p s st' :
  Matches ic r (MState p s []) st' -> match_here ic r p s <> None.
Proof.
  intros H. unfold match_here. apply (m_complete ic r _ _ st' H). discriminate.
Qed.

End MatcherFacts.

(** Building a way of matching, greedily, for a text with a known start. *)
Module Derive.

Import SearchFacts RegexFacts.
Local Open Scope string_scope.
Local Open Scope nat_scope.

Ltac matches :=
  cbn [Matches rest prev caps append];
  lazymatch goal with
  | |- exists c s', _ = String c s' /\ _ /\ _ =>
      eexists _, _; split;
      [reflexivity | split; [vm_compute; reflexivity | reflexivity]]
  | |- exists st1, _ /\ _ =>
      eexists; split; [matches | matches]
  | |- Iter _ _ _ _ _ =>
      first [ eapply Iter_more;
              [ reflexivity
              | matches
              | intros _; cbn [rest String.length append]; lia
              | cbn [pred max_pred]; matches ]
            | apply Iter_stop; first [left; reflexivity | right; reflexivity] ]
  | |- _ /\ _ = _ => split; [vm_compute; reflexivity | reflexivity]
  | |- _ = _ => reflexivity
  | |- ?G => fail 1000 "no way to match" G
  end.

End Derive.

(** ** The division guard *)

Module DivisionFacts.

Import Fixer SearchFacts RegexFacts OccursFacts ReplaceFacts CaptureFacts
  CountFacts OutputFacts MatcherFacts Derive.
Local Open Scope string_scope.
Local Open Scope nat_scope.

(** The denominator never starts with a digit, so a match is always guarded. *)
Lemma divisionGuard_guards q s st m0 :
  match_here false rx_division q s = Some st ->
  divisionGuard m0 st = "/ max(" ++ cap 1 st ++ ", 0.000001)" ++ cap 2 st.
Proof.
  intros H. destruct (division_captures q s st H)
    as (c0 & w & g2 & E1 & E2 & Hd & _).
  unfold divisionGuard. rewrite E1, test_leading_digit, Hd. reflexivity.
Qed.

Lemma division_consumes : consumes_only division_char false rx_division.
Proof.
  unfold rx_division, ident_start.
  cbn [seq consumes_only lit plus star opt sp word canonicalize].
  repeat split; each_char.
Qed.

Lemma division_parts q s st :
  match_here false rx_division q s = Some st ->
  all_chars denominator_char (cap 1 st) = true
  /\ all_chars denominator_char (cap 2 st) = true.
Proof.
  intros H. apply match_here_sound in H.
  unfold rx_division in H. cbn [seq] in H.
  apply Matches_seq in H. destruct H as (s1 & H1 & H).
  apply Matches_seq in H. destruct H as (s2 & H2 & H).
  apply Matches_seq in H. destruct H as (s3 & H3 & H).
  apply Matches_seq in H. destruct H as (s4 & H4 & H5).
  caps_of H1 C1. caps_of H2 C2. caps_of H3 C3.
  cbn [caps] in C1. rewrite C1 in C2. rewrite C2 in C3.
  unfold ident_start in H4.
  apply (Matches_group denominator_char) in H4;
    [|cbn [consumes_only seq star opt word canonicalize]; repeat split; each_char
     |reflexivity].
  destruct H4 as (g1 & _ & A1 & C4). rewrite C3 in C4.
  apply (Matches_group denominator_char) in H5;
    [|cbn [consumes_only opt canonicalize]; each_char | reflexivity].
  destruct H5 as (g2 & _ & A2 & C5). rewrite C4 in C5.
  unfold cap. rewrite C5. cbn [capture Nat.eqb]. auto.
Qed.

(** Every guard brings one comma. *)
Lemma guardDivisions_commas s :
  Str.count_char "," (guardDivisions s)
  = Str.count_char "," s + match_count false rx_division s.
Proof.
  unfold guardDivisions, replace_all, match_count.
  rewrite (count_replace_from "," 1 false rx_division divisionGuard); [lia|].
  intros p s' st E.
  rewrite (count_char_excluded division_char "," _ eq_refl
             (matched_text_chars division_char false rx_division p s' st
                division_consumes E)).
  rewrite (divisionGuard_guards p s' st _ E).
  destruct (division_parts p s' st E) as (A1 & A2).
  rewrite !count_char_app.
  rewrite (count_char_excluded denominator_char "," _ eq_refl A1),
    (count_char_excluded denominator_char "," _ eq_refl A2).
  reflexivity.
Qed.

Lemma replace_from_no_match ic r f :
  forall fuel p s,
    count_from fuel ic r p s = 0 -> replace_from fuel ic r f p s = s.
Proof.
  induction fuel as [|fuel IH]; intros p s H; [reflexivity|].
  cbn [replace_from count_from] in *.
  destruct (match_here ic r p s) as [st|].
  - destruct (_ =? 0); [destruct s|]; discriminate H.
  - destruct s as [|c s]; [reflexivity|]. rewrite (IH _ _ H). reflexivity.
Qed.

Lemma count_from_none ic r :
  forall fuel p s,
    String.length s < fuel ->
    count_from fuel ic r p s = 0 -> exec_from ic r p s = None.
Proof.
  induction fuel as [|fuel IH]; intros p s Hf H; [inversion Hf|].
  cbn [count_from] in H.
  destruct s as [|c s]; cbn [exec_from];
    destruct (match_here ic r p _) as [st|].
  - destruct (_ =? 0); discriminate H.
  - reflexivity.
  - destruct (_ =? 0); discriminate H.
  - apply IH; [cbn [String.length] in Hf; lia | exact H].
Qed.

(** Where there is a match, the result holds the replacement of one. *)
Lemma replace_from_first ic r f :
  forall fuel p s,
    count_from fuel ic r p s <> 0 ->
    exists a q s1 st b,
      match_here ic r q s1 = Some st
      /\ replace_from fuel ic r f p s
         = a ++ f (Str.take (String.length s1 - String.length (rest st)) s1) st
             ++ b.
Proof.
  induction fuel as [|fuel IH]; intros p s H;
    [exfalso; apply H; reflexivity|].
  cbn [replace_from count_from] in *.
  destruct (match_here ic r p s) as [st|] eqn:E.
  - exists EmptyString, p, s, st.
    destruct (String.length s - String.length (rest st) =? 0).
    + destruct s as [|c s'].
      * exists EmptyString. split; [exact E|]. cbn [append].
        rewrite append_empty_r. reflexivity.
      * eexists. split; [exact E | reflexivity].
    + eexists. split; [exact E | reflexivity].
  - destruct s as [|c s']; [congruence|].
    destruct (IH _ _ H) as (a & q & s1 & st & b & Em & Er).
    exists (String c a), q, s1, st, b. split; [exact Em|].
    rewrite Er. reflexivity.
Qed.

Lemma guard_found p s :
  match_here false rx_division p ("/ max(" ++ s) <> None.
Proof.
  eapply match_here_complete.
  unfold rx_division, ident_start, star, opt, word, sp. cbn [seq]. matches.
Qed.

Lemma guardDivisions_found s :
  match_count false rx_division s <> 0 ->
  test false rx_division (guardDivisions s) = true.
Proof.
  intros H. unfold guardDivisions, replace_all.
  destruct (replace_from_first false rx_division divisionGuard _ _ _ H)
    as (a & q & s1 & st & b & Em & ->).
  rewrite (divisionGuard_guards q s1 st _ Em).
  rewrite append_assoc. apply test_app. apply guard_found.
Qed.

Lemma guardDivisions_unchanged s :
  match_count false rx_division s = 0 -> guardDivisions s = s.
Proof. intros H. apply replace_from_no_match. exact H. Qed.

Lemma test_match_count ic r s :
  test ic r s = true -> match_count ic r s <> 0.
Proof.
  unfold test, exec, match_count. intros H E.
  rewrite (count_from_none ic r (S (String.length s)) None s) in H;
    [discriminate H | lia | exact E].
Qed.

End DivisionFacts.

(** ** Carriage returns never come back *)

Module ReturnFacts.

Import Fixer PageFacts SearchFacts RegexFacts OccursFacts ReplaceFacts
  CaptureFacts StepFacts PipelineFacts CountFacts OutputFacts LineFacts
  NewlineFacts DivisionFacts.
Local Open Scope string_scope.
Local Open Scope nat_scope.

(** When no replacement holds more [c] than the text it replaces, the
    result holds no more [c] than the text. *)
Lemma count_replace_from_le c ic r f :
  (forall p s st,
     match_here ic r p s = Some st ->
     Str.count_char c
       (f (Str.take (String.length s - String.length (rest st)) s) st)
     <= Str.count_char c
          (Str.take (String.length s - String.length (rest st)) s)) ->
  forall fuel p s,
    Str.count_char c (replace_from fuel ic r f p s) <= Str.count_char c s.
Proof.
  intros Hf. induction fuel as [|fuel IH]; intros p s;
    cbn [replace_from]; [lia|].
  destruct (match_here ic r p s) as [st|] eqn:E.
  - pose proof (Hf p s st E) as Hc.
    destruct (matched_text ic r p s st E) as (w & Es & Et).
    assert (Ec : Str.count_char c s
                 = Str.count_char c w + Str.count_char c (rest st))
      by (rewrite Es at 1; apply count_char_app).
    destruct (String.length s - String.length (rest st) =? 0) eqn:En.
    + apply Nat.eqb_eq in En. rewrite En in Hc.
      assert (T0 : Str.take 0 s = EmptyString) by (destruct s; reflexivity).
      rewrite T0 in Hc. cbn [Str.count_char] in Hc. rewrite En, T0.
      destruct s as [|ch s'].
      * lia.
      * rewrite count_char_app. cbn [Str.count_char].
        pose proof (IH (Some ch) s'). lia.
    + rewrite Et in Hc. rewrite Et, count_char_app.
      pose proof (IH (prev st) (rest st)). lia.
  - destruct s as [|ch s']; [lia|].
    cbn [Str.count_char]. pose proof (IH (Some ch) s'). lia.
Qed.

Lemma replace_constant_le c ic r rep s :
  Str.count_char c rep = 0 ->
  Str.count_char c (replace_all ic r (fun _ _ => rep) s) <= Str.count_char c s.
Proof.
  intros H. unfold replace_all. apply count_replace_from_le.
  intros p s' st _. rewrite H. lia.
Qed.

Lemma count_join c l :
  Ascii.eqb c NL = false ->
  forall f : string -> string,
    (forall x, Str.count_char c (f x) = Str.count_char c x) ->
    Str.count_char c (Str.join_nl (map f l)) = Str.count_char c (Str.join_nl l).
Proof.
  intros Hc f Hf. induction l as [|x l IH]; [reflexivity|].
  destruct l as [|y l]; [cbn [map Str.join_nl]; apply Hf|].
  change (map f (x :: y :: l)) with (f x :: map f (y :: l)).
  rewrite (join_nl_cons (f x)) by discriminate.
  rewrite (join_nl_cons x) by discriminate.
  rewrite !count_char_app, IH, Hf. reflexivity.
Qed.

Lemma semicolonsText_count c s :
  Ascii.eqb c NL = false -> Ascii.eqb c ";" = false ->
  Str.count_char c (semicolonsText s) = Str.count_char c s.
Proof.
  intros Hn Hs. unfold semicolonsText.
  rewrite (count_join c _ Hn); [rewrite join_split; reflexivity|].
  intros x. destruct (semicolonLine_cases x) as [E|E]; rewrite E;
    [reflexivity|].
  rewrite count_char_app. cbn [Str.count_char]. rewrite Hs. lia.
Qed.

Lemma uniformsText_count c out :
  Forall (fun u : regex * string => Str.count_char c (snd u) = 0) uniforms ->
  Ascii.eqb c NL = false ->
  Str.count_char c (uniformsText out) = Str.count_char c out.
Proof.
  intros H Hn. unfold uniformsText.
  generalize 0 as n. revert out.
  induction H as [|u us Hu _ IH]; intros out n; [reflexivity|].
  cbn [fold_left]. unfold addUniform at 2.
  destruct (negb (test false (fst u) out)); rewrite IH; [|reflexivity].
  rewrite !count_char_app, Hu. unfold Str.nl. cbn [Str.count_char].
  rewrite Hn. lia.
Qed.

Lemma guardDivisions_no_cr s :
  Str.count_char CR (guardDivisions s) <= Str.count_char CR s.
Proof.
  unfold guardDivisions, replace_all. apply count_replace_from_le.
  intros p s' st E. rewrite (divisionGuard_guards p s' st _ E).
  destruct (division_parts p s' st E) as (A1 & A2).
  rewrite !count_char_app.
  rewrite (count_char_excluded denominator_char CR _ eq_refl A1),
    (count_char_excluded denominator_char CR _ eq_refl A2).
  cbn. lia.
Qed.

Lemma coerceVecInit_no_cr s :
  Str.count_char CR (coerceVecInit s) <= Str.count_char CR s.
Proof.
  unfold coerceVecInit, replace_all. apply count_replace_from_le.
  intros p s' st E. destruct (vec_init_parts p s' st E) as (A1 & A2 & A3).
  unfold vecInitReplacement. rewrite !count_char_app.
  rewrite !(count_char_excluded literal_char CR _ eq_refl A1),
    (count_char_excluded literal_char CR _ eq_refl A2),
    (count_char_excluded literal_char CR _ eq_refl A3).
  cbn. lia.
Qed.

(** No step of the pipeline brings a carriage return. *)
Lemma repairText_no_cr out :
  Str.count_char CR (repairText out) <= Str.count_char CR out.
Proof.
  unfold repairText, textBeforeTexture.
  assert (H1 : Str.count_char CR (precisionText out) = Str.count_char CR out).
  { unfold precisionText. destruct (negb _); reflexivity. }
  pose proof (uniformsText_count CR (precisionText out)
                ltac:(unfold uniforms; repeat constructor) eq_refl) as H2.
  set (t2 := uniformsText (precisionText out)) in *.
  assert (H3 : Str.count_char CR (textureText t2) <= Str.count_char CR t2).
  { unfold textureText. destruct (test false rx_texture2D t2); [|lia].
    apply replace_constant_le. reflexivity. }
  set (t3 := textureText t2) in *.
  pose proof (semicolonsText_count CR t3 eq_refl eq_refl) as H4.
  set (t4 := semicolonsText t3) in *.
  pose proof (guardDivisions_no_cr t4) as H5.
  set (t5 := guardDivisions t4) in *.
  pose proof (bracesText_parens CR t5 eq_refl eq_refl) as H6.
  set (t6 := bracesText t5) in *.
  pose proof (parensText_braces CR t6 eq_refl) as H7.
  set (t7 := parensText t6) in *.
  assert (H8 : Str.count_char CR (replacePlaceholders t7)
               <= Str.count_char CR t7).
  { unfold replacePlaceholders.
    pose proof (replace_constant_le CR false rx_undefined "0.0" t7 eq_refl).
    pose proof (replace_constant_le CR false rx_NULL "0.0"
                  (replace_all false rx_undefined (fun _ _ => "0.0") t7)
                  eq_refl).
    lia. }
  set (t8 := replacePlaceholders t7) in *.
  pose proof (coerceVecInit_no_cr t8) as H9.
  set (t9 := coerceVecInit t8) in *.
  assert (H10 : Str.count_char CR (mainText t9) = Str.count_char CR t9).
  { unfold mainText. destruct (negb _); [|reflexivity].
    rewrite count_char_app.
    change (Str.count_char CR fallback_main) with 0. lia. }
  lia.
Qed.

End ReturnFacts.

(** ** Guarantees of the repair and of its steps *)

Module RepairGuarantees.

Import Fixer PageFacts SearchFacts RegexFacts OccursFacts ReplaceFacts
  CaptureFacts StepFacts PipelineFacts RemediateFacts CountFacts OutputFacts
  LineFacts NewlineFacts DivisionFacts ReturnFacts.
Local Open Scope string_scope.
Local Open Scope nat_scope.

Lemma smartFixShader_value x w :
  value_of (smartFixShader (JStr x) w)
  = Ret (JStr (repairText (normalizeNewlines x))).
Proof. rewrite smartFixShader_run. reflexivity. Qed.

(** X1.  Whatever string [smartFixShader] is given, the text it returns,
    which is also the text it stores in [window.GODFIX_FIXED], has an entry
    point that the test of step 9 finds. *)
Theorem repair_always_has_entry_point :
  forall x w, exists out,
    value_of (smartFixShader (JStr x) w) = Ret (JStr out)
    /\ GODFIX_FIXED (state_of (smartFixShader (JStr x) w)) = JStr out
    /\ test false rx_main out = true.
Proof.
  intros x w. exists (repairText (normalizeNewlines x)).
  rewrite smartFixShader_run. unfold value_of, state_of. cbn [fst snd GODFIX_FIXED].
  split; [reflexivity|]. split; [reflexivity|].
  unfold repairText. apply mainText_has_main.
Qed.

(** X2.  The text [smartFixShader] returns for a string never holds more
    opening than closing braces, nor more opening than closing parentheses:
    steps 7 to 9 keep what step 6 closed. *)
Theorem repair_leaves_no_bracket_open :
  forall x w, exists out,
    value_of (smartFixShader (JStr x) w) = Ret (JStr out)
    /\ Str.count_char "{" out <= Str.count_char "}" out
    /\ Str.count_char "(" out <= Str.count_char ")" out.
Proof.
  intros x w. exists (repairText (normalizeNewlines x)).
  split; [apply smartFixShader_value|].
  exact (repairText_closed (normalizeNewlines x)).
Qed.

Lemma fixLine_run err s w :
  exists w', fixLine err (JStr s) w = (Ret (JStr (patchLine err s)), w').
Proof.
  unfold fixLine, patchLine.
  assert (E1 : exists w1, fixMissingSemicolon err (JStr s) w
                          = (Ret (JStr (patchSemicolon err s)), w1)).
  { unfold fixMissingSemicolon, patchSemicolon.
    destruct (test true rx_semicolon_msg err
              || test false rx_quoted_semicolon err);
      eexists; reflexivity. }
  destruct E1 as (w1 & E1). unfold bind at 1. rewrite E1.
  set (s1 := patchSemicolon err s).
  assert (E2 : exists w2, fixUndeclared err (JStr s1) w1
                          = (Ret (JStr (patchUndeclared err s1)), w2)).
  { unfold fixUndeclared, patchUndeclared.
    destruct (exec true rx_undeclared err) as [st|]; [|eexists; reflexivity].
    cbv zeta. destruct (negb (Str.is_empty (sanitizeId (firstCaptured st))));
      eexists; reflexivity. }
  destruct E2 as (w2 & E2). unfold bind at 1. rewrite E2.
  set (s2 := patchUndeclared err s1).
  assert (E3 : exists w3, fixImplicitConversion err (JStr s2) w2
                          = (Ret (JStr (patchImplicit err s2)), w3)).
  { unfold fixImplicitConversion, patchImplicit.
    destruct (test true rx_implicit_conversion err); eexists; reflexivity. }
  destruct E3 as (w3 & E3). unfold bind at 1. rewrite E3.
  set (s3 := patchImplicit err s2).
  assert (E4 : exists w4, fixTextureCall err (JStr s3) w3
                          = (Ret (JStr (patchTexture err s3)), w4)).
  { unfold fixTextureCall, patchTexture.
    destruct (test true rx_texture_msg err); [|eexists; reflexivity].
    unfold bind, string_method, ret. cbn [andb].
    destruct (Str.includes "texture2D(" s3); eexists; reflexivity. }
  destruct E4 as (w4 & E4). unfold bind at 1. rewrite E4.
  set (s4 := patchTexture err s3).
  assert (E5 : exists w5, fixMissingMain err (JStr s4) w4
                          = (Ret (JStr (patchMain err s4)), w5)).
  { unfold fixMissingMain, patchMain. cbn [to_string].
    destruct (test true rx_no_main_msg err); [|eexists; reflexivity].
    cbn [andb]. destruct (negb (test false rx_main s4)); eexists; reflexivity. }
  destruct E5 as (w5 & E5). unfold bind at 1. rewrite E5.
  set (s5 := patchMain err s4).
  unfold fixUnmatched, patchUnmatched.
  destruct (test true rx_unmatched_msg err); [|eexists; reflexivity].
  unfold bind at 1. unfold string_method, ret at 1. cbv zeta.
  destruct (match_count false rx_rbrace s5 <? match_count false rx_lbrace s5).
  - unfold bind at 1. unfold bind at 1. unfold logMain at 1. unfold ret at 1.
    destruct (match_count false rx_rparen _ <? match_count false rx_lparen _);
      eexists; reflexivity.
  - unfold bind at 1. unfold ret at 1.
    destruct (match_count false rx_rparen s5 <? match_count false rx_lparen s5);
      eexists; reflexivity.
Qed.

Lemma foldM_fixLine_run errs :
  forall s w,
    exists w',
      foldM fixLine errs (JStr s) w = (Ret (JStr (patchText errs s)), w').
Proof.
  induction errs as [|err errs IH]; intros s w.
  - exists w. reflexivity.
  - cbn [foldM patchText fold_left]. unfold bind.
    destruct (fixLine_run err s w) as (w1 & ->). apply IH.
Qed.

(** X3.  On a source and diagnostics that are strings, what
    [parseErrorsAndFix] returns is what [smartFixShader] returns for the
    patched text: the source after the remediations of the selected
    diagnostic lines, applied in order.  So the result has no [texture2D(]
    call, has an entry point, and has no brace or parenthesis left open. *)
Theorem log_pass_returns_a_repaired_text :
  forall code logs w,
    let patched := patchText (candidateErrors (logLines logs)) code in
    let out := repairText (normalizeNewlines patched) in
    (exists w1,
       foldM fixLine (candidateErrors (logLines logs)) (JStr code)
         (Page (("OK", "parseErrorsAndFix: analyzing logs") :: mainLog w)
               (GODFIX_FIXED w))
       = (Ret (JStr patched), w1))
    /\ value_of (parseErrorsAndFix (JStr code) (JStr logs) w) = Ret (JStr out)
    /\ (forall w', value_of (smartFixShader (JStr patched) w') = Ret (JStr out))
    /\ Str.includes "texture2D(" out = false
    /\ test false rx_main out = true
    /\ Str.count_char "{" out <= Str.count_char "}" out
    /\ Str.count_char "(" out <= Str.count_char ")" out.
Proof.
  intros code logs w patched out.
  destruct (foldM_fixLine_run (candidateErrors (logLines logs)) code
              (Page (("OK", "parseErrorsAndFix: analyzing logs") :: mainLog w)
                    (GODFIX_FIXED w))) as (w1 & E1).
  split; [exists w1; exact E1|].
  split.
  { unfold parseErrorsAndFix, try_catch.
    rewrite parseErrorsAndFix_try_eq, E1, smartFixShader_run. reflexivity. }
  split; [intros w'; apply smartFixShader_value|].
  split; [apply free_repairText|].
  split; [unfold out, repairText; apply mainText_has_main|].
  exact (repairText_closed (normalizeNewlines patched)).
Qed.

(** X4.  A falsy argument ([undefined], [null], [false], [0] or the empty
    string) is repaired as the empty source: the result is the six uniform
    declarations, the precision line, an empty line and the fallback entry
    point, and nothing is thrown. *)
Theorem repair_of_nothing_is_the_default_shader :
  forall code w,
    truthy code = false ->
    value_of (smartFixShader code w) = Ret (JStr default_shader).
Proof.
  intros code w H.
  assert (E : js_or code (JStr EmptyString) = JStr EmptyString)
    by (unfold js_or; rewrite H; reflexivity).
  assert (R : value_of (smartFixShader (JStr EmptyString) w)
              = Ret (JStr default_shader)).
  { rewrite smartFixShader_value. vm_compute. reflexivity. }
  unfold smartFixShader, try_catch, smartFixShader_try in *.
  unfold bind at 1. cbn [logMain]. unfold bind at 1. rewrite E.
  unfold bind at 1 in R. cbn [logMain] in R. unfold bind at 1 in R.
  assert (E' : js_or (JStr EmptyString) (JStr EmptyString) = JStr EmptyString)
    by reflexivity.
  rewrite E' in R. exact R.
Qed.

Lemma repair_of_nothing_is_the_default_shader_witness :
  truthy JNull = false
  /\ value_of (smartFixShader JNull page0) = Ret (JStr default_shader).
Proof.
  split; [reflexivity|].
  apply (repair_of_nothing_is_the_default_shader JNull page0). reflexivity.
Defined.

Lemma Forall2_map {A} (R : A -> A -> Prop) (f : A -> A) l :
  (forall a, R a (f a)) -> Forall2 R l (map f l).
Proof. intros H. induction l; constructor; auto. Qed.

(** X5.  The semicolon pass keeps the lines of the text, in number and in
    order, and changes a line at most by putting one [;] at its end. *)
Theorem semicolon_pass_only_appends :
  forall s w, exists t,
    value_of (insertSemicolons s w) = Ret t
    /\ Forall2 (fun a b => b = a \/ b = a ++ ";")
               (Str.split_nl s) (Str.split_nl t).
Proof.
  intros s w. exists (semicolonsText s). split; [reflexivity|].
  rewrite semicolon_lines. apply Forall2_map. apply semicolonLine_cases.
Qed.

(** X6.  The semicolon pass is idempotent: run on the text it has just
    returned, it returns that text again. *)
Theorem semicolon_pass_settles :
  forall s w w' t,
    value_of (insertSemicolons s w) = Ret t ->
    value_of (insertSemicolons t w') = Ret t.
Proof.
  intros s w w' t H.
  change (Ret (semicolonsText s) = Ret t) in H. injection H as <-.
  change (Ret (semicolonsText (semicolonsText s)) = Ret (semicolonsText s)).
  rewrite semicolonsText_idempotent. reflexivity.
Qed.

Lemma semicolon_pass_settles_witness :
  value_of (insertSemicolons "x = 1" page0) = Ret "x = 1;"
  /\ value_of (insertSemicolons "x = 1;" page0) = Ret "x = 1;".
Proof.
  assert (H : value_of (insertSemicolons "x = 1" page0) = Ret "x = 1;")
    by (vm_compute; reflexivity).
  split; [exact H|].
  exact (semicolon_pass_settles "x = 1" page0 page0 "x = 1;" H).
Defined.

(** X7.  The two replacements that open [smartFixShader] amount to one pass
    that turns CR LF, a lone CR and LF each into one LF: the result holds no
    CR, and normalising it again changes nothing. *)
Theorem line_endings_become_line_feeds :
  forall s,
    normalizeNewlines s = newlines s
    /\ Str.count_char CR (normalizeNewlines s) = 0
    /\ normalizeNewlines (normalizeNewlines s) = normalizeNewlines s.
Proof.
  intros s.
  assert (H : Str.count_char CR (normalizeNewlines s) = 0).
  { rewrite normalizeNewlines_newlines.
    apply (newlines_no_cr s (S (String.length s))). lia. }
  split; [apply normalizeNewlines_newlines|]. split; [exact H|].
  rewrite (normalizeNewlines_newlines (normalizeNewlines s)).
  apply newlines_fixed. exact H.
Qed.

(** X8.  The text [smartFixShader] returns for a string holds no carriage
    return: the first statement removes them all and no later step brings
    one back. *)
Theorem repair_returns_line_feeds_only :
  forall x w, exists out,
    value_of (smartFixShader (JStr x) w) = Ret (JStr out)
    /\ Str.count_char CR out = 0.
Proof.
  intros x w. exists (repairText (normalizeNewlines x)).
  split; [apply smartFixShader_value|].
  pose proof (repairText_no_cr (normalizeNewlines x)) as H.
  rewrite (normalizeNewlines_newlines x) in H at 2.
  rewrite (newlines_no_cr x (S (String.length x))) in H by lia. lia.
Qed.

(** X9.  In the division guard the denominator the pattern captures starts
    with a letter or an underscore, so the test for a leading digit in the
    replacement callback never succeeds: every match is rewritten to the
    guarded form. *)
Theorem division_guard_digit_branch_is_dead :
  forall q s st whole,
    match_here false rx_division q s = Some st ->
    test false rx_leading_digit (cap 1 st) = false
    /\ divisionGuard whole st
       = "/ max(" ++ cap 1 st ++ ", 0.000001)" ++ cap 2 st.
Proof.
  intros q s st whole H. split; [|apply (divisionGuard_guards q s st _ H)].
  destruct (division_captures q s st H) as (c0 & t & g2 & E1 & _ & Hd & _).
  rewrite E1, test_leading_digit. exact Hd.
Qed.

Lemma division_guard_digit_branch_is_dead_witness :
  exists st,
    match_here false rx_division None "/x" = Some st
    /\ test false rx_leading_digit (cap 1 st) = false
    /\ divisionGuard "/x" st = "/ max(" ++ cap 1 st ++ ", 0.000001)" ++ cap 2 st.
Proof.
  eexists. split; [vm_compute; reflexivity|].
  apply (division_guard_digit_branch_is_dead None "/x" _ "/x").
  vm_compute. reflexivity.
Defined.

(** X10.  The division guard never settles: when it changes a text, it
    changes the result again, because the [max] it has written is itself a
    name after a slash. *)
Theorem division_guard_never_settles :
  forall s,
    guardDivisions s <> s ->
    guardDivisions (guardDivisions s) <> guardDivisions s.
Proof.
  intros s H E.
  assert (N : match_count false rx_division s <> 0).
  { intros N. apply H. apply guardDivisions_unchanged. exact N. }
  pose proof (test_match_count _ _ _ (guardDivisions_found s N)) as N'.
  pose proof (guardDivisions_commas (guardDivisions s)) as C.
  rewrite E in C. lia.
Qed.

Lemma division_guard_never_settles_witness :
  guardDivisions "a / b" <> "a / b"
  /\ guardDivisions (guardDivisions "a / b") <> guardDivisions "a / b".
Proof.
  assert (H : guardDivisions "a / b" <> "a / b") by (vm_compute; discriminate).
  split; [exact H|]. exact (division_guard_never_settles "a / b" H).
Defined.

End RepairGuarantees.

(** ** The preview over whole sessions *)

Module SessionFacts.

Import Preview PreviewSessions PreviewFacts.
Local Open Scope string_scope.
Local Open Scope nat_scope.

Section Calls.

Variable drv : driver.
Variable src : string.
Variable e : engine.
Hypothesis gl_available : gl e = true.

(** The call that compiles and links. *)
Lemma success :
  builds drv src ->
  compileAndRun drv src e
  = (Ret tt,
     with_statusLabel
       (match statusLabel e with
        | Some _ => Some "Status: Preview running"
        | None => None
        end)
       (with_compileLog (("OK", "Compiled & preview running") :: compileLog e)
          (with_animReq (Some (S (S (S (next_name e)))))
             (with_scheduled
                (S (S (S (next_name e)))
                 :: match animReq e with
                    | Some r => remove_name r (scheduled e)
                    | None => scheduled e
                    end)
                (with_startTime (clock e)
                   (with_program (Some (S (S (next_name e))))
                      (with_programs
                         (S (S (next_name e))
                          :: match program e with
                             | Some q => remove_name q (programs e)
                             | None => programs e
                             end)
                         (with_shaders
                            (S (next_name e) :: next_name e :: shaders e)
                            (with_next_name (S (S (S (S (next_name e))))) e))))))))).
Proof.
  intros (Hv & Hf & Hl).
  unfold compileAndRun, bind, get, try_catch, compileShader, bind.
  rewrite gl_available. cbn [negb].
  unfold createShader, bind, fresh, modify, ret.
  rewrite Hv. cbn. rewrite Hf. cbn.
  destruct e as [g pr ar st cl sl ps sh sc nn ck]. cbn in *.
  destruct pr as [q|]; destruct ar as [r|]; cbn;
    unfold createProgram, deleteProgram, render, requestAnimationFrame,
      cancelAnimationFrame, logCompile, setStatus, bind, fresh, modify, ret, get;
    cbn; rewrite Hl; cbn; reflexivity.
Qed.

End Calls.

Lemma remove_name_single r : remove_name r [r] = [].
Proof. unfold remove_name. cbn. rewrite Nat.eqb_refl. reflexivity. Qed.

Lemma remove_name_head r l : remove_name r (r :: l) = remove_name r l.
Proof. unfold remove_name. cbn. rewrite Nat.eqb_refl. reflexivity. Qed.

Lemma remove_name_fresh n l :
  Forall (fun x => x < n) l -> remove_name n l = l.
Proof.
  unfold remove_name. induction 1 as [|x l Hx _ IH]; [reflexivity|].
  cbn. rewrite IH. destruct (Nat.eqb_spec x n); [lia | reflexivity].
Qed.

Lemma tidy_programs_removed e :
  tidy e ->
  match program e with
  | Some q => remove_name q (programs e)
  | None => programs e
  end = [].
Proof.
  intros (Hp & _). rewrite Hp. destruct (program e); [apply remove_name_single|reflexivity].
Qed.

Lemma tidy_frames_removed e :
  tidy e ->
  match animReq e with
  | Some r => remove_name r (scheduled e)
  | None => scheduled e
  end = [].
Proof.
  intros (_ & [Hs|(r & Hs & Ha)] & _); rewrite Hs.
  - destruct (animReq e); reflexivity.
  - rewrite Ha. apply remove_name_single.
Qed.

Lemma compileAndRun_tidy drv src e :
  tidy e -> tidy (state_of (compileAndRun drv src e)).
Proof.
  intros T. destruct (gl e) eqn:Hgl.
  2:{ unfold compileAndRun, bind, get. rewrite Hgl. exact T. }
  pose proof T as (Hp & Hs & Hg).
  destruct (shader_info_log drv VERTEX_SHADER vs) as [info|] eqn:Hv.
  { rewrite (@vertex_failure drv src e Hgl info Hv). exact T. }
  destruct (shader_info_log drv FRAGMENT_SHADER src) as [info|] eqn:Hf.
  { rewrite (@fragment_failure drv src e Hgl info Hv Hf). exact T. }
  destruct (program_info_log drv vs src) as [info|] eqn:Hl.
  - rewrite (@link_failure drv src e Hgl info Hv Hf Hl).
    unfold state_of, tidy. cbn -[remove_name]. rewrite (tidy_programs_removed e T).
    rewrite remove_name_single. split; [reflexivity|]. split; [exact Hs|].
    reflexivity.
  - rewrite (@success drv src e Hgl (conj Hv (conj Hf Hl))).
    unfold state_of, tidy. cbn -[remove_name]. rewrite (tidy_programs_removed e T),
      (tidy_frames_removed e T).
    split; [reflexivity|]. split; [right; eexists; split; reflexivity|].
    rewrite Hgl. discriminate.
Qed.

Lemma stopPreview_state e :
  stopPreview e
  = (Ret tt,
     with_statusLabel
       (match statusLabel e with
        | Some _ => Some "Status: Preview stopped"
        | None => None
        end)
       (with_compileLog (("OK", "Preview stopped") :: compileLog e)
          (with_program None
             (with_programs
                (match program e with
                 | Some p => if gl e then remove_name p (programs e)
                             else programs e
                 | None => programs e
                 end)
                (with_scheduled
                   (match animReq e with
                    | Some r => remove_name r (scheduled e)
                    | None => scheduled e
                    end) e))))).
Proof.
  destruct e as [g pr ar st cl sl ps sh sc nn ck].
  destruct pr as [q|]; destruct ar as [r|]; destruct g; reflexivity.
Qed.

Lemma stopPreview_tidy e : tidy e -> tidy (state_of (stopPreview e)).
Proof.
  intros T. pose proof T as (Hp & Hs & Hg). rewrite stopPreview_state.
  unfold state_of, tidy. cbn -[remove_name]. rewrite (tidy_frames_removed e T).
  split; [|split; [left; reflexivity | reflexivity]].
  destruct (program e) as [p|] eqn:E; [|rewrite Hp; reflexivity].
  destruct (gl e); [rewrite Hp; apply remove_name_single|].
  discriminate (Hg eq_refl).
Qed.

Lemma existsb_single r x : existsb (Nat.eqb r) [x] = true -> x = r.
Proof.
  cbn. rewrite orb_false_r. intros H. apply Nat.eqb_eq in H. congruence.
Qed.

Lemma fire_tidy r drawn e : tidy e -> tidy (state_of (fire r drawn e)).
Proof.
  intros T. pose proof T as (Hp & Hs & Hg).
  unfold fire, bind, get.
  destruct (existsb (Nat.eqb r) (scheduled e)) eqn:Ex; [|exact T].
  destruct Hs as [Hs|(x & Hs & Ha)]; [rewrite Hs in Ex; discriminate Ex|].
  rewrite Hs in Ex. apply existsb_single in Ex. subst x.
  destruct e as [g pr ar st cl sl ps sh sc nn ck].
  cbn -[remove_name] in *. subst sc.
  unfold modify. cbn -[remove_name]. rewrite remove_name_single.
  destruct drawn; cbn; unfold tidy; cbn; split; try exact Hp;
    (split; [|exact Hg]); [right; eexists; split; reflexivity | left; reflexivity].
Qed.

Lemma perform_tidy drv c e : tidy e -> tidy (state_of (perform drv c e)).
Proof.
  destruct c as [src| |r drawn]; cbn [perform].
  - apply compileAndRun_tidy.
  - apply stopPreview_tidy.
  - apply fire_tidy.
Qed.

Lemma run_all_tidy drv cs : forall e, tidy e -> tidy (run_all drv cs e).
Proof.
  induction cs as [|c cs IH]; intros e T; [exact T|].
  cbn [run_all fold_left]. apply IH. apply perform_tidy. exact T.
Qed.

Lemma booted_tidy available now : tidy (booted available now).
Proof. unfold tidy, booted. cbn. auto. Qed.

End SessionFacts.

(** ** What a session of the preview keeps and releases *)

Module SessionGuarantees.

Import Preview PreviewSessions PreviewFacts SessionFacts.
Local Open Scope string_scope.
Local Open Scope nat_scope.

(** X11.  Over any sequence of clicks on the run and stop buttons and of
    frames, with any driver, the preview leaks no program and no frame
    request: the only live program object is [webgl.program] and the only
    pending animation frame is [webgl.animReq]. *)
Theorem preview_keeps_one_program_and_one_frame :
  forall drv cs e, tidy e -> tidy (run_all drv cs e).
Proof. intros drv cs e T. apply run_all_tidy. exact T. Qed.

Lemma preview_keeps_one_program_and_one_frame_witness :
  tidy (booted true 0)
  /\ tidy (run_all working_driver sample_clicks (booted true 0)).
Proof.
  split; [apply booted_tidy|].
  apply (preview_keeps_one_program_and_one_frame working_driver sample_clicks
           (booted true 0)).
  apply booted_tidy.
Defined.

(** X12.  After [stopPreview], in a preview that leaked nothing, there is
    no program, no live program object and no pending frame, so no frame
    fires any more; the compile log gets [Preview stopped]. *)
Theorem stop_releases_the_preview :
  forall e,
    tidy e ->
    program (state_of (stopPreview e)) = None
    /\ programs (state_of (stopPreview e)) = []
    /\ scheduled (state_of (stopPreview e)) = []
    /\ (forall r drawn,
          fire r drawn (state_of (stopPreview e))
          = (Ret tt, state_of (stopPreview e)))
    /\ compileLog (state_of (stopPreview e))
       = ("OK", "Preview stopped") :: compileLog e.
Proof.
  intros e T. pose proof (stopPreview_tidy e T) as (Hp & _ & _).
  assert (Hs : scheduled (state_of (stopPreview e)) = []).
  { rewrite stopPreview_state. unfold state_of. cbn -[remove_name].
    apply tidy_frames_removed. exact T. }
  assert (Hn : program (state_of (stopPreview e)) = None).
  { rewrite stopPreview_state. reflexivity. }
  split; [exact Hn|]. split; [rewrite Hp, Hn; reflexivity|].
  split; [exact Hs|]. split.
  - intros r drawn. unfold fire, bind, get. rewrite Hs. reflexivity.
  - rewrite stopPreview_state. reflexivity.
Qed.

Lemma stop_releases_the_preview_witness :
  tidy running_engine
  /\ scheduled (state_of (stopPreview running_engine)) = [].
Proof.
  assert (T : tidy running_engine).
  { unfold tidy, running_engine. cbn. split; [reflexivity|].
    split; [right; exists 8; split; reflexivity | discriminate]. }
  split; [exact T|].
  exact (proj1 (proj2 (proj2 (stop_releases_the_preview running_engine T)))).
Defined.

(** X13.  A call of [compileAndRun] whose shaders compile and whose
    program links, in a preview that leaked nothing, replaces the preview:
    the new program is the only live one, the old frame request is cancelled
    and exactly one new frame is pending, the start time is reset to the
    clock, and [Compiled & preview running] is logged. *)
Theorem successful_run_replaces_the_preview :
  forall drv src e,
    gl e = true -> tidy e -> builds drv src ->
    exists p r,
      program (state_of (compileAndRun drv src e)) = Some p
      /\ programs (state_of (compileAndRun drv src e)) = [p]
      /\ animReq (state_of (compileAndRun drv src e)) = Some r
      /\ scheduled (state_of (compileAndRun drv src e)) = [r]
      /\ startTime (state_of (compileAndRun drv src e)) = clock e
      /\ compileLog (state_of (compileAndRun drv src e))
         = ("OK", "Compiled & preview running") :: compileLog e
      /\ statusLabel (state_of (compileAndRun drv src e))
         = match statusLabel e with
           | Some _ => Some "Status: Preview running"
           | None => None
           end.
Proof.
  intros drv src e Hgl T B.
  exists (S (S (next_name e))), (S (S (S (next_name e)))).
  rewrite (@success drv src e Hgl B). unfold state_of. cbn -[remove_name].
  rewrite (tidy_programs_removed e T), (tidy_frames_removed e T).
  repeat split; reflexivity.
Qed.

Lemma successful_run_replaces_the_preview_witness :
  gl (booted true 5) = true /\ tidy (booted true 5)
  /\ builds working_driver Notions.sample_source
  /\ exists p r,
       program (state_of (compileAndRun working_driver Notions.sample_source
                            (booted true 5))) = Some p
       /\ scheduled (state_of (compileAndRun working_driver
                                 Notions.sample_source (booted true 5))) = [r].
Proof.
  assert (B : builds working_driver Notions.sample_source)
    by (repeat split; reflexivity).
  split; [reflexivity|]. split; [apply booted_tidy|]. split; [exact B|].
  destruct (successful_run_replaces_the_preview working_driver
              Notions.sample_source (booted true 5) eq_refl
              (booted_tidy true 5) B)
    as (p & r & Hp & _ & _ & Hs & _).
  exists p, r. split; [exact Hp | exact Hs].
Defined.

(** *** Shader objects *)

Lemma compileAndRun_shaders drv src e :
  gl e = true -> names_fresh e ->
  names_fresh (state_of (compileAndRun drv src e))
  /\ List.length (shaders (state_of (compileAndRun drv src e)))
     = List.length (shaders e) + compiled_shaders drv src.
Proof.
  intros Hgl F. unfold compiled_shaders, names_fresh in *.
  assert (F1 : Forall (fun x => x < S (next_name e)) (shaders e))
    by (eapply Forall_impl; [|exact F]; cbn; intros; lia).
  assert (F2 : Forall (fun x => x < S (S (next_name e))) (shaders e))
    by (eapply Forall_impl; [|exact F]; cbn; intros; lia).
  assert (F3 : Forall (fun x => x < S (S (S (next_name e)))) (shaders e))
    by (eapply Forall_impl; [|exact F]; cbn; intros; lia).
  assert (F4 : Forall (fun x => x < S (S (S (S (next_name e))))) (shaders e))
    by (eapply Forall_impl; [|exact F]; cbn; intros; lia).
  destruct (shader_info_log drv VERTEX_SHADER vs) as [info|] eqn:Hv.
  { rewrite (@vertex_failure drv src e Hgl info Hv).
    unfold state_of. cbn -[remove_name].
    rewrite remove_name_head, (remove_name_fresh _ _ F).
    split; [exact F1 | lia]. }
  destruct (shader_info_log drv FRAGMENT_SHADER src) as [info|] eqn:Hf.
  { rewrite (@fragment_failure drv src e Hgl info Hv Hf).
    unfold state_of. cbn -[remove_name].
    rewrite remove_name_head,
      (remove_name_fresh (S (next_name e)) (next_name e :: shaders e))
      by (constructor; [lia | exact F1]).
    split; [constructor; [lia | exact F2] | cbn [List.length]; lia]. }
  destruct (program_info_log drv vs src) as [info|] eqn:Hl.
  - rewrite (@link_failure drv src e Hgl info Hv Hf Hl).
    unfold state_of. cbn -[remove_name].
    split; [constructor; [lia | constructor; [lia | exact F3]]
           | cbn [List.length]; lia].
  - rewrite (@success drv src e Hgl (conj Hv (conj Hf Hl))).
    unfold state_of. cbn -[remove_name].
    split; [constructor; [lia | constructor; [lia | exact F4]]
           | cbn [List.length]; lia].
Qed.

Lemma perform_shaders drv c e :
  gl e = true -> names_fresh e ->
  gl (state_of (perform drv c e)) = true
  /\ names_fresh (state_of (perform drv c e))
  /\ List.length (shaders (state_of (perform drv c e)))
     = List.length (shaders e) + compiled_in drv [c].
Proof.
  intros Hgl F. destruct c as [src| |r drawn]; cbn [perform compiled_in].
  - destruct (compileAndRun_shaders drv src e Hgl F) as (F' & L).
    split; [|split; [exact F' | lia]].
    unfold compileAndRun, bind, get, try_catch. rewrite Hgl. cbn [negb].
    destruct e as [g pr ar st cl sl ps sh sc nn ck]. cbn in Hgl. subst g.
    unfold compileShader, createShader, deleteShader, bind, fresh, modify, ret,
      throw.
    cbn -[remove_name].
    destruct (shader_info_log drv VERTEX_SHADER vs); [reflexivity|].
    cbn -[remove_name].
    destruct (shader_info_log drv FRAGMENT_SHADER src); [reflexivity|].
    destruct pr as [q|]; destruct ar as [r|]; cbn -[remove_name];
      destruct (program_info_log drv vs src); reflexivity.
  - rewrite stopPreview_state. unfold state_of, names_fresh in *.
    cbn -[remove_name]. split; [exact Hgl|]. split; [exact F | lia].
  - unfold fire, bind, get.
    destruct (existsb (Nat.eqb r) (scheduled e));
      [|split; [exact Hgl|]; split; [exact F | cbn; lia]].
    destruct e as [g pr ar st cl sl ps sh sc nn ck].
    unfold names_fresh in *. cbn -[remove_name] in *.
    destruct drawn; cbn -[remove_name]; (split; [exact Hgl|]);
      (split; [|lia]); [|exact F].
    eapply Forall_impl; [|exact F]. cbn. intros; lia.
Qed.

Lemma run_all_shaders drv cs :
  forall e,
    gl e = true -> names_fresh e ->
    List.length (shaders (run_all drv cs e))
    = List.length (shaders e) + compiled_in drv cs.
Proof.
  induction cs as [|c cs IH]; intros e Hgl F; [cbn; lia|].
  cbn [run_all fold_left].
  destruct (perform_shaders drv c e Hgl F) as (G' & F' & L).
  change (fold_left (fun st c0 => state_of (perform drv c0 st)) cs
            (state_of (perform drv c e)))
    with (run_all drv cs (state_of (perform drv c e))).
  rewrite (IH _ G' F'), L.
  destruct c; cbn [compiled_in]; lia.
Qed.

(** X14.  Shader objects only accumulate: over any session the number of
    live shader objects grows by the number of shaders that compiled, since
    [compileAndRun] deletes a shader only when it fails to compile, and
    neither a link failure, a later run nor [stopPreview] deletes one. *)
Theorem compiled_shaders_are_never_deleted :
  forall drv cs e,
    gl e = true -> names_fresh e ->
    List.length (shaders (run_all drv cs e))
    = List.length (shaders e) + compiled_in drv cs.
Proof. intros drv cs e Hgl F. apply run_all_shaders; assumption. Qed.

Lemma compiled_shaders_are_never_deleted_witness :
  gl (booted true 0) = true /\ names_fresh (booted true 0)
  /\ List.length (shaders (run_all working_driver sample_clicks (booted true 0)))
     = 4.
Proof.
  split; [reflexivity|]. split; [constructor|].
  exact (compiled_shaders_are_never_deleted working_driver sample_clicks
           (booted true 0) eq_refl (Forall_nil _)).
Defined.

End SessionGuarantees.

(** ** What the gestures leave alone *)

Module GestureFacts.

Import Interaction GestureNotions.
Local Open Scope Z_scope.

Section Handlers.

Variable hypot : float -> float -> float.

Lemma fadd_nan x : fadd S754_nan x = S754_nan.
Proof. reflexivity. Qed.

Lemma fmul_nan x : fmul S754_nan x = S754_nan.
Proof. reflexivity. Qed.

Lemma clampZoom_nan : clampZoom S754_nan = S754_nan.
Proof. reflexivity. Qed.

Lemma handle_keeps_nan ev s :
  (is_nan (zoom s) = true -> is_nan (zoom (handle hypot ev s)) = true)
  /\ (is_nan (rotation s) = true -> is_nan (rotation (handle hypot ev s)) = true)
  /\ (is_nan (colorOffset s) = true
      -> is_nan (colorOffset (handle hypot ev s)) = true).
Proof.
  destruct s as [r z c d lx ly pd].
  split; [|split]; cbn [zoom rotation colorOffset]; intros H;
    (destruct ev as [x y|x w h| | |dy| |ts|ts w h|];
     try destruct ts as [|t0 [|t1 [|t2 ts]]];
     cbn [handle zoom rotation colorOffset dragging pinchDist negb];
     try exact H;
     repeat match goal with
            | |- context [if ?b then _ else _] => destruct b
            end;
     cbn [zoom rotation colorOffset]; try exact H).
  all: match goal with
       | H : is_nan ?v = true |- _ =>
           destruct v; try discriminate H; reflexivity
       end.
Qed.

Lemma handle_all_keeps_nan evs :
  forall s,
    (is_nan (zoom s) = true -> is_nan (zoom (handle_all hypot evs s)) = true)
    /\ (is_nan (rotation s) = true
        -> is_nan (rotation (handle_all hypot evs s)) = true)
    /\ (is_nan (colorOffset s) = true
        -> is_nan (colorOffset (handle_all hypot evs s)) = true).
Proof.
  induction evs as [|ev evs IH]; intros s; [cbn; auto|].
  cbn [handle_all fold_left].
  destruct (handle_keeps_nan ev s) as (Hz & Hr & Hc).
  destruct (IH (handle hypot ev s)) as (Hz' & Hr' & Hc').
  unfold handle_all in *. split; [|split]; auto.
Qed.

End Handlers.

End GestureFacts.

Module GestureGuarantees.

Import Interaction GestureNotions GestureFacts.
Local Open Scope Z_scope.

(** X15.  Each gesture writes its own field only: the zoom changes on a
    wheel event or a two-finger move, the rotation on a pointer move or a
    one-finger move while dragging, and the colour offset on a click alone. *)
Theorem gestures_change_their_own_field_only :
  forall hypot ev s,
    (zoom (handle hypot ev s) <> zoom s -> zooms ev = true)
    /\ (rotation (handle hypot ev s) <> rotation s
        -> drags ev = true /\ dragging s = true)
    /\ (colorOffset (handle hypot ev s) <> colorOffset s -> ev = Click).
Proof.
  intros hypot ev s.
  destruct ev as [x y|x w h| | |dy| |ts|ts w h|];
    try destruct ts as [|t0 [|t1 [|t2 ts]]];
    cbn [handle zooms drags];
    repeat match goal with
           | |- context [if ?b then _ else _] => destruct b eqn:?
           end;
    cbn [zoom rotation colorOffset];
    (split; [|split]); intros H; try reflexivity; try congruence;
    try (exfalso; apply H; reflexivity).
  all: split; try reflexivity.
  destruct (dragging s); [reflexivity | discriminate].
Qed.

Lemma gestures_change_their_own_field_only_witness :
  zoom (handle hypot_sqrt (Wheel (of_Z 120)) initial) <> zoom initial
  /\ zooms (Wheel (of_Z 120)) = true.
Proof.
  assert (H : zoom (handle hypot_sqrt (Wheel (of_Z 120)) initial)
              <> zoom initial) by (vm_compute; discriminate).
  split; [exact H|].
  exact (proj1 (gestures_change_their_own_field_only hypot_sqrt
                  (Wheel (of_Z 120)) initial) H).
Defined.

(** X16.  Once a drag has ended (pointer up, pointer cancel or touch end),
    pointer moves and one-finger moves are ignored; and after a touch end a
    two-finger move is ignored too, because the stored pinch distance is
    zero: the state is exactly what the ending event left. *)
Theorem moves_after_release_are_ignored :
  forall hypot up ev s,
    releases up = true ->
    drags ev = true \/ (up = TouchEnd /\ pinches ev = true) ->
    handle hypot ev (handle hypot up s) = handle hypot up s.
Proof.
  intros hypot up ev s Hup Hev.
  destruct up; try discriminate Hup;
    (destruct ev as [x y|x w h| | |dy| |ts|ts w h|];
     try destruct ts as [|t0 [|t1 [|t2 ts]]];
     try reflexivity;
     destruct Hev as [Hev|(Hu & Hz)];
     try discriminate Hev; try discriminate Hu; try discriminate Hz).
Qed.

Lemma moves_after_release_are_ignored_witness :
  releases TouchEnd = true
  /\ pinches (TouchMove [(k_1, k_0); (k_6, k_0)] k_1 k_1) = true
  /\ handle hypot_sqrt (TouchMove [(k_1, k_0); (k_6, k_0)] k_1 k_1)
       (handle hypot_sqrt TouchEnd initial)
     = handle hypot_sqrt TouchEnd initial.
Proof.
  split; [reflexivity|]. split; [reflexivity|].
  apply (moves_after_release_are_ignored hypot_sqrt TouchEnd
           (TouchMove [(k_1, k_0); (k_6, k_0)] k_1 k_1) initial eq_refl).
  right. split; reflexivity.
Defined.

(** X17.  No event repairs a NaN: once the zoom, the rotation or the colour
    offset is NaN it stays NaN through every later sequence of events.  A
    NaN rotation is reached by pressing and moving on a canvas whose width
    and height are zero. *)
Theorem nan_is_never_repaired :
  forall hypot evs s,
    (is_nan (zoom s) = true -> is_nan (zoom (handle_all hypot evs s)) = true)
    /\ (is_nan (rotation s) = true
        -> is_nan (rotation (handle_all hypot evs s)) = true)
    /\ (is_nan (colorOffset s) = true
        -> is_nan (colorOffset (handle_all hypot evs s)) = true)
    /\ is_nan (rotation (handle_all hypot flat_drag initial)) = true.
Proof.
  intros hypot evs s.
  destruct (handle_all_keeps_nan hypot evs s) as (Hz & Hr & Hc).
  split; [exact Hz|]. split; [exact Hr|]. split; [exact Hc|].
  vm_compute. reflexivity.
Qed.

Lemma nan_is_never_repaired_witness :
  is_nan (zoom (handle_all hypot_sqrt extreme_pinch initial)) = true
  /\ is_nan (zoom (handle_all hypot_sqrt sample_session
                     (handle_all hypot_sqrt extreme_pinch initial))) = true.
Proof.
  assert (H : is_nan (zoom (handle_all hypot_sqrt extreme_pinch initial))
              = true) by (vm_compute; reflexivity).
  split; [exact H|].
  exact (proj1 (nan_is_never_repaired hypot_sqrt sample_session
                  (handle_all hypot_sqrt extreme_pinch initial)) H).
Defined.

End GestureGuarantees.

(** ** Escaping and the comment list *)

Module CommentFacts.

Import Comments SearchFacts RegexFacts CountFacts LineFacts RemediateFacts.
Local Open Scope string_scope.
Local Open Scope nat_scope.

Lemma esc_subst v :
  esc v = subst ">" "&gt;" (subst "<" "&lt;" (subst "&" "&amp;" (to_string v))).
Proof. unfold esc, rx_gt, rx_lt, rx_amp. rewrite !replace_all_chr. reflexivity. Qed.

Lemma count_subst_same c r s :
  Str.count_char c r = 0 -> Str.count_char c (subst c r s) = 0.
Proof.
  intros H. rewrite count_char_subst, H, Ascii.eqb_refl. lia.
Qed.

Lemma count_subst_other x c r s :
  Ascii.eqb x c = false -> Str.count_char x r = 0 ->
  Str.count_char x (subst c r s) = Str.count_char x s.
Proof.
  intros Hx H. rewrite count_char_subst, H, Hx. lia.
Qed.

Lemma esc_no_lt v : Str.count_char "<" (esc v) = 0.
Proof.
  rewrite esc_subst. rewrite count_subst_other by reflexivity.
  apply count_subst_same. reflexivity.
Qed.

Lemma esc_no_gt v : Str.count_char ">" (esc v) = 0.
Proof. rewrite esc_subst. apply count_subst_same. reflexivity. Qed.

Lemma subst_app c r a b : subst c r (a ++ b) = subst c r a ++ subst c r b.
Proof.
  induction a as [|d a IH]; [reflexivity|]. cbn [append subst].
  rewrite IH, append_assoc. reflexivity.
Qed.

Lemma esc_cons c s : esc (JStr (String c s)) = esc_char c ++ esc (JStr s).
Proof.
  rewrite !esc_subst. cbn [to_string].
  change (String c s) with (String c EmptyString ++ s).
  rewrite !subst_app. f_equal.
  unfold esc_char. cbn [subst append].
  rewrite (Ascii.eqb_sym c "&"), (Ascii.eqb_sym c "<"), (Ascii.eqb_sym c ">").
  destruct (Ascii.eqb "&" c) eqn:Ea; [reflexivity|].
  cbn [subst append]. destruct (Ascii.eqb "<" c) eqn:El; [reflexivity|].
  cbn [subst append]. destruct (Ascii.eqb ">" c) eqn:Eg; reflexivity.
Qed.

(** Reading the escaped text back gives the text. *)
Lemma unescape_esc s : unescape (esc (JStr s)) = s.
Proof.
  induction s as [|c s IH]; [reflexivity|].
  rewrite esc_cons. unfold esc_char.
  destruct (Ascii.eqb_spec c "&") as [->|Ha].
  { cbn [append]. cbn [unescape Str.startsWith Str.drop Ascii.eqb Bool.eqb andb].
    rewrite IH. reflexivity. }
  destruct (Ascii.eqb_spec c "<") as [->|Hl].
  { cbn [append]. cbn [unescape Str.startsWith Str.drop Ascii.eqb Bool.eqb andb].
    rewrite IH. reflexivity. }
  destruct (Ascii.eqb_spec c ">") as [->|Hg].
  { cbn [append]. cbn [unescape Str.startsWith Str.drop Ascii.eqb Bool.eqb andb].
    rewrite IH. reflexivity. }
  cbn [append unescape Str.startsWith].
  destruct (Ascii.eqb_spec "&" c) as [E|_]; [congruence|].
  cbn [andb]. rewrite IH. reflexivity.
Qed.

Lemma markup_tags x n t ts :
  Ascii.eqb x "<" = true \/ Ascii.eqb x ">" = true ->
  Str.count_char x (commentMarkup n t ts) = 8.
Proof.
  intros Hx. unfold commentMarkup. rewrite !count_char_app.
  destruct Hx as [Hx|Hx]; apply Ascii.eqb_eq in Hx; subst x.
  - rewrite !esc_no_lt. reflexivity.
  - rewrite !esc_no_gt. reflexivity.
Qed.

(** *** Posting *)

Lemma fieldOr_blank x :
  match x with Some v => all_space v = true | None => True end ->
  fieldOr x EmptyString = EmptyString.
Proof.
  destruct x as [v|]; [|reflexivity]. intros H. unfold fieldOr.
  destruct (Str.is_empty v); [reflexivity | apply trim_all_space; exact H].
Qed.


Lemma same_mode_refl b : same_mode b b.
Proof. repeat split; auto. Qed.













End CommentFacts.

Module CommentGuarantees.

Import Comments SearchFacts RegexFacts CountFacts LineFacts RemediateFacts
  CommentFacts.
Local Open Scope string_scope.
Local Open Scope nat_scope.

(** X18.  [esc] leaves no [<] and no [>] in its result, whatever value it
    is given, and an HTML parser reads the escaped text of a string back as
    that string: the ampersand is replaced first, so the references written
    for [<] and [>] are not escaped again. *)
Theorem esc_neutralises_markup :
  forall v,
    Str.count_char "<" (esc v) = 0
    /\ Str.count_char ">" (esc v) = 0
    /\ unescape (esc v) = to_string v.
Proof.
  intros v. split; [apply esc_no_lt|]. split; [apply esc_no_gt|].
  change (esc v) with (esc (JStr (to_string v))). apply unescape_esc.
Qed.

(** X19.  The markup [appendCommentUI] builds for a comment has the same
    eight tags whatever the nickname, the text and the time are: the three
    values bring no [<] and no [>] of their own. *)
Theorem comment_markup_has_fixed_tags :
  forall nickText text ts,
    Str.count_char "<" (commentMarkup nickText text ts) = 8
    /\ Str.count_char ">" (commentMarkup nickText text ts) = 8.
Proof.
  intros n t ts. split; apply markup_tags; [left | right]; reflexivity.
Qed.

(** X20.  A comment whose text is empty or white space only is not posted:
    [postCommentHandler] shows the alert and changes nothing else, online or
    not. *)
Theorem blank_comment_is_not_posted :
  forall online now b,
    match textValue b with Some v => all_space v = true | None => True end ->
    postCommentHandler online now b
    = (Ret tt,
       Board (nickValue b) (emailValue b) (textValue b) (commentList b)
             (localComments b) (demoLocal b) (firestore b) (sent b)
             ("Write a comment before posting." :: alerts b) (mainLog b)).
Proof.
  intros online now b H. unfold postCommentHandler.
  rewrite (fieldOr_blank _ H). reflexivity.
Qed.

Lemma blank_comment_is_not_posted_witness :
  all_space "   " = true
  /\ sent (state_of (postCommentHandler true "now"
                       (Board (Some "me") None (Some "   ") (Some []) [] false
                              true [] [] [])))
     = [].
Proof.
  split; [reflexivity|].
  rewrite (blank_comment_is_not_posted true "now"
             (Board (Some "me") None (Some "   ") (Some []) [] false true [] [] [])
             eq_refl).
  reflexivity.
Defined.



End CommentGuarantees.

(** ** The gutter, the counters and the two fix buttons *)

Module EditorFacts.

Import Fixer Editor SearchFacts RegexFacts CountFacts LineFacts.
Local Open Scope string_scope.
Local Open Scope nat_scope.

Lemma digits_only d :
  all_chars is_digit (DecimalString.NilEmpty.string_of_uint d) = true.
Proof. induction d; cbn [DecimalString.NilEmpty.string_of_uint all_chars]; auto. Qed.

Lemma string_of_nat_digits n : all_chars is_digit (string_of_nat n) = true.
Proof.
  unfold string_of_nat, DecimalString.NilZero.string_of_uint.
  destruct (Nat.to_uint n); first [apply digits_only | reflexivity].
Qed.

Lemma string_of_nat_line n : Str.count_char NL (string_of_nat n) = 0.
Proof.
  pose proof (string_of_nat_digits n) as H.
  induction (string_of_nat n) as [|c s IH]; [reflexivity|].
  cbn [all_chars Str.count_char] in *. apply andb_prop in H.
  destruct H as [Hc Hs]. rewrite (IH Hs).
  destruct (Ascii.eqb_spec NL c) as [<-|_]; [discriminate Hc | reflexivity].
Qed.

Lemma numberLoop_app n :
  forall i html, numberLoop n i html = html ++ numberLoop n i EmptyString.
Proof.
  induction n as [|n IH]; intros i html; cbn [numberLoop].
  - rewrite append_empty_r. reflexivity.
  - rewrite IH. rewrite (IH (S i) (EmptyString ++ _)).
    cbn [append]. rewrite !append_assoc. reflexivity.
Qed.

(** The gutter text is the numbers from [i] on, each followed by a line
    break. *)
Lemma numberLoop_lines n :
  forall i,
    Str.split_nl (numberLoop n i EmptyString)
    = (map string_of_nat (List.seq i n) ++ [EmptyString])%list.
Proof.
  induction n as [|n IH]; intros i; [reflexivity|].
  cbn [numberLoop List.seq map]. rewrite numberLoop_app.
  cbn [append]. rewrite append_assoc.
  rewrite split_nl_app by apply string_of_nat_line.
  rewrite IH. reflexivity.
Qed.

Lemma length_subst c r s :
  String.length (subst c r s) + Str.count_char c s
  = String.length s + Str.count_char c s * String.length r.
Proof.
  induction s as [|d s IH]; [reflexivity|].
  cbn [subst Str.count_char String.length]. rewrite length_app.
  destruct (Ascii.eqb c d); cbn [String.length]; lia.
Qed.

Lemma expandTabs_length s :
  String.length (replace_all false rx_tab (fun _ _ => "    ") s)
  = String.length s + 3 * Str.count_char TAB s.
Proof.
  unfold rx_tab. rewrite replace_all_chr.
  pose proof (length_subst TAB "    " s) as H.
  cbn [String.length] in H. lia.
Qed.

Lemma expandTabs_lines s :
  Str.count_char NL (replace_all false rx_tab (fun _ _ => "    ") s)
  = Str.count_char NL s.
Proof.
  unfold rx_tab. rewrite replace_all_chr, count_char_subst.
  change (Str.count_char NL "    ") with 0.
  change (Ascii.eqb NL TAB) with false. lia.
Qed.

End EditorFacts.

Module EditorGuarantees.

Import Fixer Editor Buttons PageFacts SearchFacts RegexFacts CountFacts
  LineFacts EditorFacts OutputFacts PipelineFacts RemediateFacts.
Local Open Scope string_scope.
Local Open Scope nat_scope.

(** X22.  [updateLineNumbers] numbers as many lines as the editor text has:
    one more than its line breaks, so one line for an empty editor.  The
    gutter holds the numbers from 1 on, each followed by a line break, and
    [#lineCount], when the page has it, shows their number. *)
Theorem gutter_numbers_every_line :
  forall p, exists html,
    lineNumbers (updateLineNumbers p) = Some html
    /\ Str.split_nl html
       = (numbered (S (Str.count_char NL (innerText p))) ++ [EmptyString])%list
    /\ lineCount (updateLineNumbers p)
       = setText (lineCount p)
           (string_of_nat (S (Str.count_char NL (innerText p)))).
Proof.
  intros p. eexists. split; [reflexivity|].
  unfold updateLineNumbers. cbn [lineCount].
  rewrite length_split_nl, expandTabs_lines, numberLoop_lines.
  split; reflexivity.
Qed.

(** X23.  [#charCount], when the page has it, shows the length of the
    editor text with every tab counted as four. *)
Theorem char_count_counts_a_tab_as_four :
  forall p,
    charCount (updateLineNumbers p)
    = setText (charCount p)
        (string_of_nat (String.length (innerText p)
                        + 3 * Str.count_char TAB (innerText p))).
Proof.
  intros p. unfold updateLineNumbers. cbn [charCount].
  rewrite expandTabs_length. reflexivity.
Qed.

Lemma fixClick_run now a :
  fixClick now a
  = (Ret tt,
     App (state_of (smartFixShader (JStr (sourceOf a)) (page_of a)))
         (updateLineNumbers
            (Panel (repairText (normalizeNewlines (sourceOf a)))
                   (lineNumbers (panel_of a)) (lineCount (panel_of a))
                   (charCount (panel_of a))))
         (logsInput a)
         (now ++ " [OK] Auto-fix applied" ++ Str.nl ++ compileLogText a)
         (now ++ " [OK] Auto-fix applied" ++ Str.nl ++ compileLogText a)
         "inline-block" (alerts a)).
Proof.
  unfold fixClick, try_catch, bind, onPage.
  rewrite smartFixShader_run. reflexivity.
Qed.

(** X24.  A click on the fix button puts into the editor the text
    [smartFixShader] returns for the editor text, which is also the text in
    [window.GODFIX_FIXED]; it has an entry point and no [texture2D(] call.
    The line counter is refreshed for the new text, the download button is
    shown, and [Auto-fix applied] goes on top of the compile log. *)
Theorem fix_button_puts_the_repair_in_the_editor :
  forall now a, exists out,
    value_of (smartFixShader (JStr (sourceOf a)) (page_of a)) = Ret (JStr out)
    /\ innerText (panel_of (state_of (fixClick now a))) = out
    /\ GODFIX_FIXED (page_of (state_of (fixClick now a))) = JStr out
    /\ test false rx_main out = true
    /\ Str.includes "texture2D(" out = false
    /\ lineCount (panel_of (state_of (fixClick now a)))
       = setText (lineCount (panel_of a))
           (string_of_nat (S (Str.count_char NL out)))
    /\ downloadDisplay (state_of (fixClick now a)) = "inline-block"
    /\ compileLogText (state_of (fixClick now a))
       = now ++ " [OK] Auto-fix applied" ++ Str.nl ++ compileLogText a.
Proof.
  intros now a. exists (repairText (normalizeNewlines (sourceOf a))).
  rewrite fixClick_run. unfold state_of.
  cbn [snd panel_of page_of downloadDisplay compileLogText].
  split; [rewrite smartFixShader_run; reflexivity|].
  split; [reflexivity|].
  split; [rewrite smartFixShader_run; reflexivity|].
  split; [unfold repairText; apply mainText_has_main|].
  split; [apply free_repairText|].
  split; [|split; reflexivity].
  unfold updateLineNumbers. cbn [lineCount innerText].
  rewrite length_split_nl, expandTabs_lines. reflexivity.
Qed.

(** X25.  A click on the apply-logs button with nothing to apply, the logs
    input empty or missing and the compile log empty, shows the alert and
    changes nothing else: the editor, the page and the logs stay as they
    are. *)
Theorem apply_logs_without_logs_only_alerts :
  forall now a,
    logsTextOf a = EmptyString ->
    applyLogsClick now a
    = (Ret tt,
       App (page_of a) (panel_of a) (logsInput a) (compileLogText a)
           (lastCompileLog a) (downloadDisplay a)
           ("Paste logs into the Logs input first or compile to produce logs."
            :: alerts a)).
Proof.
  intros now a H. unfold applyLogsClick, try_catch, bind. rewrite H.
  reflexivity.
Qed.

Lemma apply_logs_without_logs_only_alerts_witness :
  logsTextOf (App page0 (Panel "void main(){}" None None None) (Some "")
                  "" "" "none" [])
  = EmptyString
  /\ panel_of (state_of (applyLogsClick "12:00:00"
                 (App page0 (Panel "void main(){}" None None None) (Some "")
                      "" "" "none" [])))
     = Panel "void main(){}" None None None.
Proof.
  split; [reflexivity|].
  rewrite (apply_logs_without_logs_only_alerts "12:00:00"
             (App page0 (Panel "void main(){}" None None None) (Some "")
                  "" "" "none" []) eq_refl).
  reflexivity.
Defined.

(** X26.  A click on the apply-logs button with logs to apply, the logs
    input when it is not empty and the text of the compile log otherwise,
    puts into the editor the text [parseErrorsAndFix] returns for the
    editor text and those logs; that text has an entry point and no
    [texture2D(] call. *)
Theorem apply_logs_puts_the_patched_repair_in_the_editor :
  forall now a,
    logsTextOf a <> EmptyString ->
    exists out,
      value_of (parseErrorsAndFix (JStr (sourceOf a)) (JStr (logsTextOf a))
                  (page_of a)) = Ret (JStr out)
      /\ innerText (panel_of (state_of (applyLogsClick now a))) = out
      /\ test false rx_main out = true
      /\ Str.includes "texture2D(" out = false
      /\ compileLogText (state_of (applyLogsClick now a))
         = now ++ " [OK] Applied fixes derived from logs" ++ Str.nl
           ++ compileLogText a.
Proof.
  intros now a H.
  destruct (returns_string_foldM (candidateErrors (logLines (logsTextOf a)))
              (sourceOf a)
              (Page (("OK", "parseErrorsAndFix: analyzing logs")
                       :: JS.mainLog (page_of a))
                    (GODFIX_FIXED (page_of a)))) as (patched & w1 & E1).
  assert (V : parseErrorsAndFix (JStr (sourceOf a)) (JStr (logsTextOf a))
                (page_of a)
              = (Ret (JStr (repairText (normalizeNewlines patched))),
                 state_of (parseErrorsAndFix (JStr (sourceOf a))
                             (JStr (logsTextOf a)) (page_of a)))).
  { unfold parseErrorsAndFix, try_catch, state_of.
    rewrite parseErrorsAndFix_try_eq, E1, smartFixShader_run. reflexivity. }
  exists (repairText (normalizeNewlines patched)).
  split; [rewrite V; reflexivity|].
  assert (Hne : Str.is_empty (logsTextOf a) = false)
    by (destruct (logsTextOf a); [congruence | reflexivity]).
  unfold applyLogsClick, try_catch, bind, onPage. rewrite Hne, V.
  unfold state_of, value_of. cbn [fst snd to_string].
  split; [reflexivity|].
  split; [unfold repairText; apply mainText_has_main|].
  split; [apply free_repairText | reflexivity].
Qed.

Lemma apply_logs_puts_the_patched_repair_in_the_editor_witness :
  logsTextOf (App page0 (Panel "x" None None None) (Some "note") "" ""
                  "none" [])
  <> EmptyString
  /\ exists out,
       innerText (panel_of (state_of (applyLogsClick "12:00:00"
                    (App page0 (Panel "x" None None None) (Some "note") "" ""
                         "none" [])))) = out
       /\ test false rx_main out = true.
Proof.
  assert (H : logsTextOf (App page0 (Panel "x" None None None) (Some "note")
                              "" "" "none" []) <> EmptyString)
    by discriminate.
  split; [exact H|].
  destruct (apply_logs_puts_the_patched_repair_in_the_editor "12:00:00"
              (App page0 (Panel "x" None None None) (Some "note") "" ""
                   "none" []) H) as (out & _ & Hi & Hm & _).
  exists out. split; [exact Hi | exact Hm].
Defined.

End EditorGuarantees.

(** ** A guarded division stays, and is guarded again *)

Module GuardFacts.

Import Fixer PageFacts SearchFacts RegexFacts OccursFacts ReplaceFacts
  CaptureFacts StepFacts PipelineFacts CountFacts OutputFacts LineFacts
  NewlineFacts MatcherFacts Derive DivisionFacts ReturnFacts.
Local Open Scope string_scope.
Local Open Scope nat_scope.

(** *** Where a match starts *)

Lemma zero_width_sound r :
  zero_width r = true ->
  forall st st', Matches false r st st' -> rest st' = rest st.
Proof.
  induction r as [ |a| |neg items| | | |r1 IH1 r2 IH2|r1 IH1 r2 IH2
                  |mn mx greedy r1 IH1|n r1 IH1];
    intros Hz st st' H; cbn [zero_width] in Hz; try discriminate Hz;
    cbn [Matches] in H.
  - subst st'. reflexivity.
  - destruct H as [_ ->]. reflexivity.
  - destruct H as [_ ->]. reflexivity.
  - destruct H as [_ ->]. reflexivity.
  - apply andb_prop in Hz. destruct Hz as [Z1 Z2].
    destruct H as (st1 & H1 & H2).
    rewrite (IH2 Z2 _ _ H2). apply (IH1 Z1 _ _ H1).
Qed.

Lemma leads_sound F r :
  leads F r = true ->
  forall st st',
    Matches false r st st' ->
    exists c s', rest st = String c s' /\ F c = true.
Proof.
  induction r as [ |a| |neg items| | | |r1 IH1 r2 IH2|r1 IH1 r2 IH2
                  |mn mx greedy r1 IH1|n r1 IH1];
    intros Hl st st' H; cbn [leads] in Hl; try discriminate Hl;
    cbn [Matches] in H.
  - destruct H as (c & s' & E & Hc & _). cbn [canonicalize] in Hc.
    apply Ascii.eqb_eq in Hc. subst c. exists a, s'. auto.
  - destruct H as (st1 & H1 & H2).
    apply orb_prop in Hl. destruct Hl as [Hl|Hl]; [exact (IH1 Hl _ _ H1)|].
    apply andb_prop in Hl. destruct Hl as [Z1 L2].
    rewrite <- (zero_width_sound r1 Z1 _ _ H1). exact (IH2 L2 _ _ H2).
  - apply andb_prop in Hl. destruct Hl as [L1 L2].
    destruct H as [H|H]; [exact (IH1 L1 _ _ H) | exact (IH2 L2 _ _ H)].
  - apply andb_prop in Hl. destruct Hl as [Hl L1].
    apply andb_prop in Hl. destruct Hl as [Hmn Hmx].
    apply Nat.ltb_lt in Hmn. apply negb_true_iff in Hmx.
    inversion H as [? ? ? Hstop|? ? ? st1 ? _ HR _ _]; subst.
    + destruct Hstop as [E|E]; [lia | congruence].
    + exact (IH1 L1 _ _ HR).
  - destruct H as (st1 & H1 & _). exact (IH1 Hl _ _ H1).
Qed.

Lemma no_match_at F r p c s :
  leads F r = true -> F c = false -> match_here false r p (String c s) = None.
Proof.
  intros Hl Hc. destruct (match_here false r p (String c s)) as [st|] eqn:E;
    [|reflexivity].
  apply match_here_sound in E. apply (leads_sound F r Hl) in E.
  destruct E as (c' & s' & E & Hc'). cbn [rest] in E. congruence.
Qed.

(** *** An occurrence that no match can touch *)

Section Keep.

Variable r : regex.
Variable f : string -> mstate -> string.
Variable ok F : ascii -> bool.
Variable c0 : ascii.
Variable occ : string.

Hypothesis consumes : consumes_only ok false r.
Hypothesis fence : ok c0 = false.
Hypothesis starts : leads F r = true.
Hypothesis foreign : all_chars (fun c => negb (F c)) (String c0 occ) = true.

Lemma scan_through o :
  all_chars (fun c => negb (F c)) o = true ->
  forall fuel p b,
    exists t, replace_from fuel false r f p (o ++ b) = o ++ t.
Proof.
  induction o as [|c o IH]; intros Ho fuel p b.
  - eexists. reflexivity.
  - cbn [all_chars] in Ho. apply andb_prop in Ho. destruct Ho as [Hc Ho].
    apply negb_true_iff in Hc.
    destruct fuel as [|fuel]; [eexists; reflexivity|].
    cbn [append replace_from]. rewrite (no_match_at F r p c _ starts Hc).
    destruct (IH Ho fuel (Some c) b) as (t & ->). eexists. reflexivity.
Qed.

Lemma prefix_fence w :
  forall a x y,
    w ++ x = a ++ String c0 y -> all_chars ok w = true ->
    exists a2, a = w ++ a2 /\ x = a2 ++ String c0 y.
Proof.
  induction w as [|d w IH]; intros a x y E Hw.
  - exists a. auto.
  - cbn [all_chars] in Hw. apply andb_prop in Hw. destruct Hw as [Hd Hw].
    destruct a as [|e a]; cbn [append] in E; injection E as -> E.
    + congruence.
    + destruct (IH a x y E Hw) as (a2 & -> & ->). exists a2. auto.
Qed.

(** The replacement keeps the occurrence [c0 occ], wherever it stands. *)
Lemma replace_from_keeps b :
  forall fuel a p,
    exists a' t,
      replace_from fuel false r f p (a ++ String c0 (occ ++ b))
      = a' ++ String c0 (occ ++ t).
Proof.
  induction fuel as [|fuel IH]; intros a p.
  { exists a, b. reflexivity. }
  destruct a as [|c a].
  { destruct (scan_through (String c0 occ) foreign (S fuel) p b) as (t & E).
    exists EmptyString, t. exact E. }
  cbn [append replace_from].
  destruct (match_here false r p (String c (a ++ String c0 (occ ++ b))))
    as [st|] eqn:E.
  - destruct (String.length (String c (a ++ String c0 (occ ++ b)))
              - String.length (rest st) =? 0) eqn:En.
    + destruct (IH a (Some c)) as (a' & t & ->).
      eexists (_ ++ String c a'), t. rewrite append_assoc. reflexivity.
    + pose proof (match_here_sound _ _ _ _ E) as HM.
      destruct (Matches_consumes ok false r consumes _ _ HM) as (w & Ew & Aw).
      cbn [rest] in Ew.
      change (String c (a ++ String c0 (occ ++ b)))
        with (String c a ++ String c0 (occ ++ b)) in Ew.
      symmetry in Ew.
      destruct (prefix_fence w (String c a) (rest st) (occ ++ b) Ew Aw)
        as (a2 & _ & Er).
      rewrite Er.
      destruct (IH a2 (prev st)) as (a' & t & ->).
      eexists (_ ++ a'), t. rewrite append_assoc. reflexivity.
  - destruct (IH a (Some c)) as (a' & t & ->).
    exists (String c a'), t. reflexivity.
Qed.

Lemma includes_mid a t :
  Str.includes (String c0 occ) (a ++ String c0 (occ ++ t)) = true.
Proof.
  apply includes_app_r.
  change (String c0 (occ ++ t)) with (String c0 occ ++ t).
  apply includes_app_l.
  cbn [Str.includes]. apply orb_true_iff. left.
  clear. cbn [Str.startsWith]. rewrite Ascii.eqb_refl. cbn [andb].
  induction occ as [|c o IH]; [reflexivity|].
  cbn [Str.startsWith]. rewrite Ascii.eqb_refl. exact IH.
Qed.

Lemma replace_all_keeps s :
  Str.includes (String c0 occ) s = true ->
  Str.includes (String c0 occ) (replace_all false r f s) = true.
Proof.
  intros H. apply includes_split in H. destruct H as (a & x & -> & Hx).
  apply startsWith_eq in Hx.
  set (b := Str.drop (String.length (String c0 occ)) x) in Hx.
  clearbody b. subst x. unfold replace_all.
  destruct (replace_from_keeps b
              (S (String.length (a ++ String c0 occ ++ b))) a None)
    as (a' & t & E).
  change (String c0 (occ ++ b)) with (String c0 occ ++ b) in E.
  rewrite E. apply includes_mid.
Qed.

End Keep.


(** *** The guard through the steps of the repair *)

Lemma lit_consumes ok l :
  all_chars ok l = true -> consumes_only ok false (lit l).
Proof.
  induction l as [|a l IH]; intros Hl; [exact I|].
  cbn [all_chars] in Hl. apply andb_prop in Hl. destruct Hl as [Ha Hl].
  assert (Hchr : consumes_only ok false (Chr a)).
  { cbn [consumes_only canonicalize]. intros x Hx.
    apply Ascii.eqb_eq in Hx. subst x. exact Ha. }
  destruct l as [|b l]; [exact Hchr|].
  change (lit (String a (String b l))) with (Seq (Chr a) (lit (String b l))).
  split; [exact Hchr | exact (IH Hl)].
Qed.

Lemma word_consumes ok l :
  all_chars ok l = true -> consumes_only ok false (seq [WordB; lit l; WordB]).
Proof.
  intros Hl. cbn [seq consumes_only]. split; [exact I|]. split; [|exact I].
  apply lit_consumes. exact Hl.
Qed.

(** A replacement by one of the patterns of steps 0, 3, 7 and 8 keeps a
    guard that the text holds. *)
Lemma pattern_keeps r f ok s :
  consumes_only ok false r -> ok "/"%char = false ->
  leads off_guard r = true ->
  Str.includes guard s = true ->
  Str.includes guard (replace_all false r f s) = true.
Proof.
  intros Hc Hf Hl. apply (replace_all_keeps r f ok off_guard "/" " max(" Hc Hf Hl).
  reflexivity.
Qed.

Lemma normalizeNewlines_keeps s :
  Str.includes guard s = true ->
  Str.includes guard (normalizeNewlines s) = true.
Proof.
  intros H. unfold normalizeNewlines.
  apply (pattern_keeps rx_cr _ not_slash);
    [apply (lit_consumes not_slash (String CR EmptyString)); reflexivity
    | reflexivity | reflexivity |].
  apply (pattern_keeps rx_crlf _ not_slash);
    [apply (lit_consumes not_slash (String CR (String NL EmptyString)));
     reflexivity
    | reflexivity | reflexivity | exact H].
Qed.

Lemma precisionText_keeps s :
  Str.includes guard s = true -> Str.includes guard (precisionText s) = true.
Proof.
  intros H. unfold precisionText. destruct (negb _); [|exact H].
  apply includes_app_r. apply includes_app_r. exact H.
Qed.

Lemma uniformsText_keeps s :
  Str.includes guard s = true -> Str.includes guard (uniformsText s) = true.
Proof.
  unfold uniformsText. generalize 0 as n. revert s.
  induction uniforms as [|u us IH]; intros s n H; [exact H|].
  cbn [fold_left]. unfold addUniform at 2.
  destruct (negb (test false (fst u) s)); apply IH; [|exact H].
  apply includes_app_r. apply includes_app_r. exact H.
Qed.

Lemma textureText_keeps s :
  Str.includes guard s = true -> Str.includes guard (textureText s) = true.
Proof.
  intros H. unfold textureText. destruct (test false rx_texture2D s); [|exact H].
  apply (pattern_keeps rx_texture2D _ not_slash);
    [apply lit_consumes; reflexivity | reflexivity | reflexivity | exact H].
Qed.

Lemma guard_nonempty : guard <> EmptyString.
Proof. discriminate. Qed.

Lemma includes_join_some l :
  Str.includes guard (Str.join_nl l) = true ->
  exists x, In x l /\ Str.includes guard x = true.
Proof.
  induction l as [|x l IH]; intros H; [discriminate H|].
  destruct l as [|y l]; [exists x; split; [left; reflexivity | exact H]|].
  rewrite join_nl_cons in H by discriminate. unfold Str.nl in H.
  cbn [append] in H.
  rewrite (@includes_sep guard NL eq_refl guard_nonempty) in H.
  apply orb_prop in H. destruct H as [H|H].
  - exists x. split; [left; reflexivity | exact H].
  - destruct (IH H) as (z & Hz & Hi). exists z. split; [right; exact Hz | exact Hi].
Qed.

Lemma includes_join_in x l :
  In x l -> Str.includes guard x = true ->
  Str.includes guard (Str.join_nl l) = true.
Proof.
  induction l as [|y l IH]; intros Hin H; [destruct Hin|].
  destruct l as [|z l].
  - apply in_inv in Hin. destruct Hin as [->|[]]. exact H.
  - rewrite join_nl_cons by discriminate.
    apply in_inv in Hin. destruct Hin as [->|Hin].
    + apply includes_app_l. exact H.
    + apply includes_app_r. apply includes_app_r. exact (IH Hin H).
Qed.

Lemma semicolonsText_keeps s :
  Str.includes guard s = true -> Str.includes guard (semicolonsText s) = true.
Proof.
  intros H. rewrite <- (join_split s) in H.
  apply includes_join_some in H. destruct H as (x & Hin & Hx).
  unfold semicolonsText.
  apply (includes_join_in (semicolonLine x)); [apply in_map; exact Hin|].
  destruct (semicolonLine_cases x) as [E|E]; rewrite E; [exact Hx|].
  apply includes_app_l. exact Hx.
Qed.

(** A text that holds a guard holds a division for step 5. *)
Lemma guard_is_division s :
  Str.includes guard s = true -> match_count false rx_division s <> 0.
Proof.
  intros H. apply test_match_count.
  apply includes_split in H. destruct H as (a & x & -> & Hx).
  apply startsWith_eq in Hx. rewrite Hx. apply test_app. apply guard_found.
Qed.

(** Step 5 leaves a guard wherever it finds a division. *)
Lemma guardDivisions_guard s :
  match_count false rx_division s <> 0 ->
  Str.includes guard (guardDivisions s) = true.
Proof.
  intros H. unfold guardDivisions, replace_all.
  destruct (replace_from_first false rx_division divisionGuard _ _ _ H)
    as (a & q & s1 & st & b & Em & ->).
  rewrite (divisionGuard_guards q s1 st _ Em).
  apply includes_app_r. apply includes_app_l. apply includes_app_l.
  reflexivity.
Qed.

Lemma closing_keeps s :
  Str.includes guard s = true ->
  Str.includes guard
    (mainText (coerceVecInit (replacePlaceholders (parensText (bracesText s)))))
  = true.
Proof.
  intros H.
  assert (H6 : Str.includes guard (bracesText s) = true).
  { unfold bracesText. destruct (_ <? _); [|exact H].
    apply includes_app_l. exact H. }
  assert (H7 : Str.includes guard (parensText (bracesText s)) = true).
  { unfold parensText. destruct (_ <? _); [|exact H6].
    apply includes_app_l. exact H6. }
  assert (H8 : Str.includes guard
                 (replacePlaceholders (parensText (bracesText s))) = true).
  { unfold replacePlaceholders.
    apply (pattern_keeps rx_NULL _ not_slash);
      [apply word_consumes; reflexivity | reflexivity | reflexivity |].
    apply (pattern_keeps rx_undefined _ not_slash);
      [apply word_consumes; reflexivity | reflexivity | reflexivity
      | exact H7]. }
  assert (H9 : Str.includes guard
                 (coerceVecInit
                    (replacePlaceholders (parensText (bracesText s)))) = true).
  { unfold coerceVecInit.
    apply (pattern_keeps rx_vec_init _ plain);
      [exact vec_init_consumes | reflexivity | reflexivity | exact H8]. }
  unfold mainText. destruct (negb _); [|exact H9].
  apply includes_app_l. exact H9.
Qed.

(** *** The commas of the repaired text *)

Lemma comma_constant r rep s :
  consumes_only (fun x => negb (Ascii.eqb "," x)) false r ->
  Str.count_char "," rep = 0 ->
  Str.count_char "," (replace_all false r (fun _ _ => rep) s)
  = Str.count_char "," s.
Proof. apply count_replace_constant. Qed.

Lemma normalizeNewlines_commas s :
  Str.count_char "," (normalizeNewlines s) = Str.count_char "," s.
Proof.
  unfold normalizeNewlines.
  rewrite comma_constant;
    [|apply (lit_consumes _ (String CR EmptyString)); reflexivity
     | reflexivity].
  apply comma_constant;
    [apply (lit_consumes _ (String CR (String NL EmptyString))); reflexivity
    | reflexivity].
Qed.

(** Step 5 is the one step that writes a comma: one for each division it
    finds. *)
Lemma repairText_commas out :
  Str.count_char "," (repairText out)
  = Str.count_char "," out
    + match_count false rx_division
        (semicolonsText (textureText (textBeforeTexture out))).
Proof.
  unfold repairText, textBeforeTexture.
  assert (H1 : Str.count_char "," (precisionText out)
               = Str.count_char "," out).
  { unfold precisionText. destruct (negb _); reflexivity. }
  pose proof (uniformsText_count "," (precisionText out)
                ltac:(unfold uniforms; repeat constructor) eq_refl) as H2.
  set (t2 := uniformsText (precisionText out)) in *.
  assert (H3 : Str.count_char "," (textureText t2) = Str.count_char "," t2).
  { unfold textureText. destruct (test false rx_texture2D t2); [|reflexivity].
    apply comma_constant; [apply lit_consumes; reflexivity | reflexivity]. }
  set (t3 := textureText t2) in *.
  pose proof (semicolonsText_count "," t3 eq_refl eq_refl) as H4.
  set (t4 := semicolonsText t3) in *.
  pose proof (guardDivisions_commas t4) as H5.
  set (t5 := guardDivisions t4) in *.
  pose proof (bracesText_parens "," t5 eq_refl eq_refl) as H6.
  set (t6 := bracesText t5) in *.
  pose proof (parensText_braces "," t6 eq_refl) as H7.
  set (t7 := parensText t6) in *.
  pose proof (replacePlaceholders_count "," t7 eq_refl) as H8.
  set (t8 := replacePlaceholders t7) in *.
  pose proof (coerceVecInit_count "," t8 eq_refl) as H9.
  change (if Ascii.eqb "," "(" || Ascii.eqb "," ")" then 1 else 0)
    with 0 in H9.
  set (t9 := coerceVecInit t8) in *.
  assert (H10 : Str.count_char "," (mainText t9) = Str.count_char "," t9).
  { unfold mainText. destruct (negb _); [|reflexivity].
    rewrite count_char_app. change (Str.count_char "," fallback_main) with 0.
    lia. }
  lia.
Qed.

(** One run on a text that holds a guard: the guard stays and a comma is
    added. *)
Lemma one_run_keeps_guard t :
  Str.includes guard t = true ->
  Str.includes guard (repairText (normalizeNewlines t)) = true
  /\ Str.count_char "," t
     < Str.count_char "," (repairText (normalizeNewlines t)).
Proof.
  intros H.
  pose proof (normalizeNewlines_keeps t H) as H0.
  set (t0 := normalizeNewlines t) in *.
  pose proof (semicolonsText_keeps _
                (textureText_keeps _
                   (uniformsText_keeps _ (precisionText_keeps _ H0)))) as H4.
  pose proof (guard_is_division _ H4) as N.
  split.
  - unfold repairText, textBeforeTexture. apply closing_keeps.
    apply guardDivisions_guard. exact N.
  - rewrite repairText_commas. unfold t0 at 1.
    rewrite normalizeNewlines_commas. unfold textBeforeTexture. lia.
Qed.

End GuardFacts.

(** ** What the user of the fix button sees of the guard *)

Module GuardGuarantees.

Import Fixer PageFacts PipelineFacts DivisionFacts RepairGuarantees GuardFacts.
Local Open Scope string_scope.
Local Open Scope nat_scope.

(** X27.  A text that holds a guarded division, [/ max(], never settles.
    However many times [smartFixShader] is run on its own result, every run
    returns a text that still holds the guard and has at least one comma more
    than the text it was given: after [n] runs the text has at least [n]
    commas more than the source, and one more run changes it again. *)
Theorem guarded_text_never_settles :
  forall t,
    Str.includes guard t = true ->
    forall n w, exists out w',
      rerun n (JStr t) w = (Ret (JStr out), w')
      /\ Str.includes guard out = true
      /\ Str.count_char "," t + n <= Str.count_char "," out
      /\ (forall w'' next,
            value_of (smartFixShader (JStr out) w'') = Ret (JStr next) ->
            Str.includes guard next = true
            /\ Str.count_char "," out < Str.count_char "," next
            /\ next <> out).
Proof.
  intros t H n. revert t H. induction n as [|n IH]; intros t H w.
  - exists t, w. split; [reflexivity|]. split; [exact H|]. split; [lia|].
    intros w'' next E. rewrite smartFixShader_value in E. injection E as <-.
    destruct (one_run_keeps_guard t H) as [G C].
    split; [exact G|]. split; [exact C|].
    intros E. rewrite E in C. lia.
  - destruct (one_run_keeps_guard t H) as [G C].
    destruct (IH _ G (state_of (smartFixShader (JStr t) w)))
      as (out & w' & E & Go & Co & Next).
    exists out, w'. split.
    { cbn [rerun]. unfold bind. rewrite smartFixShader_run.
      rewrite smartFixShader_run in E. exact E. }
    split; [exact Go|]. split; [lia | exact Next].
Qed.

Lemma guarded_text_never_settles_witness :
  exists out w',
    rerun 2 (JStr "a / max(b, 0.000001)") page0 = (Ret (JStr out), w')
    /\ Str.includes guard out = true
    /\ Str.count_char "," "a / max(b, 0.000001)" + 2 <= Str.count_char "," out
    /\ (forall w'' next,
          value_of (smartFixShader (JStr out) w'') = Ret (JStr next) ->
          Str.includes guard next = true
          /\ Str.count_char "," out < Str.count_char "," next
          /\ next <> out).
Proof.
  apply (guarded_text_never_settles "a / max(b, 0.000001)" eq_refl 2 page0).
Defined.

(** X28.  [smartFixShader] never takes a comma away, and the one step that
    writes a comma is the division guard: a returned text with more commas
    than the source holds a guarded division [/ max(]. *)
Theorem a_comma_more_means_a_guard :
  forall t w out,
    value_of (smartFixShader (JStr t) w) = Ret (JStr out) ->
    Str.count_char "," t <= Str.count_char "," out
    /\ (Str.count_char "," t < Str.count_char "," out ->
        Str.includes guard out = true).
Proof.
  intros t w out E. rewrite smartFixShader_value in E.
  injection E as <-.
  rewrite repairText_commas, normalizeNewlines_commas.
  split; [lia|]. intros H.
  unfold repairText. apply closing_keeps. apply guardDivisions_guard. lia.
Qed.

Lemma a_comma_more_means_a_guard_witness :
  Str.count_char "," "c = a / b;"
  <= Str.count_char "," (repairText (normalizeNewlines "c = a / b;"))
  /\ (Str.count_char "," "c = a / b;"
      < Str.count_char "," (repairText (normalizeNewlines "c = a / b;")) ->
      Str.includes guard (repairText (normalizeNewlines "c = a / b;")) = true).
Proof.
  apply (a_comma_more_means_a_guard "c = a / b;" page0).
  vm_compute. reflexivity.
Defined.

End GuardGuarantees.
